(** * TextWorld, Glulx environment: output interpretation and game state

    A shallow embedding of [textworld/envs/glulx/git_glulx_ml.py]:
    the tag scanner ([_detect_i7_events_debug_tags], [_detect_extra_infos]),
    the lazily derived game state ([GlulxGameState]) and the session driver
    ([GitGlulxMLEnvironment]), followed by the properties proved about them.

    Conventions of the embedding.
    - A Python [str] is a [string]; the model works on 8-bit characters.
    - A Python exception is a value of [exn]; a computation that may raise
      returns a [result].
    - An attribute that may be unset ([hasattr] is tested on it, or a [view]
      leaves it out) is an [option] field: [None] means "unset".
    - The progression tracker is one mutable object shared by the snapshots
      of a session; it lives in a store and the snapshots hold its
      location. *)

From Stdlib Require Import ZArith Lia Ascii String List Bool Sorted OrdersEx.
From stdpp Require Import base gmap strings list sorting.

Local Open Scope Z_scope.

(* ===================================================================== *)
(** * Exceptions and results *)
(* ===================================================================== *)

Inductive exn : Type :=
| MissingGameInfosError
| StateTrackingIsRequiredError (info : string)
| OraclePolicyIsRequiredError (info : string)
| ExtraInfosIsMissingError (info : string)
| GameNotRunningError
| ValueError
| AssertionError
| TypeError
| OverflowError
| AttributeError (attr : string).

Inductive result (A : Type) : Type :=
| Ok (a : A)
| Raise (e : exn).

Arguments Ok {A} a.
Arguments Raise {A} e.

Definition rbind {A B : Type} (r : result A) (k : A -> result B) : result B :=
  match r with
  | Ok a => k a
  | Raise e => Raise e
  end.

Notation "'try!' x ':=' r 'in' k" := (rbind r (fun x => k))
  (at level 10, x name, r at level 100, k at level 200, only parsing).
Notation "'try!' ' p ':=' r 'in' k" := (rbind r (fun x => let 'p := x in k))
  (at level 10, p pattern, r at level 100, k at level 200, only parsing).

Definition returns {A : Type} (r : result A) : Prop :=
  match r with Ok _ => True | Raise _ => False end.

Definition raises {A : Type} (r : result A) : Prop :=
  match r with Ok _ => False | Raise _ => True end.

(* ===================================================================== *)
(** * Python string primitives *)
(* ===================================================================== *)

Module Str.

Definition LF : ascii := "010"%char.
Definition ESC : ascii := "027"%char.
Definition nl : string := String LF "".

Definition ascii_eqb (a b : ascii) : bool := Ascii.eqb a b.

(** [s.startswith(p)] *)
Fixpoint startswith (p s : string) : bool :=
  match p with
  | "" => true
  | String a p' =>
      match s with
      | "" => false
      | String b s' => ascii_eqb a b && startswith p' s'
      end
  end.

(** [s[n:]] and [s[:n]] for a non-negative [n]. *)
Fixpoint drop (n : nat) (s : string) : string :=
  match n, s with
  | O, _ => s
  | S _, "" => ""
  | S k, String _ s' => drop k s'
  end.

Fixpoint take (n : nat) (s : string) : string :=
  match n, s with
  | O, _ => ""
  | S _, "" => ""
  | S k, String c s' => String c (take k s')
  end.

(** [s.endswith(p)] *)
Definition endswith (p s : string) : bool :=
  (String.length p <=? String.length s)%nat
  && String.eqb (drop (String.length s - String.length p) s) p.

(** [s[:-n]] for a positive [n]. *)
Definition drop_last (n : nat) (s : string) : string :=
  take (String.length s - n) s.

(** [s[1:-1]] *)
Definition slice_1_m1 (s : string) : string :=
  drop 1 (drop_last 1 s).

(** [s.find(sub)]: the index of the first occurrence, if any. *)
Fixpoint find (sub s : string) : option nat :=
  if startswith sub s then Some O
  else match s with
       | "" => None
       | String _ s' => option_map S (find sub s')
       end.

(** [sub in s] *)
Definition contains (sub s : string) : bool :=
  match find sub s with Some _ => true | None => false end.

(** [s.index(sub)] raises [ValueError] when [sub] does not occur. *)
Definition index (sub s : string) : result nat :=
  match find sub s with Some i => Ok i | None => Raise ValueError end.

(** [s.replace(old, new)] scans left to right and replaces the
    non-overlapping occurrences of [old]. [skip] counts the characters of
    an occurrence that are still to be passed over. *)
Fixpoint replace_from (old new : string) (skip : nat) (s : string) : string :=
  match s with
  | "" => ""
  | String c s' =>
      match skip with
      | S k => replace_from old new k s'
      | O =>
          if startswith old s
          then new +:+ replace_from old new (String.length old - 1) s'
          else String c (replace_from old new 0 s')
      end
  end.

Fixpoint intersperse_after (new s : string) : string :=
  match s with
  | "" => ""
  | String c s' => String c (new +:+ intersperse_after new s')
  end.

Definition replace (old new s : string) : string :=
  match old with
  | "" => new +:+ intersperse_after new s
  | _ => replace_from old new 0 s
  end.

(** The characters [str.strip()] removes, in the 8-bit range. *)
Definition is_space (c : ascii) : bool :=
  let n := nat_of_ascii c in
  ((9 <=? n)%nat && (n <=? 13)%nat) || ((28 <=? n)%nat && (n <=? 32)%nat).

Fixpoint lstrip (s : string) : string :=
  match s with
  | "" => ""
  | String c s' => if is_space c then lstrip s' else s
  end.

Fixpoint rstrip (s : string) : string :=
  match s with
  | "" => ""
  | String c s' =>
      match rstrip s' with
      | "" => if is_space c then "" else String c ""
      | r => String c r
      end
  end.

Definition strip (s : string) : string := rstrip (lstrip s).

End Str.

(** [l.remove(x)]: deletes the first element equal to [x]; raises
    [ValueError] when there is none. *)
Fixpoint list_remove (x : string) (l : list string) : result (list string) :=
  match l with
  | [] => Raise ValueError
  | y :: l' =>
      if String.eqb y x then Ok l'
      else try! l'' := list_remove x l' in Ok (y :: l'')
  end.

(* ===================================================================== *)
(** * The tag scanner *)
(* ===================================================================== *)

(** [_strip_input_prompt_symbol] *)
Definition _strip_input_prompt_symbol (text : string) : string :=
  if Str.endswith (Str.nl +:+ ">") text then Str.drop_last 2 text else text.

(** ** [re.findall] with the pattern [(?<!\x1b)\[[^]]+\]\n?] *)

(** The characters before the first [']'] of [s]; [None] when [s] has no
    [']']. *)
Fixpoint until_close (s : string) : option string :=
  match s with
  | "" => None
  | String c s' =>
      if Str.ascii_eqb c "]" then Some ""
      else option_map (String c) (until_close s')
  end.

(** The pattern [\[[^]]+\]\n?] anchored at the start of [s]. The class
    [[^]]] also matches ['['] and a line feed, so the token runs to the
    first [']'], which must not follow the ['['] directly. *)
Definition match_tag_at (s : string) : option string :=
  match s with
  | String c s' =>
      if Str.ascii_eqb c "[" then
        match until_close s' with
        | Some "" => None
        | Some body =>
            let rest := Str.drop (S (String.length body)) s' in
            Some (String "[" (body +:+ "]"
                   +:+ (if Str.startswith Str.nl rest then Str.nl else "")))
        | None => None
        end
      else None
  | "" => None
  end.

(** The scan of [re.findall]: [prev_esc] tells whether the character before
    the current position is ESC (the negative lookbehind), [skip] counts
    the characters of the current match still to be passed over. A match
    ends in [']'] or a line feed, so the position after it is never
    preceded by ESC. *)
Fixpoint findall_from (prev_esc : bool) (skip : nat) (s : string) : list string :=
  match s with
  | "" => []
  | String c s' =>
      match skip with
      | S k => findall_from false k s'
      | O =>
          match (if prev_esc then None else match_tag_at s) with
          | Some m => m :: findall_from false (String.length m - 1) s'
          | None => findall_from (Str.ascii_eqb c Str.ESC) 0 s'
          end
      end
  end.

Definition findall_tags (text : string) : list string :=
  findall_from false 0 text.

(** ** [_detect_i7_events_debug_tags] *)

(** The state of the loop: the successes recorded so far, the open tags
    and the text. *)
Record scan_state : Type := ScanState {
  sc_matches : list string;
  sc_open_tags : list string;
  sc_text : string
}.

(** One iteration of the [for match in ...] loop. *)
Definition scan_step (st : scan_state) (m : string) : result scan_state :=
  let text := Str.replace m "" (sc_text st) in
  let tag_name := Str.slice_1_m1 (Str.strip m) in
  if Str.contains " - failed" tag_name then
    try! i := Str.index " - failed" tag_name in
    let tag_name := Str.take i tag_name in
    try! open_tags := list_remove tag_name (sc_open_tags st) in
    Ok (ScanState (sc_matches st) open_tags text)
  else if Str.contains " - succeeded" tag_name then
    try! i := Str.index " - succeeded" tag_name in
    let tag_name := Str.take i tag_name in
    try! open_tags := list_remove tag_name (sc_open_tags st) in
    Ok (ScanState (sc_matches st ++ [tag_name]) open_tags text)
  else
    Ok (ScanState (sc_matches st) (sc_open_tags st ++ [tag_name]) text).

Fixpoint scan_loop (st : scan_state) (ms : list string) : result scan_state :=
  match ms with
  | [] => Ok st
  | m :: ms' => try! st' := scan_step st m in scan_loop st' ms'
  end.

(** The loop of the function, up to the filtering of the sub-rules. *)
Definition scan_tags (text : string) : result scan_state :=
  scan_loop (ScanState [] [] text) (findall_tags text).

(** The test of the final list comprehension: neither parenthesis occurs
    in [m]. *)
Definition not_subrule (m : string) : bool :=
  negb (Str.contains "(" m) && negb (Str.contains ")" m).

Definition _detect_i7_events_debug_tags (text : string)
  : result (list string * string) :=
  try! st := scan_tags text in
  let matches := List.filter not_subrule (sc_matches st) in
  if (0 <? length matches)%nat then
    match sc_open_tags st with
    | [] => Ok (matches, sc_text st)
    | _ :: _ => Raise AssertionError
    end
  else Ok (matches, sc_text st).

(** [_strip_i7_event_debug_tags] *)
Definition _strip_i7_event_debug_tags (text : string) : result string :=
  try! '(_, text) := _detect_i7_events_debug_tags text in Ok text.

(** ** [_detect_extra_infos] *)

(** [s.partition(sep)] and [s.rpartition(sep)] without the separator:
    the text before and after the first (the last) occurrence of [sep]. *)
Fixpoint split_first (sep s : string) : option (string * string) :=
  if Str.startswith sep s then Some ("", Str.drop (String.length sep) s)
  else match s with
       | "" => None
       | String c s' =>
           match split_first sep s' with
           | Some (a, b) => Some (String c a, b)
           | None => None
           end
       end.

Fixpoint split_last (sep s : string) : option (string * string) :=
  match s with
  | "" => if Str.startswith sep "" then Some ("", "") else None
  | String c s' =>
      match split_last sep s' with
      | Some (a, b) => Some (String c a, b)
      | None =>
          if Str.startswith sep s then Some ("", Str.drop (String.length sep) s)
          else None
      end
  end.

Definition open_tag (tag : string) : string := "<" +:+ tag +:+ ">" +:+ Str.nl.
Definition close_tag (tag : string) : string := "</" +:+ tag +:+ ">".

(** [re.search] with [re.DOTALL] for the pattern made of the opening tag,
    a line feed, one greedy any-character group and the closing tag: the
    leftmost match starts at the first opening tag and, the group being
    greedy, runs to
    the last closing tag after it. An opening tag that no closing tag
    follows has no later opening tag that one follows either. The result
    is the text before the match, group 1 and the text after the match. *)
Definition re_search_block (tag text : string)
  : option (string * string * string) :=
  match split_first (open_tag tag) text with
  | None => None
  | Some (pre, rest) =>
      match split_last (close_tag tag) rest with
      | None => None
      | Some (inner, post) => Some (pre, inner, post)
      end
  end.

(** [re.sub] with the empty replacement: every match is deleted, the search going on
    after each one. A match is never empty, so the length of the text
    bounds the number of rounds. *)
Fixpoint re_sub_block_fuel (fuel : nat) (tag text : string) : string :=
  match fuel with
  | O => text
  | S f =>
      match re_search_block tag text with
      | None => text
      | Some (pre, _, post) => pre +:+ re_sub_block_fuel f tag post
      end
  end.

Definition re_sub_block (tag text : string) : string :=
  re_sub_block_fuel (String.length text) tag text.

Definition extra_info_tags : list string :=
  ["description"; "inventory"; "score"].

(** One iteration of the [for tag in tags] loop. *)
Definition extra_infos_step (acc : gmap string string * string) (tag : string)
  : result (gmap string string * string) :=
  let '(matches, text) := acc in
  match re_search_block tag text with
  | Some (_, group1, _) =>
      try! '(_, cleaned_text) := _detect_i7_events_debug_tags group1 in
      Ok (<[tag := cleaned_text]> matches, re_sub_block tag text)
  | None => Ok (matches, text)
  end.

Fixpoint extra_infos_loop (acc : gmap string string * string)
    (tags : list string) : result (gmap string string * string) :=
  match tags with
  | [] => Ok acc
  | tag :: tags' =>
      try! acc' := extra_infos_step acc tag in extra_infos_loop acc' tags'
  end.

Definition _detect_extra_infos (text : string)
  : result (gmap string string * string) :=
  extra_infos_loop (∅, text) extra_info_tags.

(* ===================================================================== *)
(** * Python built-ins used by the game state *)
(* ===================================================================== *)

(** ** [int(text)] on a string *)

Definition digit_value (c : ascii) : option Z :=
  let n := nat_of_ascii c in
  if ((48 <=? n)%nat && (n <=? 57)%nat) then Some (Z.of_nat (n - 48)) else None.

(** The digits of a decimal literal; one underscore may stand between two
    digits. [after_digit] tells whether the previous character is a
    digit. *)
Fixpoint int_digits (acc : Z) (after_digit : bool) (s : string) : option Z :=
  match s with
  | "" => if after_digit then Some acc else None
  | String c s' =>
      match digit_value c with
      | Some d => int_digits (10 * acc + d) true s'
      | None =>
          if Str.ascii_eqb c "_" && after_digit then int_digits acc false s'
          else None
      end
  end.

(** The characters that [int()] skips before and after a numeral: the
    white space of C, codes 9 to 13 and 32. The separators of codes 28 to
    31, which [str.strip()] removes, are not skipped. *)
Definition is_int_space (c : ascii) : bool :=
  let n := nat_of_ascii c in
  ((9 <=? n)%nat && (n <=? 13)%nat) || (n =? 32)%nat.

Fixpoint int_lstrip (s : string) : string :=
  match s with
  | "" => ""
  | String c s' => if is_int_space c then int_lstrip s' else s
  end.

Fixpoint int_rstrip (s : string) : string :=
  match s with
  | "" => ""
  | String c s' =>
      match int_rstrip s' with
      | "" => if is_int_space c then "" else String c ""
      | r => String c r
      end
  end.

(** [int(s)] on an ASCII text: the white space around the numeral is
    skipped, one sign is allowed; anything else raises [ValueError]. The
    limit that recent interpreters put on the number of digits
    ([sys.set_int_max_str_digits]) is a setting of the interpreter and is
    taken as disabled. *)
Definition py_int (s : string) : result Z :=
  let body := int_rstrip (int_lstrip s) in
  let signed :=
    match body with
    | String c s' =>
        if Str.ascii_eqb c "-" then option_map Z.opp (int_digits 0 false s')
        else if Str.ascii_eqb c "+" then int_digits 0 false s'
        else int_digits 0 false body
    | "" => None
    end in
  match signed with
  | Some z => Ok z
  | None => Raise ValueError
  end.

(** ** [sorted(set(l))] on a list of strings *)

(** The elements of [set(l)]. The order in which a Python set is iterated
    is not specified; [sorted] erases it (lemma [sorted_permutation]
    below), so any duplicate-free enumeration will do. *)
Definition py_set (l : list string) : list string := remove_dups l.

(** Strings compare lexicographically by character code. *)
Fixpoint insert_sorted (x : string) (l : list string) : list string :=
  match l with
  | [] => [x]
  | y :: l' => if String.leb x y then x :: l else y :: insert_sorted x l'
  end.

(** [sorted(l)], a stable sort. *)
Definition sorted (l : list string) : list string :=
  foldr insert_sorted [] l.

(** [np.sign] on an integer. *)
Definition np_sign (z : Z) : Z := Z.sgn z.

(* ===================================================================== *)
(** * A state and exception monad *)
(* ===================================================================== *)

(** A method that reads and writes an object of type [S] and may raise:
    the object as left behind is returned in either case, since what a
    method has written before it raises stays written. *)
Definition M (S A : Type) : Type := S -> result A * S.

Definition ret {S A : Type} (a : A) : M S A := fun s => (Ok a, s).

Definition throw {S A : Type} (e : exn) : M S A := fun s => (Raise e, s).

Definition bind {S A B : Type} (m : M S A) (k : A -> M S B) : M S B :=
  fun s =>
    match m s with
    | (Ok a, s') => k a s'
    | (Raise e, s') => (Raise e, s')
    end.

Definition gets {S A : Type} (f : S -> A) : M S A := fun s => (Ok (f s), s).

Definition modify {S : Type} (f : S -> S) : M S unit := fun s => (Ok tt, f s).

Definition lift {S A : Type} (r : result A) : M S A := fun s => (r, s).

(** Reading an attribute that may be unset. *)
Definition getattr {S A : Type} (name : string) (f : S -> option A) : M S A :=
  fun s =>
    match f s with
    | Some a => (Ok a, s)
    | None => (Raise (AttributeError name), s)
    end.

(** Running a method of a component [S] of the object [T]. *)
Definition zoom {S T A : Type} (get : T -> S) (set : S -> T -> T)
    (m : M S A) : M T A :=
  fun t => let '(r, s') := m (get t) in (r, set s' t).

Notation "'do!' x ':=' m 'in' k" := (bind m (fun x => k))
  (at level 10, x name, m at level 100, k at level 200, only parsing).
Notation "'do!' ' p ':=' m 'in' k" := (bind m (fun x => let 'p := x in k))
  (at level 10, p pattern, m at level 100, k at level 200, only parsing).

(* ===================================================================== *)
(** * The collaborators *)
(* ===================================================================== *)

(** What the game state consumes from [textworld.generator] ([Game],
    [GameProgression], [Inform7Game]) and [textworld.logic] ([Action],
    [State]): their code is outside this development and they are used
    through this interface only. *)
Class GameLogic : Type := {
  Action : Type;
  State : Type;
  Quest : Type;
  Game : Type;
  GameProgression : Type;
  (** [game.quests] and [game.objective] *)
  game_quests : Game -> list Quest;
  game_objective : Game -> string;
  (** [GameProgression(game, track_quests=b)] *)
  GameProgression_new : Game -> bool -> GameProgression;
  (** the read views of a tracker *)
  gp_state : GameProgression -> State;
  gp_valid_actions : GameProgression -> list Action;
  gp_winning_policy : GameProgression -> option (list Action);
  gp_score : GameProgression -> Z;
  gp_max_score : GameProgression -> Z;
  gp_completed : GameProgression -> bool;
  gp_failed : GameProgression -> bool;
  (** [progression.update(action)], in place *)
  gp_update : GameProgression -> Action -> GameProgression;
  (** [Inform7Game(game).gen_commands_from_actions(actions)] and
      [Inform7Game(game).detect_action(i7_event, actions)] *)
  gen_commands_from_actions : Game -> list Action -> list string;
  detect_action : Game -> string -> list Action -> option Action
}.

(* ===================================================================== *)
(** * [GlulxGameState] *)
(* ===================================================================== *)

Module GameState.
Section GameStateModel.
Context `{GameLogic}.

(** The trackers of the sessions: [GameProgression] objects are mutated in
    place and shared by the snapshots that hold their location. *)
Definition store : Type := list GameProgression.

(** The attributes of a [GlulxGameState]. [_command], [_feedback],
    [_nb_moves] and [previous_state] belong to the base class
    [textworld.GameState]. *)
Inductive GlulxGameState : Type := MkGlulxGameState {
  previous_state : option GlulxGameState;
  _command : option string;
  _feedback : string;
  _nb_moves : nat;
  has_timeout : bool;
  _state_tracking : bool;
  _compute_intermediate_reward : bool;
  _max_score : Z;
  _extra_infos : option (gmap string string);
  _game : option Game;
  _game_progression : option nat;
  _inform7 : option Game;
  _objective : option string;
  _score : option Z;
  _state : option State;
  _action : option Action;
  _description : option string;
  _inventory : option string;
  _has_won : option bool;
  _has_lost : option bool;
  _admissible_commands : option (list string);
  _policy_commands : option (list string)
}.

(** Attribute assignments. *)
Definition set_previous_state (v : option GlulxGameState) (s : GlulxGameState) :=
  let '(MkGlulxGameState _ a2 a3 a4 a5 a6 a7 a8 a9 a10 a11 a12 a13 a14 a15 a16 a17 a18 a19 a20 a21 a22) := s in
  MkGlulxGameState v a2 a3 a4 a5 a6 a7 a8 a9 a10 a11 a12 a13 a14 a15 a16 a17 a18 a19 a20 a21 a22.
Definition set_feedback (v : string) (s : GlulxGameState) :=
  let '(MkGlulxGameState a1 a2 _ a4 a5 a6 a7 a8 a9 a10 a11 a12 a13 a14 a15 a16 a17 a18 a19 a20 a21 a22) := s in
  MkGlulxGameState a1 a2 v a4 a5 a6 a7 a8 a9 a10 a11 a12 a13 a14 a15 a16 a17 a18 a19 a20 a21 a22.
Definition set_has_timeout (v : bool) (s : GlulxGameState) :=
  let '(MkGlulxGameState a1 a2 a3 a4 _ a6 a7 a8 a9 a10 a11 a12 a13 a14 a15 a16 a17 a18 a19 a20 a21 a22) := s in
  MkGlulxGameState a1 a2 a3 a4 v a6 a7 a8 a9 a10 a11 a12 a13 a14 a15 a16 a17 a18 a19 a20 a21 a22.
Definition set_score (v : option Z) (s : GlulxGameState) :=
  let '(MkGlulxGameState a1 a2 a3 a4 a5 a6 a7 a8 a9 a10 a11 a12 a13 _ a15 a16 a17 a18 a19 a20 a21 a22) := s in
  MkGlulxGameState a1 a2 a3 a4 a5 a6 a7 a8 a9 a10 a11 a12 a13 v a15 a16 a17 a18 a19 a20 a21 a22.
Definition set_state (v : option State) (s : GlulxGameState) :=
  let '(MkGlulxGameState a1 a2 a3 a4 a5 a6 a7 a8 a9 a10 a11 a12 a13 a14 _ a16 a17 a18 a19 a20 a21 a22) := s in
  MkGlulxGameState a1 a2 a3 a4 a5 a6 a7 a8 a9 a10 a11 a12 a13 a14 v a16 a17 a18 a19 a20 a21 a22.
Definition set_action (v : option Action) (s : GlulxGameState) :=
  let '(MkGlulxGameState a1 a2 a3 a4 a5 a6 a7 a8 a9 a10 a11 a12 a13 a14 a15 _ a17 a18 a19 a20 a21 a22) := s in
  MkGlulxGameState a1 a2 a3 a4 a5 a6 a7 a8 a9 a10 a11 a12 a13 a14 a15 v a17 a18 a19 a20 a21 a22.
Definition set_has_won (v : option bool) (s : GlulxGameState) :=
  let '(MkGlulxGameState a1 a2 a3 a4 a5 a6 a7 a8 a9 a10 a11 a12 a13 a14 a15 a16 a17 a18 _ a20 a21 a22) := s in
  MkGlulxGameState a1 a2 a3 a4 a5 a6 a7 a8 a9 a10 a11 a12 a13 a14 a15 a16 a17 a18 v a20 a21 a22.
Definition set_has_lost (v : option bool) (s : GlulxGameState) :=
  let '(MkGlulxGameState a1 a2 a3 a4 a5 a6 a7 a8 a9 a10 a11 a12 a13 a14 a15 a16 a17 a18 a19 _ a21 a22) := s in
  MkGlulxGameState a1 a2 a3 a4 a5 a6 a7 a8 a9 a10 a11 a12 a13 a14 a15 a16 a17 a18 a19 v a21 a22.
Definition set_admissible_commands (v : option (list string)) (s : GlulxGameState) :=
  let '(MkGlulxGameState a1 a2 a3 a4 a5 a6 a7 a8 a9 a10 a11 a12 a13 a14 a15 a16 a17 a18 a19 a20 _ a22) := s in
  MkGlulxGameState a1 a2 a3 a4 a5 a6 a7 a8 a9 a10 a11 a12 a13 a14 a15 a16 a17 a18 a19 a20 v a22.
Definition set_policy_commands (v : option (list string)) (s : GlulxGameState) :=
  let '(MkGlulxGameState a1 a2 a3 a4 a5 a6 a7 a8 a9 a10 a11 a12 a13 a14 a15 a16 a17 a18 a19 a20 a21 _) := s in
  MkGlulxGameState a1 a2 a3 a4 a5 a6 a7 a8 a9 a10 a11 a12 a13 a14 a15 a16 a17 a18 a19 a20 a21 v.

(** [GlulxGameState.__init__]: the base class leaves the snapshot without
    command and without predecessor; the other attributes are unset. *)
(** Modelled from the spec: [textworld.GameState.__init__], whose source
    (textworld/core.py) is not part of this development; the initial
    snapshot has no command, no previous snapshot and a move count of
    zero. *)
Definition GlulxGameState_new : GlulxGameState :=
  {| previous_state := None; _command := None; _feedback := ""; _nb_moves := 0;
     has_timeout := false; _state_tracking := false;
     _compute_intermediate_reward := false; _max_score := 0;
     _extra_infos := None; _game := None; _game_progression := None;
     _inform7 := None; _objective := None; _score := None; _state := None;
     _action := None; _description := None; _inventory := None;
     _has_won := None; _has_lost := None;
     _admissible_commands := None; _policy_commands := None |}.

(** The tracker a snapshot refers to. *)
Definition progression (sigma : store) : M GlulxGameState GameProgression :=
  do! l := getattr "_game_progression" _game_progression in
  match sigma !! l with
  | Some gp => ret gp
  | None => throw (AttributeError "_game_progression")
  end.

(** The tracker at a location, for a snapshot under construction. *)
Definition progression_at (l : nat) : M store GameProgression :=
  fun sigma =>
    match sigma !! l with
    | Some gp => (Ok gp, sigma)
    | None => (Raise (AttributeError "_game_progression"), sigma)
    end.

(** ** The properties *)

(** Modelled from the spec: the properties [feedback], [command] and
    [nb_moves] of the base class [textworld.GameState] return the stored
    attribute. *)
Definition feedback : M GlulxGameState string := gets _feedback.
Definition command : M GlulxGameState (option string) := gets _command.
Definition nb_moves : M GlulxGameState nat := gets _nb_moves.

Definition objective : M GlulxGameState string :=
  getattr "_objective" _objective.

Definition max_score : M GlulxGameState Z := gets _max_score.

Definition has_won (sigma : store) : M GlulxGameState bool :=
  do! cached := gets _has_won in
  match cached with
  | Some b => ret b
  | None =>
      do! ci := gets _compute_intermediate_reward in
      do! b := (if ci : bool
                then do! gp := progression sigma in ret (gp_completed gp)
                else do! fb := feedback in
                     ret (Str.contains "*** The End ***" fb)) in
      do! _ := modify (set_has_won (Some b)) in
      ret b
  end.

Definition has_lost (sigma : store) : M GlulxGameState bool :=
  do! cached := gets _has_lost in
  match cached with
  | Some b => ret b
  | None =>
      do! ci := gets _compute_intermediate_reward in
      do! b := (if ci : bool
                then do! gp := progression sigma in ret (gp_failed gp)
                else do! fb := feedback in
                     ret (Str.contains "*** You lost! ***" fb)) in
      do! _ := modify (set_has_lost (Some b)) in
      ret b
  end.

Definition policy_commands (sigma : store) : M GlulxGameState (list string) :=
  do! cached := gets _policy_commands in
  match cached with
  | Some l => ret l
  | None =>
      do! ci := gets _compute_intermediate_reward in
      if negb ci then throw (OraclePolicyIsRequiredError "policy_commands")
      else
        do! _ := modify (set_policy_commands (Some [])) in
        do! gp := progression sigma in
        match gp_winning_policy gp with
        | Some winning_policy =>
            do! i7 := getattr "_inform7" _inform7 in
            let l := gen_commands_from_actions i7 winning_policy in
            do! _ := modify (set_policy_commands (Some l)) in
            ret l
        | None => ret []
        end
  end.

(** [self.previous_state.policy_commands]: the property runs on the
    previous snapshot, which keeps what it caches. *)
Definition previous_policy_commands (sigma : store) (prev : GlulxGameState)
  : M GlulxGameState (list string) :=
  fun s =>
    let '(r, prev') := policy_commands sigma prev in
    (r, set_previous_state (Some prev') s).

Definition intermediate_reward (sigma : store) : M GlulxGameState Z :=
  do! ci := gets _compute_intermediate_reward in
  if negb ci then throw (OraclePolicyIsRequiredError "intermediate_reward")
  else
    do! won := has_won sigma in
    if won : bool then ret 1
    else
      do! lost := has_lost sigma in
      if lost : bool then ret (-1)
      else
        do! prev := gets previous_state in
        match prev with
        | None => ret 0
        | Some prev =>
            do! before := previous_policy_commands sigma prev in
            do! now := policy_commands sigma in
            ret (np_sign (Z.of_nat (length before) - Z.of_nat (length now)))
        end.

Definition score (sigma : store) : M GlulxGameState Z :=
  do! cached := gets _score in
  match cached with
  | Some v => ret v
  | None =>
      do! tracking := gets _state_tracking in
      do! v := (if tracking : bool
                then do! gp := progression sigma in ret (gp_score gp)
                else
                  do! infos := getattr "_extra_infos" _extra_infos in
                  match infos !! "score" with
                  | None => throw (ExtraInfosIsMissingError "score")
                  | Some text => lift (py_int text)
                  end) in
      do! _ := modify (set_score (Some v)) in
      ret v
  end.

(** [has_won | has_lost | has_timeout]: the three operands are evaluated. *)
Definition game_ended (sigma : store) : M GlulxGameState bool :=
  do! won := has_won sigma in
  do! lost := has_lost sigma in
  do! timeout := gets has_timeout in
  ret (won || lost || timeout).

Definition state (sigma : store) : M GlulxGameState State :=
  do! cached := gets _state in
  match cached with
  | Some st => ret st
  | None =>
      do! gp := progression sigma in
      do! _ := modify (set_state (Some (gp_state gp))) in
      ret (gp_state gp)
  end.

Definition action : M GlulxGameState (option Action) := gets _action.

Definition admissible_commands (sigma : store)
  : M GlulxGameState (list string) :=
  do! cached := gets _admissible_commands in
  match cached with
  | Some l => ret l
  | None =>
      do! tracking := gets _state_tracking in
      if negb tracking
      then throw (StateTrackingIsRequiredError "admissible_commands")
      else
        do! i7 := getattr "_inform7" _inform7 in
        do! gp := progression sigma in
        let all_valid_commands :=
          gen_commands_from_actions i7 (gp_valid_actions gp) in
        let l := sorted (py_set all_valid_commands) in
        do! _ := modify (set_admissible_commands (Some l)) in
        ret l
  end.

(** ** [view] *)

(** [view] builds a new object from the values of the properties of
    [self]; reading them fills the cells of [self]. The view holds no
    tracker, game or side-channel facts. The previous snapshot is the one
    of [self]; nothing is written to it afterwards that a cell of it does
    not already answer, so it is copied here. *)
Definition view (sigma : store) : M GlulxGameState GlulxGameState :=
  do! prev := gets previous_state in
  do! st := state sigma in
  do! tracking := gets _state_tracking in
  do! ci := gets _compute_intermediate_reward in
  do! cmd := command in
  do! fb := feedback in
  do! act := action in
  do! description := gets (fun s => default "" (_description s)) in
  do! inventory := gets (fun s => default "" (_inventory s)) in
  do! obj := objective in
  do! sc := score sigma in
  do! mx := max_score in
  do! nb := nb_moves in
  do! won := has_won sigma in
  do! lost := has_lost sigma in
  do! timeout := gets has_timeout in
  do! adm := (if tracking : bool
              then do! l := admissible_commands sigma in ret (Some l)
              else ret None) in
  do! pol := (if ci : bool
              then do! l := policy_commands sigma in ret (Some l)
              else ret None) in
  ret {| previous_state := prev; _command := cmd; _feedback := fb;
         _nb_moves := nb; has_timeout := timeout; _state_tracking := tracking;
         _compute_intermediate_reward := ci; _max_score := mx;
         _extra_infos := None; _game := None; _game_progression := None;
         _inform7 := None; _objective := Some obj; _score := Some sc;
         _state := Some st; _action := act;
         _description := Some description; _inventory := Some inventory;
         _has_won := Some won; _has_lost := Some lost;
         _admissible_commands := adm; _policy_commands := pol |}.

(** ** [init] *)

(** Methods of the session read and write the store and the snapshot they
    are called on. *)
Definition on_self {A : Type} (m : store -> M GlulxGameState A)
  : M (store * GlulxGameState) A :=
  fun w => let '(r, s') := m (fst w) (snd w) in (r, (fst w, s')).

(** Modelled from the spec: [textworld.GameState.init], whose source
    (textworld/core.py) is not part of this development, stores the
    introductory narrative as feedback, with a move count of zero. *)
Definition GameState_init (output : string) (s : GlulxGameState)
  : GlulxGameState :=
  let '(MkGlulxGameState a1 a2 _ _ a5 a6 a7 a8 a9 a10 a11 a12 a13 a14 a15 a16 a17 a18 a19 a20 a21 a22) := s in
  MkGlulxGameState a1 a2 output 0%nat a5 a6 a7 a8 a9 a10 a11 a12 a13 a14 a15 a16 a17 a18 a19 a20 a21 a22.

(** The assignments of [init] after [super().init(output)]; [l] is the
    location of the new tracker. *)
Definition init_attributes (infos : gmap string string) (game : Game)
    (l : nat) (gp : GameProgression)
    (state_tracking compute_intermediate_reward : bool)
    (s : GlulxGameState) : GlulxGameState :=
  let '(MkGlulxGameState a1 a2 a3 a4 a5 _ _ _ _ _ _ _ _ _ a15 a16 a17 a18 a19 a20 a21 a22) := s in
  MkGlulxGameState a1 a2 a3 a4 a5
    state_tracking
    (compute_intermediate_reward && (0 <? length (game_quests game))%nat)
    (gp_max_score gp)
    (Some infos) (Some game) (Some l) (Some game)
    (Some (game_objective game)) (Some 0)
    a15 a16 a17 a18 a19 a20 a21 a22.

Definition init (output : string) (game : Game)
    (state_tracking compute_intermediate_reward : bool)
  : M (store * GlulxGameState) unit :=
  let output := _strip_input_prompt_symbol output in
  do! '(_, output) := lift (_detect_i7_events_debug_tags output) in
  do! '(infos, output) := lift (_detect_extra_infos output) in
  fun w =>
    let '(sigma, s) := w in
    let gp := GameProgression_new game state_tracking in
    (Ok tt,
     (sigma ++ [gp],
      init_attributes infos game (length sigma) gp
        state_tracking compute_intermediate_reward
        (GameState_init output s))).

(** ** [update] *)

(** Modelled from the spec: [textworld.GameState.update], whose source
    (textworld/core.py) is not part of this development, creates a new
    snapshot of the same class holding the command and the output, one
    move after [self]. *)
Definition GameState_update (command output : string) (self : GlulxGameState)
  : GlulxGameState :=
  let '(MkGlulxGameState a1 _ _ _ a5 a6 a7 a8 a9 a10 a11 a12 a13 a14 a15 a16 a17 a18 a19 a20 a21 a22) := GlulxGameState_new in
  MkGlulxGameState a1 (Some command) output (S (_nb_moves self)) a5 a6 a7 a8 a9 a10 a11 a12 a13 a14 a15 a16 a17 a18 a19 a20 a21 a22.

(** The attributes [update] copies from [self] to the new snapshot. *)
Definition inherit_attributes (prev : GlulxGameState) (obj : string)
    (mx : Z) (i7 game : Game) (l : nat) (tracking ci : bool)
    (infos : gmap string string) (game_state : GlulxGameState)
  : GlulxGameState :=
  let '(MkGlulxGameState _ a2 a3 a4 a5 _ _ _ _ _ _ _ _ a14 a15 a16 a17 a18 a19 a20 a21 a22) := game_state in
  MkGlulxGameState (Some prev) a2 a3 a4 a5 tracking ci mx
    (Some infos) (Some game) (Some l) (Some i7) (Some obj)
    a14 a15 a16 a17 a18 a19 a20 a21 a22.

(** The body of the loop over the detected events, run on the new
    snapshot: its tracker and the tracker of [self] are the same object. *)
Definition track_event (self : GlulxGameState) (i7_event : string)
  : M (store * GlulxGameState) unit :=
  let in_store {A : Type} (m : M store A) : M (store * GlulxGameState) A :=
    zoom fst (fun sigma w => (sigma, snd w)) m in
  let in_snapshot {A : Type} (m : M GlulxGameState A)
    : M (store * GlulxGameState) A :=
    zoom snd (fun s w => (fst w, s)) m in
  do! l := lift (match _game_progression self with
                 | Some l => Ok l
                 | None => Raise (AttributeError "_game_progression")
                 end) in
  do! gp := in_store (progression_at l) in
  let valid_actions := gp_valid_actions gp in
  do! i7 := lift (match _inform7 self with
                  | Some i7 => Ok i7
                  | None => Raise (AttributeError "_inform7")
                  end) in
  let act := detect_action i7 i7_event valid_actions in
  do! _ := in_snapshot (modify (set_action act)) in
  match act with
  | None => ret tt
  | Some a =>
      do! l' := in_snapshot (getattr "_game_progression" _game_progression) in
      do! gp' := in_store (progression_at l') in
      in_store (modify (fun sigma => <[l' := gp_update gp' a]> sigma))
  end.

Fixpoint track_events (self : GlulxGameState) (i7_events : list string)
  : M (store * GlulxGameState) unit :=
  match i7_events with
  | [] => ret tt
  | e :: es => do! _ := track_event self e in track_events self es
  end.

(** [update] is called on [self]; it returns the new snapshot and leaves
    [self] with the cells that [view] has filled. *)
Definition update (command output : string)
  : M (store * GlulxGameState) GlulxGameState :=
  let output := _strip_input_prompt_symbol output in
  do! '(extra_infos, output) := lift (_detect_extra_infos output) in
  do! game_state := gets (fun w => GameState_update command output (snd w)) in
  do! prev := on_self view in
  do! obj := on_self (fun _ => objective) in
  do! mx := on_self (fun _ => max_score) in
  do! i7 := on_self (fun _ => getattr "_inform7" _inform7) in
  do! game := on_self (fun _ => getattr "_game" _game) in
  do! l := on_self (fun _ => getattr "_game_progression" _game_progression) in
  do! tracking := gets (fun w => _state_tracking (snd w)) in
  do! ci := gets (fun w => _compute_intermediate_reward (snd w)) in
  do! old_infos := on_self (fun _ => getattr "_extra_infos" _extra_infos) in
  let game_state :=
    inherit_attributes prev obj mx i7 game l tracking ci
      (extra_infos ∪ old_infos) game_state in
  do! '(i7_events, fb) := lift (_detect_i7_events_debug_tags output) in
  let game_state := set_feedback fb game_state in
  do! self := gets snd in
  if _state_tracking self then
    fun w =>
      let '(r, (sigma', game_state')) :=
        track_events self i7_events (fst w, game_state) in
      (match r with Ok _ => Ok game_state' | Raise e => Raise e end,
       (sigma', snd w))
  else ret game_state.

End GameStateModel.
End GameState.

(* ===================================================================== *)
(** * [GitGlulxMLEnvironment] *)
(* ===================================================================== *)

(** The interpreter process and the glk library, consumed through their
    interface. Observing or addressing the process moves it to its next
    state: it may exit between two observations. *)
Class Transport : Type := {
  Process : Type;
  (** [subprocess.Popen] on the game file, after [lib.init_glulx] *)
  Popen : string -> Process;
  (** [process.poll() is None]: the process has not exited *)
  poll : Process -> bool * Process;
  (** [lib.communicate]: [None] stands for the NULL answer *)
  communicate : Process -> string -> option string * Process;
  (** [lib.get_output_nosend] *)
  get_output_nosend : Process -> option string * Process
}.

Module Env.
Import GameState.
Section EnvironmentModel.
Context `{GameLogic} `{Transport}.

(** The attributes of the environment; [heap] is not one of them: it holds
    the trackers that the snapshots of the environment refer to. *)
Record GitGlulxMLEnvironment : Type := MkEnv {
  _gamefile : string;
  _process : option Process;
  _state_tracking : bool;
  _compute_intermediate_reward : bool;
  game : Game;
  game_state : option GlulxGameState;
  extra_info : gset string;
  heap : store
}.

Definition set_process (v : option Process) (e : GitGlulxMLEnvironment) :=
  {| _gamefile := _gamefile e; _process := v;
     _state_tracking := _state_tracking e;
     _compute_intermediate_reward := _compute_intermediate_reward e;
     game := game e; game_state := game_state e;
     extra_info := extra_info e; heap := heap e |}.

Definition set_game_state (v : option GlulxGameState) (e : GitGlulxMLEnvironment) :=
  {| _gamefile := _gamefile e; _process := _process e;
     _state_tracking := _state_tracking e;
     _compute_intermediate_reward := _compute_intermediate_reward e;
     game := game e; game_state := v;
     extra_info := extra_info e; heap := heap e |}.

Definition set_heap (v : store) (e : GitGlulxMLEnvironment) :=
  {| _gamefile := _gamefile e; _process := _process e;
     _state_tracking := _state_tracking e;
     _compute_intermediate_reward := _compute_intermediate_reward e;
     game := game e; game_state := game_state e;
     extra_info := extra_info e; heap := v |}.

(** [__init__], once the game has been loaded from its json file. *)
Definition GitGlulxMLEnvironment_new (gamefile : string) (g : Game)
  : GitGlulxMLEnvironment :=
  {| _gamefile := gamefile; _process := None; _state_tracking := false;
     _compute_intermediate_reward := false; game := g; game_state := None;
     extra_info := ∅; heap := [] |}.

Definition enable_extra_info (info : string) (e : GitGlulxMLEnvironment) :=
  {| _gamefile := _gamefile e; _process := _process e;
     _state_tracking := _state_tracking e;
     _compute_intermediate_reward := _compute_intermediate_reward e;
     game := game e; game_state := game_state e;
     extra_info := {[ info ]} ∪ extra_info e; heap := heap e |}.

Definition activate_state_tracking (e : GitGlulxMLEnvironment) :=
  {| _gamefile := _gamefile e; _process := _process e;
     _state_tracking := true;
     _compute_intermediate_reward := _compute_intermediate_reward e;
     game := game e; game_state := game_state e;
     extra_info := extra_info e; heap := heap e |}.

Definition compute_intermediate_reward (e : GitGlulxMLEnvironment) :=
  {| _gamefile := _gamefile e; _process := _process e;
     _state_tracking := _state_tracking e;
     _compute_intermediate_reward := true;
     game := game e; game_state := game_state e;
     extra_info := extra_info e; heap := heap e |}.

(** [game_running]: there is a process and it has not exited. *)
Definition game_running : M GitGlulxMLEnvironment bool :=
  fun e =>
    match _process e with
    | None => (Ok false, e)
    | Some p => let '(alive, p') := poll p in (Ok alive, set_process (Some p') e)
    end.

(** [close]: a running process is killed and forgotten. *)
Definition close : M GitGlulxMLEnvironment unit :=
  do! alive := game_running in
  if alive : bool then modify (set_process None) else ret tt.

(** The five characters backslash, 0, 3, 3 and bracket, which [_send]
    and [reset] turn into ESC and bracket. *)
Definition escaped_csi : string := String "\" "033[".
Definition csi : string := String Str.ESC "[".

(** [_send]: [None] when the game is not running or the answer is NULL. *)
Definition _send (command : string) : M GitGlulxMLEnvironment (option string) :=
  do! alive := game_running in
  if negb alive then ret None
  else
    let command := if (String.length command =? 0)%nat then " " else command in
    do! p := getattr "_process" _process in
    let '(answer, p') := communicate p command in
    do! _ := modify (set_process (Some p')) in
    match answer with
    | None => do! _ := close in ret None
    | Some result => ret (Some (Str.replace escaped_csi csi result))
    end.

(** A method of the current snapshot, run from the environment. *)
Definition on_game_state {A : Type} (m : M (store * GlulxGameState) A)
  : M GitGlulxMLEnvironment A :=
  do! gs := getattr "game_state" game_state in
  fun e =>
    let '(r, (sigma, gs')) := m (heap e, gs) in
    (r, set_heap sigma (set_game_state (Some gs') e)).

Definition step (command : string)
  : M GitGlulxMLEnvironment (GlulxGameState * Z * bool) :=
  do! alive := game_running in
  if negb alive then throw GameNotRunningError
  else
    let command := Str.strip command in
    do! output := _send command in
    match output with
    | None => throw GameNotRunningError
    | Some output =>
        do! new_state := on_game_state (update command output) in
        do! _ := modify (set_game_state (Some new_state)) in
        do! alive := game_running in
        do! _ := on_game_state
                   (zoom snd (fun s w => (fst w, s))
                      (modify (set_has_timeout (negb alive)))) in
        do! sc := on_game_state (on_self score) in
        do! ended := on_game_state (on_self game_ended) in
        do! gs := getattr "game_state" game_state in
        ret (gs, sc, ended)
    end.

(** [reset] *)
Fixpoint send_extra_infos (infos : list string) (last : option string)
  : M GitGlulxMLEnvironment (option string) :=
  match infos with
  | [] => ret last
  | info :: infos' =>
      do! answer := _send ("tw-extra-infos " +:+ info) in
      send_extra_infos infos' answer
  end.

Definition reset : M GitGlulxMLEnvironment GlulxGameState :=
  do! alive := game_running in
  do! _ := (if alive : bool then close else ret tt) in
  do! gamefile := gets _gamefile in
  let '(c_feedback, p) := get_output_nosend (Popen gamefile) in
  do! _ := modify (set_process (Some p)) in
  match c_feedback with
  | None => do! _ := close in throw ValueError
  | Some start_output =>
      let start_output := Str.replace escaped_csi csi start_output in
      do! tracking := gets _state_tracking in
      do! _ := (if negb tracking then modify (enable_extra_info "score")
                else ret tt) in
      do! _ := _send "tw-trace-actions" in
      do! infos := gets extra_info in
      do! _extra_output := send_extra_infos (elements infos) (Some "") in
      match _extra_output with
      | None => throw TypeError
      | Some _extra_output =>
          let start_output :=
            Str.drop_last 1 start_output +:+ Str.drop_last 1 _extra_output in
          do! _ := modify (set_game_state (Some GlulxGameState_new)) in
          do! g := gets game in
          do! ci := gets _compute_intermediate_reward in
          do! _ := on_game_state (init start_output g tracking ci) in
          getattr "game_state" game_state
      end
  end.

End EnvironmentModel.
End Env.

(* ===================================================================== *)
(** * A small game and a scripted interpreter *)
(* ===================================================================== *)

(** Concrete collaborators on which the model can be run: a game is a list
    of quests, each a list of commands to enter in order; an action is the
    command that performs it and the event that reports it. *)
Module Toy.

Record toy_game : Type := ToyGame {
  tg_quests : list (list string);
  tg_objective : string
}.

Record toy_progression : Type := ToyProgression {
  tp_remaining : list string;
  tp_score : Z;
  tp_failed : bool
}.

Definition tp_completed (gp : toy_progression) : bool :=
  match tp_remaining gp with [] => negb (tp_failed gp) | _ => false end.

Definition tp_update (gp : toy_progression) (a : string) : toy_progression :=
  if tp_completed gp || tp_failed gp then gp
  else if String.eqb a "die" then ToyProgression (tp_remaining gp) (tp_score gp) true
  else if String.eqb a "wander"
       then ToyProgression ("return" :: tp_remaining gp) (tp_score gp) false
  else match tp_remaining gp with
       | next :: rest =>
           if String.eqb a next
           then ToyProgression rest (tp_score gp + 1) false
           else gp
       | [] => gp
       end.

#[export] Instance logic : GameLogic := {|
  Action := string;
  State := list string;
  Quest := list string;
  Game := toy_game;
  GameProgression := toy_progression;
  game_quests := tg_quests;
  game_objective := tg_objective;
  GameProgression_new := fun g _ => ToyProgression (concat (tg_quests g)) 0 false;
  gp_state := tp_remaining;
  gp_valid_actions := fun gp => tp_remaining gp ++ ["look"; "wander"; "die"; "look"; "inventory"];
  gp_winning_policy := fun gp =>
    if tp_completed gp || tp_failed gp then None else Some (tp_remaining gp);
  gp_score := tp_score;
  gp_max_score := fun gp => Z.of_nat (length (tp_remaining gp)) + tp_score gp;
  gp_completed := tp_completed;
  gp_failed := tp_failed;
  gp_update := tp_update;
  gen_commands_from_actions := fun _ actions => actions;
  detect_action := fun _ event actions =>
    List.find (fun a => String.eqb a event) actions
|}.

(** An interpreter that follows a script: the observations of its
    liveness and its answers, in the order in which they are asked for.
    When the script runs out the process has exited and answers NULL. *)
Record scripted : Type := Scripted {
  sp_polls : list bool;
  sp_answers : list (option string)
}.

Definition scripted_poll (p : scripted) : bool * scripted :=
  match sp_polls p with
  | [] => (false, p)
  | b :: bs => (b, Scripted bs (sp_answers p))
  end.

Definition scripted_answer (p : scripted) : option string * scripted :=
  match sp_answers p with
  | [] => (None, p)
  | a :: rest => (a, Scripted (sp_polls p) rest)
  end.

(** The script a process starts with is written in the name of its game
    file: one line per answer, the process staying alive for as many
    observations as the name has characters. *)
#[export] Instance transport : Transport := {|
  Process := scripted;
  Popen := fun gamefile =>
    Scripted (repeat true (String.length gamefile)) [Some gamefile];
  poll := scripted_poll;
  communicate := fun p _ => scripted_answer p;
  get_output_nosend := scripted_answer
|}.

Definition game1 : toy_game :=
  ToyGame [["open door"; "go north"]] "Leave the room.".

Definition game0 : toy_game := ToyGame [] "Wander.".

End Toy.

(* ===================================================================== *)
(** * Deleting a text with the white space around it *)
(* ===================================================================== *)

(** The pattern that [command_feedback] builds: any white space, the
    literal [lit], any white space. Here it is anchored at the start of
    [s], and the text after the match is returned. [lit] is a stripped text
    that is not empty; as it starts with a character that is no white
    space, the white space before it is matched whole. *)
Definition match_spaced_at (lit s : string) : option string :=
  let r := Str.lstrip s in
  if Str.startswith lit r
  then Some (Str.lstrip (Str.drop (String.length lit) r))
  else None.

(** [re.sub] of that pattern by the empty text: the matches are deleted
    from left to right, the search going on after each one. A match is not
    empty, so the length of the text bounds the number of steps. *)
Fixpoint re_sub_spaced_fuel (fuel : nat) (lit s : string) : string :=
  match fuel with
  | O => s
  | S f =>
      match s with
      | "" => ""
      | String c s' =>
          match match_spaced_at lit s with
          | Some rest => re_sub_spaced_fuel f lit rest
          | None => String c (re_sub_spaced_fuel f lit s')
          end
      end
  end.

Definition re_sub_spaced (lit s : string) : string :=
  re_sub_spaced_fuel (String.length s) lit s.

(** One of the three removals of [command_feedback]: the stripped text
    [what], when it is not empty, is deleted from [text] with the white
    space around it. *)
Definition remove_spaced (what text : string) : string :=
  if (0 <? String.length (Str.strip what))%nat
  then re_sub_spaced (Str.strip what) text
  else text.

(* ===================================================================== *)
(** * The side-channel properties of [GlulxGameState] *)
(* ===================================================================== *)

Module SideChannel.
Import GameState.
Section SideChannelModel.
Context `{GameLogic}.

Definition set_description (v : option string) (s : GlulxGameState) :=
  let '(MkGlulxGameState a1 a2 a3 a4 a5 a6 a7 a8 a9 a10 a11 a12 a13 a14 a15 a16 _ a18 a19 a20 a21 a22) := s in
  MkGlulxGameState a1 a2 a3 a4 a5 a6 a7 a8 a9 a10 a11 a12 a13 a14 a15 a16 v a18 a19 a20 a21 a22.
Definition set_inventory (v : option string) (s : GlulxGameState) :=
  let '(MkGlulxGameState a1 a2 a3 a4 a5 a6 a7 a8 a9 a10 a11 a12 a13 a14 a15 a16 a17 _ a19 a20 a21 a22) := s in
  MkGlulxGameState a1 a2 a3 a4 a5 a6 a7 a8 a9 a10 a11 a12 a13 a14 a15 a16 a17 v a19 a20 a21 a22.

(** [description] and [inventory]: the fact is read once from the
    side-channel facts and kept in its cell; a fact that was never
    observed raises. *)
Definition description : M GlulxGameState string :=
  do! cached := gets _description in
  match cached with
  | Some d => ret d
  | None =>
      do! infos := getattr "_extra_infos" _extra_infos in
      match infos !! "description" with
      | None => throw (ExtraInfosIsMissingError "description")
      | Some d =>
          do! _ := modify (set_description (Some d)) in
          ret d
      end
  end.

Definition inventory : M GlulxGameState string :=
  do! cached := gets _inventory in
  match cached with
  | Some i => ret i
  | None =>
      do! infos := getattr "_extra_infos" _extra_infos in
      match infos !! "inventory" with
      | None => throw (ExtraInfosIsMissingError "inventory")
      | Some i =>
          do! _ := modify (set_inventory (Some i)) in
          ret i
      end
  end.

(** [command_feedback]: the cell [_command_feedback] is kept beside the
    snapshot. *)
Definition command_feedback : M (GlulxGameState * option string) string :=
  let on_snapshot {A : Type} (m : M GlulxGameState A)
    : M (GlulxGameState * option string) A :=
    zoom fst (fun s w => (s, snd w)) m in
  do! cached := gets snd in
  match cached with
  | Some v => ret v
  | None =>
      do! fb := on_snapshot feedback in
      do! nb := on_snapshot nb_moves in
      let text := if (nb =? 0)%nat then "" else fb in
      do! d := on_snapshot description in
      let text := remove_spaced d text in
      do! i := on_snapshot inventory in
      let text := remove_spaced i text in
      do! o := on_snapshot objective in
      let text := remove_spaced o text in
      do! _ := modify (fun w => (fst w, Some (Str.strip text))) in
      ret (Str.strip text)
  end.

End SideChannelModel.
End SideChannel.

(* ===================================================================== *)
(** * [rreplace] *)
(* ===================================================================== *)

(** [sep.join(l)] *)
Fixpoint join (sep : string) (l : list string) : string :=
  match l with
  | [] => ""
  | x :: l' =>
      match l' with
      | [] => x
      | _ :: _ => x +:+ sep +:+ join sep l'
      end
  end.

(** The pieces of [s.rsplit(sep, maxsplit)] for a non-empty [sep]: the
    text is cut at the last occurrence of [sep], then the text before it
    is cut in the same way, until [limit] cuts are made ([None]: no
    limit) or no occurrence is left. Every cut shortens the text that is
    left, so [fuel] above its length is never used up. *)
Fixpoint rsplit_pieces (fuel : nat) (sep : string) (limit : option Z)
    (s : string) : list string :=
  match fuel with
  | O => [s]
  | S f =>
      if match limit with Some n => n <=? 0 | None => false end then [s]
      else
        match split_last sep s with
        | None => [s]
        | Some (a, b) =>
            rsplit_pieces f sep (option_map Z.pred limit) a ++ [b]
        end
  end.

(** The largest value of the C type [ssize_t], on a 64-bit platform. *)
Definition PY_SSIZE_T_MAX : Z := 9223372036854775807.

(** [s.rsplit(sep, maxsplit)]: the count is converted to a [ssize_t]
    first, and [OverflowError] is raised when it does not fit; then an
    empty separator raises [ValueError]; a negative [maxsplit] sets no
    limit. *)
Definition rsplit (sep : string) (maxsplit : Z) (s : string)
  : result (list string) :=
  if (maxsplit <? - PY_SSIZE_T_MAX - 1) || (PY_SSIZE_T_MAX <? maxsplit)
  then Raise OverflowError
  else
    match sep with
    | "" => Raise ValueError
    | _ =>
        Ok (rsplit_pieces (S (String.length s)) sep
              (if maxsplit <? 0 then None else Some maxsplit) s)
    end.

Definition rreplace (s old new : string) (occurrence : Z) : result string :=
  try! li := rsplit old occurrence s in
  Ok (join new li).
(* ===================================================================== *)
(** * Specification-level definitions *)
(* ===================================================================== *)

Import GameState.

Section SpecDefinitions.
Context `{GameLogic}.

(** The reward as the specification words it, on a snapshot whose
    properties are resolved: +1 when won, else -1 when lost, else 0
    without a previous snapshot, else the sign of the difference between
    the lengths of the previous and of the present winning policy. [None]
    when a value it needs is not resolved. *)
Definition reward_spec (s : GlulxGameState) : option Z :=
  match _has_won s with
  | None => None
  | Some true => Some 1
  | Some false =>
      match _has_lost s with
      | None => None
      | Some true => Some (-1)
      | Some false =>
          match previous_state s with
          | None => Some 0
          | Some p =>
              match _policy_commands p, _policy_commands s with
              | Some before, Some now =>
                  Some (Z.sgn (Z.of_nat (length before) - Z.of_nat (length now)))
              | _, _ => None
              end
          end
      end
  end.

(** What a snapshot needs for its reward to be computed: its tracker, and
    a previous snapshot, if any, whose winning policy is resolved, as it
    is in the views that [update] installs. A snapshot whose own cells are
    resolved does not need the tracker. *)
Definition reward_ready (sigma : store) (s : GlulxGameState) : Prop :=
  (exists l gp, _game_progression s = Some l /\ sigma !! l = Some gp)
  /\ is_Some (_inform7 s)
  /\ (forall p, previous_state s = Some p -> is_Some (_policy_commands p)).

(** The value returned, read off the cells of the snapshot as the call
    leaves it. *)
Definition reward_explained (v : Z) (s' : GlulxGameState) : Prop :=
  exists won, _has_won s' = Some won /\
    if won then v = 1
    else exists lost, _has_lost s' = Some lost /\
      if lost then v = -1
      else match previous_state s' with
           | None => v = 0
           | Some p =>
               exists before now,
                 _policy_commands p = Some before
                 /\ _policy_commands s' = Some now
                 /\ v = Z.sgn (Z.of_nat (length before) - Z.of_nat (length now))
           end.

(** The winning policy of a tracker, as commands: none when the tracker
    has no winning policy. *)
Definition tracker_policy (i7 : Game) (gp : GameProgression) : list string :=
  match gp_winning_policy gp with
  | Some winning_policy => gen_commands_from_actions i7 winning_policy
  | None => []
  end.

(** The reward as the specification words it, read off the tracker of a
    snapshot none of whose properties is resolved yet; [before] is the
    winning policy of the previous snapshot, when there is one. *)
Definition tracker_reward (i7 : Game) (gp : GameProgression)
    (before : option (list string)) : Z :=
  if gp_completed gp then 1
  else if gp_failed gp then -1
  else match before with
       | None => 0
       | Some before =>
           Z.sgn (Z.of_nat (length before)
                  - Z.of_nat (length (tracker_policy i7 gp)))
       end.

(** The value [v] follows the specification on the answers that
    [has_won], [has_lost] and [policy_commands] give on the snapshot [s]
    itself, with the trackers of [sigma]. *)
Definition reward_of_properties (sigma : store) (s : GlulxGameState) (v : Z)
  : Prop :=
  exists won, fst (has_won sigma s) = Ok won /\
    if won then v = 1
    else exists lost, fst (has_lost sigma s) = Ok lost /\
      if lost then v = -1
      else match previous_state s with
           | None => v = 0
           | Some p =>
               exists before now,
                 fst (policy_commands sigma p) = Ok before
                 /\ fst (policy_commands sigma s) = Ok now
                 /\ v = Z.sgn (Z.of_nat (length before) - Z.of_nat (length now))
           end.

End SpecDefinitions.

(** The textual order of strings, as Python compares them. *)
Definition str_le (a b : string) : Prop := String.leb a b = true.
Definition str_lt (a b : string) : Prop := String.ltb a b = true.

Section SessionInvariants.
Context `{GameLogic}.

(** A cell that only a capability fills is empty while the capability is
    off: [view] copies the admissible commands and the winning policy
    under the same tests as the properties compute them. *)
Definition cells_sound (s : GlulxGameState) : Prop :=
  (_state_tracking s = false -> _admissible_commands s = None)
  /\ (_compute_intermediate_reward s = false -> _policy_commands s = None).

(** A snapshot that has its tracker in the store, its game and its
    side-channel facts: what [init] and [update] leave behind. *)
Definition attached (sigma : store) (s : GlulxGameState) : Prop :=
  (exists l gp, _game_progression s = Some l /\ sigma !! l = Some gp)
  /\ is_Some (_inform7 s)
  /\ is_Some (_game s)
  /\ is_Some (_extra_infos s)
  /\ is_Some (_objective s).

End SessionInvariants.

(** ** Relating the states before and after a method *)

(** [m] takes a state to a state related to it by [R], whether it returns
    or raises. *)
Definition preserves {S A : Type} (R : S -> S -> Prop) (m : M S A) : Prop :=
  forall s r s', m s = (r, s') -> R s s'.

Section Extension.
Context `{GameLogic}.

(** Reading the properties of a snapshot fills cells and does nothing
    else: the attributes that are no cells stay as they are, and a
    resolved cell keeps its value. *)
Record extends (s s' : GlulxGameState) : Prop := {
  ext_previous_state : previous_state s' = previous_state s;
  ext_command : _command s' = _command s;
  ext_feedback : _feedback s' = _feedback s;
  ext_nb_moves : _nb_moves s' = _nb_moves s;
  ext_has_timeout : has_timeout s' = has_timeout s;
  ext_state_tracking : _state_tracking s' = _state_tracking s;
  ext_compute_intermediate_reward :
    _compute_intermediate_reward s' = _compute_intermediate_reward s;
  ext_max_score : _max_score s' = _max_score s;
  ext_extra_infos : _extra_infos s' = _extra_infos s;
  ext_game : _game s' = _game s;
  ext_game_progression : _game_progression s' = _game_progression s;
  ext_inform7 : _inform7 s' = _inform7 s;
  ext_objective : _objective s' = _objective s;
  ext_action : _action s' = _action s;
  ext_description : _description s' = _description s;
  ext_inventory : _inventory s' = _inventory s;
  ext_score : forall v, _score s = Some v -> _score s' = Some v;
  ext_state : forall v, _state s = Some v -> _state s' = Some v;
  ext_has_won : forall v, _has_won s = Some v -> _has_won s' = Some v;
  ext_has_lost : forall v, _has_lost s = Some v -> _has_lost s' = Some v;
  ext_admissible_commands :
    forall v, _admissible_commands s = Some v -> _admissible_commands s' = Some v;
  ext_policy_commands :
    forall v, _policy_commands s = Some v -> _policy_commands s' = Some v;
  ext_cells_sound : cells_sound s -> cells_sound s'
}.

(** A view has its cells resolved, and the cells of the two capabilities
    exactly when the capability is on. *)
Record is_view (self v : GlulxGameState) : Prop := {
  view_state_tracking : _state_tracking v = _state_tracking self;
  view_compute_intermediate_reward :
    _compute_intermediate_reward v = _compute_intermediate_reward self;
  view_previous_state : previous_state v = previous_state self;
  view_has_timeout : has_timeout v = has_timeout self;
  view_nb_moves : _nb_moves v = _nb_moves self;
  view_score : _score v = _score self /\ is_Some (_score v);
  view_has_won : _has_won v = _has_won self /\ is_Some (_has_won v);
  view_has_lost : _has_lost v = _has_lost self /\ is_Some (_has_lost v);
  view_admissible_commands :
    if _state_tracking v
    then _admissible_commands v = _admissible_commands self
         /\ is_Some (_admissible_commands v)
    else _admissible_commands v = None;
  view_policy_commands :
    if _compute_intermediate_reward v
    then _policy_commands v = _policy_commands self
         /\ is_Some (_policy_commands v)
    else _policy_commands v = None
}.

(** The new snapshot, before the events are fed to the tracker. *)
Record fresh_update (cmd : string) (self prev s' : GlulxGameState) : Prop := {
  fu_previous_state : previous_state s' = Some prev;
  fu_command : _command s' = Some cmd;
  fu_nb_moves : _nb_moves s' = S (_nb_moves self);
  fu_has_timeout : has_timeout s' = false;
  fu_state_tracking : _state_tracking s' = _state_tracking self;
  fu_compute_intermediate_reward :
    _compute_intermediate_reward s' = _compute_intermediate_reward self;
  fu_max_score : _max_score s' = _max_score self;
  fu_game_progression :
    _game_progression s' = _game_progression self
    /\ is_Some (_game_progression s');
  fu_inform7 : _inform7 s' = _inform7 self /\ is_Some (_inform7 s');
  fu_game : _game s' = _game self /\ is_Some (_game s');
  fu_objective : _objective s' = _objective self /\ is_Some (_objective s');
  fu_extra_infos : is_Some (_extra_infos s');
  fu_score : _score s' = None;
  fu_has_won : _has_won s' = None;
  fu_has_lost : _has_lost s' = None;
  fu_admissible_commands : _admissible_commands s' = None;
  fu_policy_commands : _policy_commands s' = None
}.

End Extension.

(* ===================================================================== *)
(** * Scenarios on the small game *)
(* ===================================================================== *)

Module Scenario.
Import Toy.

Definition intro : string := "Welcome" +:+ Str.nl +:+ ">".

(** The store and the snapshot that [init] leaves, started from a new
    snapshot and an empty store. *)
Definition started (g : toy_game) (tracking ci : bool)
  : store * GlulxGameState :=
  snd (init intro g tracking ci ([], GlulxGameState_new)).

(** A turn in which the door is opened. *)
Definition door_output : string :=
  "You open the door." +:+ Str.nl +:+ "[open door]" +:+ Str.nl
  +:+ "[open door - succeeded]" +:+ Str.nl +:+ ">".

(** The store, the first snapshot and the second one after that turn. *)
Definition after_door (tracking ci : bool)
  : result GlulxGameState * (store * GlulxGameState) :=
  update "open door" door_output (started game1 tracking ci).

Definition second (tracking ci : bool) : GlulxGameState :=
  match fst (after_door tracking ci) with
  | Ok s => s
  | Raise _ => GlulxGameState_new
  end.

Definition store_after_door (tracking ci : bool) : store :=
  fst (snd (after_door tracking ci)).

(** A turn in which the player dies, and the store and the snapshot
    after it. *)
Definition death_output : string :=
  "You die." +:+ Str.nl +:+ "[die]" +:+ Str.nl
  +:+ "[die - succeeded]" +:+ Str.nl +:+ ">".

Definition after_death (tracking ci : bool)
  : result GlulxGameState * (store * GlulxGameState) :=
  update "die" death_output (started game1 tracking ci).

Definition dead (tracking ci : bool) : GlulxGameState :=
  match fst (after_death tracking ci) with
  | Ok s => s
  | Raise _ => GlulxGameState_new
  end.

Definition store_after_death (tracking ci : bool) : store :=
  fst (snd (after_death tracking ci)).

(** An interpreter that prints the winning banner, with the score, and
    exits. *)
Definition winning_output : string :=
  "<score>" +:+ Str.nl +:+ "1" +:+ Str.nl +:+ "</score>"
  +:+ "*** The End ***" +:+ Str.nl +:+ ">".

Definition env_about_to_win : Env.GitGlulxMLEnvironment :=
  let w := started game1 false false in
  Env.MkEnv "game.ulx"
    (Some (Scripted [true; true] [Some winning_output]))
    false false game1 (Some (snd w)) {[ "score" ]} (fst w).

(** An environment whose process has exited. *)
Definition env_exited : Env.GitGlulxMLEnvironment :=
  let w := started game1 false false in
  Env.MkEnv "game.ulx" (Some (Scripted [] []))
    false false game1 (Some (snd w)) {[ "score" ]} (fst w).

End Scenario.

(* ===================================================================== *)
(** * The event scanner as the specification words it *)
(* ===================================================================== *)

(** The text of a token: a name between brackets, with the line feed that
    the pattern takes along when one follows. *)
Definition token (inner : string) (with_nl : bool) : string :=
  String "[" (inner +:+ "]" +:+ (if with_nl then Str.nl else "")).

(** The text between the brackets of a token. *)
Definition tag_inner (m : string) : string := Str.slice_1_m1 (Str.strip m).

Definition has_char (c : ascii) (s : string) : bool :=
  Str.contains (String c "") s.

Inductive event : Type :=
| Opens (name : string)
| Succeeds (name : string)
| Fails (name : string).

(** A token is read by its suffix. *)
Definition spec_event (inner : string) : event :=
  if Str.endswith " - succeeded" inner
  then Succeeds (Str.drop_last (String.length " - succeeded") inner)
  else if Str.endswith " - failed" inner
  then Fails (Str.drop_last (String.length " - failed") inner)
  else Opens inner.

Definition event_name (ev : event) : string :=
  match ev with Opens n | Succeeds n | Fails n => n end.

(** One event on the successes recorded so far and the open events: an
    event without suffix is pushed, an event with a suffix takes an open
    event of its name away, which must be there, and is recorded when it
    succeeded. *)
Definition spec_step (st : list string * list string) (ev : event)
  : result (list string * list string) :=
  let '(successes, opened) := st in
  match ev with
  | Opens n => Ok (successes, opened ++ [n])
  | Fails n =>
      try! opened' := list_remove n opened in Ok (successes, opened')
  | Succeeds n =>
      try! opened' := list_remove n opened in Ok (successes ++ [n], opened')
  end.

Fixpoint spec_scan (st : list string * list string) (evs : list event)
  : result (list string * list string) :=
  match evs with
  | [] => Ok st
  | ev :: evs' => try! st' := spec_step st ev in spec_scan st' evs'
  end.

(** The text left when, token after token, every occurrence of the text
    of the token is deleted. *)
Definition delete_tokens (tokens : list string) (text : string) : string :=
  fold_left (fun t m => Str.replace m "" t) tokens text.

(** A token that carries the markers as a suffix at most: the name that
    the specification reads in it contains none. *)
Definition plain_token (m : string) : Prop :=
  let n := event_name (spec_event (tag_inner m)) in
  Str.contains " - failed" n = false /\ Str.contains " - succeeded" n = false.

(** A token without a bracket inside its name. *)
Definition flat_token (m : string) : Prop :=
  has_char "[" (tag_inner m) = false.

(** No proper, non-empty suffix of [p] starts [b]: an occurrence of [p]
    cannot begin before [b] and end inside it. *)
Definition no_straddle (p b : string) : bool :=
  forallb (fun k => negb (Str.startswith (Str.drop k p) b))
          (seq 1 (String.length p - 1)).

(** Deleting the occurrences of a non-empty text. *)
Definition delete (m s : string) : string := Str.replace_from m "" 0 s.

(** The command that reaches the interpreter. *)
Definition sent_command (command : string) : string :=
  if (String.length command =? 0)%nat then " " else command.


(** The texts that the pattern matches. *)
Definition is_token (m : string) : Prop :=
  exists inner with_nl,
    m = token inner with_nl /\ inner <> "" /\ has_char "]" inner = false.

(** The reading of a token by the scanner: by containment, the failure
    marker first, the name being cut where the marker first occurs. *)
Definition scanned_event (inner : string) : event :=
  match Str.find " - failed" inner with
  | Some i => Fails (Str.take i inner)
  | None =>
      match Str.find " - succeeded" inner with
      | Some i => Succeeds (Str.take i inner)
      | None => Opens inner
      end
  end.

(** The scanner as the specification words it, on the tokens of the text
    in their order: the events are read and applied, the sub-rules are
    left out of the successes, and the text is cleaned of the tokens. *)
Definition spec_scan_tags (text : string) : result scan_state :=
  let tokens := findall_tags text in
  try! '(successes, opened) :=
    spec_scan ([], []) (map (fun m => spec_event (tag_inner m)) tokens) in
  Ok (ScanState successes opened (delete_tokens tokens text)).

(** ** The side-channel blocks as the specification words them *)

(** The text without the block of a tag: the text before the block
    followed by the text after it. *)
Definition without_block (tag text : string) : string :=
  match re_search_block tag text with
  | Some (pre, _, post) => pre +:+ post
  | None => text
  end.

(** The fact of a tag: the inner text of its block, cleaned of its event
    tags; none when the text has no block of the tag. *)
Definition block_fact (tag text : string) : result (option string) :=
  match re_search_block tag text with
  | Some (_, inner, _) =>
      try! '(_, cleaned) := _detect_i7_events_debug_tags inner in
      Ok (Some cleaned)
  | None => Ok None
  end.

Definition with_fact (tag : string) (fact : option string)
    (facts : gmap string string) : gmap string string :=
  match fact with
  | Some text => <[tag := text]> facts
  | None => facts
  end.

Module ScenarioTexts.

(** The trace of a door that is opened. *)
Definition door_trace : string :=
  "You open the door." +:+ Str.nl +:+ "[open door]" +:+ Str.nl
  +:+ "[open door - succeeded]" +:+ Str.nl.

(** A success of a sub-rule alone, with an event left open. *)
Definition subrule_trace : string := "[a][b (x)][b (x) - succeeded]".

(** A success that counts, with an event left open. *)
Definition unbalanced_trace : string := "[a][b][b - succeeded]".

(** A token inside another one. *)
Definition nested_trace : string := "[a][b[a]c]".

(** A score block inside a description block. *)
Definition nested_score : string :=
  "<description>" +:+ Str.nl +:+ "<score>" +:+ Str.nl +:+ "7" +:+ Str.nl
  +:+ "</score></description>".

(** A description block, a score block and the answer to the command. *)
Definition described_score : string :=
  "<description>" +:+ Str.nl +:+ "A small room." +:+ Str.nl
  +:+ "</description>" +:+ "<score>" +:+ Str.nl +:+ "7" +:+ Str.nl
  +:+ "</score>" +:+ "You see a room.".

End ScenarioTexts.

(** The two conditions on tokens, as tests. *)
Definition plain_tokenb (m : string) : bool :=
  let n := event_name (spec_event (tag_inner m)) in
  negb (Str.contains " - failed" n) && negb (Str.contains " - succeeded" n).

Definition flat_tokenb (m : string) : bool := negb (has_char "[" (tag_inner m)).
(* ===================================================================== *)
(** * Further notions used in the statements *)
(* ===================================================================== *)

(** The prompt that the interpreter prints after its answer. *)
Definition prompt : string := Str.nl +:+ ">".

(** Every opening bracket of the text follows an ESC character, as in the
    control sequences that set colours; [prev_esc] tells whether the text
    itself follows one. *)
Fixpoint brackets_escaped (prev_esc : bool) (s : string) : bool :=
  match s with
  | "" => true
  | String c s' =>
      (negb (Str.ascii_eqb c "[") || prev_esc)
      && brackets_escaped (Str.ascii_eqb c Str.ESC) s'
  end.

(** The text has a block of the tag: an opening tag that a closing tag
    follows. *)
Definition has_block (tag text : string) : Prop :=
  is_Some (re_search_block tag text).

(** A text without opening bracket and without ESC character. *)
Definition plain_text (u : string) : bool :=
  negb (has_char "[" u) && negb (has_char Str.ESC u).

(** The marker that closes an event. *)
Definition marker (succeeded : bool) : string :=
  if succeeded then " - succeeded" else " - failed".

(** The trace of one event: the token that opens it, what is printed
    while it runs, and the token that closes it, each token followed by a
    line feed. *)
Definition event_trace (name body : string) (succeeded : bool) : string :=
  token name true +:+ body +:+ token (name +:+ marker succeeded) true.

Section SnapshotNotions.
Context `{GameLogic}.

(** The copy that [view] makes of a snapshot whose properties are read:
    the values of the properties, no tracker, no game and no side-channel
    fact; an empty text where the description or the inventory has not
    been read; the admissible commands and the winning policy with their
    capability only. *)
Definition view_of (s : GlulxGameState) : GlulxGameState :=
  {| previous_state := previous_state s; _command := _command s;
     _feedback := _feedback s; _nb_moves := _nb_moves s;
     has_timeout := has_timeout s; _state_tracking := _state_tracking s;
     _compute_intermediate_reward := _compute_intermediate_reward s;
     _max_score := _max_score s;
     _extra_infos := None; _game := None; _game_progression := None;
     _inform7 := None; _objective := _objective s; _score := _score s;
     _state := _state s; _action := _action s;
     _description := Some (default "" (_description s));
     _inventory := Some (default "" (_inventory s));
     _has_won := _has_won s; _has_lost := _has_lost s;
     _admissible_commands :=
       if _state_tracking s then _admissible_commands s else None;
     _policy_commands :=
       if _compute_intermediate_reward s then _policy_commands s else None |}.

(** The cells that [view] reads are resolved. *)
Definition resolved (s : GlulxGameState) : Prop :=
  is_Some (_state s) /\ is_Some (_objective s) /\ is_Some (_score s)
  /\ is_Some (_has_won s) /\ is_Some (_has_lost s)
  /\ (_state_tracking s = true -> is_Some (_admissible_commands s))
  /\ (_compute_intermediate_reward s = true -> is_Some (_policy_commands s)).

(** The events of a turn, replayed on a tracker: each event is looked up
    among the actions that are valid when it comes, and an action that is
    found is applied. The action kept is the outcome of the last
    look-up. *)
Fixpoint replay (i7 : Game) (gp : GameProgression) (act : option Action)
    (i7_events : list string) : GameProgression * option Action :=
  match i7_events with
  | [] => (gp, act)
  | e :: es =>
      let found := detect_action i7 e (gp_valid_actions gp) in
      replay i7 (match found with Some a => gp_update gp a | None => gp end)
        found es
  end.

End SnapshotNotions.

Section Answers.
Context `{GameLogic}.


(** The side-channel fact of a turn: the one of the output of the turn
    when there is one, else the one known before. *)
Definition latest_fact (tag : string) (new old : gmap string string)
  : option string :=
  match new !! tag with
  | Some text => Some text
  | None => old !! tag
  end.

End Answers.

Section EnvironmentNotions.
Context `{GameLogic} `{Transport}.

(** Talking to the interpreter changes the process and nothing else of
    the environment. *)
Record same_session (e e' : Env.GitGlulxMLEnvironment) : Prop := {
  ss_gamefile : Env._gamefile e' = Env._gamefile e;
  ss_state_tracking : Env._state_tracking e' = Env._state_tracking e;
  ss_compute_intermediate_reward :
    Env._compute_intermediate_reward e' = Env._compute_intermediate_reward e;
  ss_game : Env.game e' = Env.game e;
  ss_game_state : Env.game_state e' = Env.game_state e;
  ss_extra_info : Env.extra_info e' = Env.extra_info e;
  ss_heap : Env.heap e' = Env.heap e
}.

End EnvironmentNotions.

(** ** Decimal numerals *)

(** The character of a decimal digit. *)
Definition digit_char (d : nat) : ascii := ascii_of_nat (48 + d).

(** The numeral made of the digits [ds], and the number it denotes. *)
Fixpoint digits_text (ds : list nat) : string :=
  match ds with
  | [] => ""
  | d :: ds' => String (digit_char d) (digits_text ds')
  end.

Definition digits_value (ds : list nat) : Z :=
  fold_left (fun acc d => 10 * acc + Z.of_nat d) ds 0.

(** A text made of white space. *)
Fixpoint blank (s : string) : bool :=
  match s with
  | "" => true
  | String c s' => Str.is_space c && blank s'
  end.

(** A numeral with its sign, between white space, as the interpreter
    prints a score inside its block. *)
Definition printed_number (ws1 : string) (negative : bool) (ds : list nat)
    (ws2 : string) : string :=
  ws1 +:+ (if negative then "-" else "") +:+ digits_text ds +:+ ws2.

Definition signed_value (negative : bool) (ds : list nat) : Z :=
  if negative then - digits_value ds else digits_value ds.

(** A text without white space. *)
Fixpoint solid (s : string) : bool :=
  match s with
  | "" => true
  | String c s' => negb (Str.is_space c) && solid s'
  end.

(** A text made of the white space that [int()] skips, and a text
    without any. *)
Fixpoint int_blank (s : string) : bool :=
  match s with
  | "" => true
  | String c s' => is_int_space c && int_blank s'
  end.

Fixpoint int_solid (s : string) : bool :=
  match s with
  | "" => true
  | String c s' => negb (is_int_space c) && int_solid s'
  end.

(** The counts that fit the C type [ssize_t]. *)
Definition fits_ssize_t (n : Z) : Prop :=
  - PY_SSIZE_T_MAX - 1 <= n <= PY_SSIZE_T_MAX.

(* ===================================================================== *)
(** * Two more interpreters and further scenarios *)
(* ===================================================================== *)

(** An interpreter that never exits and answers every command with the
    command and the prompt; its state is the list of the commands it has
    received, the latest first. *)
Module Echo.

#[export] Instance transport : Transport := {|
  Process := list string;
  Popen := fun _ => [];
  poll := fun p => (true, p);
  communicate := fun p command => (Some (command +:+ prompt), command :: p);
  get_output_nosend := fun p => (Some ("Welcome" +:+ prompt), p)
|}.

End Echo.

(** An interpreter that does not start. *)
Module Mute.

#[export] Instance transport : Transport := {|
  Process := unit;
  Popen := fun _ => tt;
  poll := fun p => (false, p);
  communicate := fun p _ => (None, p);
  get_output_nosend := fun p => (None, p)
|}.

End Mute.

Module MoreScenarios.
Import Toy Scenario.

(** An environment on the small game before its first [reset], with each
    of the interpreters. *)
Definition new_env : @Env.GitGlulxMLEnvironment logic Toy.transport :=
  Env.GitGlulxMLEnvironment_new "game.ulx" game1.

Definition echo_env : @Env.GitGlulxMLEnvironment logic Echo.transport :=
  @Env.GitGlulxMLEnvironment_new logic Echo.transport "game.ulx" game1.

Definition mute_env : @Env.GitGlulxMLEnvironment logic Mute.transport :=
  @Env.GitGlulxMLEnvironment_new logic Mute.transport "game.ulx" game1.

(** An environment whose interpreter echoes the commands and is
    running. *)
Definition echo_running : @Env.GitGlulxMLEnvironment logic Echo.transport :=
  let w := started game1 false false in
  @Env.MkEnv logic Echo.transport "game.ulx" (Some [])
    false false game1 (Some (snd w)) {[ "score" ]} (fst w).

(** A snapshot whose score fact starts with a separator character that
    [str.strip()] removes and [int()] does not skip. *)
Definition separator_output : string :=
  "<score>" +:+ Str.nl +:+ String (ascii_of_nat 28) "7" +:+ Str.nl
  +:+ "</score>" +:+ "You look around." +:+ prompt.

Definition separated : GlulxGameState :=
  match fst (update "look" separator_output (started game1 false false)) with
  | Ok s => s
  | Raise _ => GlulxGameState_new
  end.

(** An environment whose interpreter answers with an escaped control
    sequence. *)
Definition coloured_env : @Env.GitGlulxMLEnvironment logic Toy.transport :=
  let w := started game1 false false in
  Env.MkEnv "game.ulx"
    (Some (Scripted [true]
             [Some ("A " +:+ Env.escaped_csi +:+ "31mred door." +:+ prompt)]))
    false false game1 (Some (snd w)) {[ "score" ]} (fst w).

(** A turn in which the interpreter describes the room and gives the
    score. *)
Definition look_output : string :=
  "<description>" +:+ Str.nl +:+ "A small room." +:+ Str.nl
  +:+ "</description>" +:+ "<score>" +:+ Str.nl +:+ "12" +:+ Str.nl
  +:+ "</score>" +:+ "You look around." +:+ prompt.

Definition after_look
  : result GlulxGameState * (store * GlulxGameState) :=
  update "look" look_output (started game1 false false).

Definition looked : GlulxGameState :=
  match fst after_look with
  | Ok s => s
  | Raise _ => GlulxGameState_new
  end.

(** The blocks of the room and of the inventory, as the interpreter
    prints them when both facts are enabled. *)
Definition room_blocks : string :=
  "<description>" +:+ Str.nl +:+ "A small room." +:+ Str.nl
  +:+ "</description>" +:+ "<inventory>" +:+ Str.nl +:+ "A brass key."
  +:+ Str.nl +:+ "</inventory>".

(** The first snapshot of a session whose interpreter prints the blocks
    and a welcome. *)
Definition arrived : store * GlulxGameState :=
  snd (init (room_blocks +:+ "Welcome to the room." +:+ prompt) game1
         false false ([], GlulxGameState_new)).

(** The snapshot after a turn in which the interpreter prints the blocks
    and describes the room again, and after one in which it answers. *)
Definition explored : GlulxGameState :=
  match fst (update "look"
               (room_blocks +:+ "A small room." +:+ Str.nl +:+ prompt)
               arrived) with
  | Ok s => s
  | Raise _ => GlulxGameState_new
  end.

Definition answered : GlulxGameState :=
  match fst (update "wait"
               (room_blocks +:+ ("  Time passes." +:+ Str.nl) +:+ prompt)
               arrived) with
  | Ok s => s
  | Raise _ => GlulxGameState_new
  end.

End MoreScenarios.

(** A block of the side channel: the inner text between the tags. *)
Definition block (tag inner : string) : string :=
  open_tag tag +:+ inner +:+ close_tag tag.

(** The text that the interpreter prints when the three facts are
    enabled: the three blocks in the order of the tags, with text before,
    between and after them. *)
Definition three_blocks (p0 d p1 i p2 s p3 : string) : string :=
  p0 +:+ block "description" d +:+ p1 +:+ block "inventory" i +:+ p2
  +:+ block "score" s +:+ p3.

(** ** Traces of events *)

(** What the interpreter prints in a turn, piece by piece: text, and the
    tags of the events that open, succeed or fail, each tag on a line. *)
Inductive segment : Type :=
| Text (u : string)
| Tag (ev : event).

(** The text between the brackets of the tag of an event. *)
Definition tag_text (ev : event) : string :=
  match ev with
  | Opens n => n
  | Succeeds n => n +:+ " - succeeded"
  | Fails n => n +:+ " - failed"
  end.

Definition render_segment (sg : segment) : string :=
  match sg with
  | Text u => u
  | Tag ev => token (tag_text ev) true
  end.

Fixpoint render (segs : list segment) : string :=
  match segs with
  | [] => ""
  | sg :: segs' => render_segment sg +:+ render segs'
  end.

(** The events of a trace, in their order, and its text without the
    tags. *)
Fixpoint events_of (segs : list segment) : list event :=
  match segs with
  | [] => []
  | Text _ :: segs' => events_of segs'
  | Tag ev :: segs' => ev :: events_of segs'
  end.

Fixpoint text_of (segs : list segment) : string :=
  match segs with
  | [] => ""
  | Text u :: segs' => u +:+ text_of segs'
  | Tag _ :: segs' => text_of segs'
  end.

(** The name of an event: not empty, without bracket and without
    marker. *)
Definition plain_name (n : string) : bool :=
  negb (String.eqb n "") && negb (has_char "[" n) && negb (has_char "]" n)
  && negb (Str.contains " - failed" n)
  && negb (Str.contains " - succeeded" n).

Definition well_formed (sg : segment) : bool :=
  match sg with
  | Text u => plain_text u
  | Tag ev => plain_name (event_name ev)
  end.

(** The trace without the tags of a given text. *)
Definition is_tag_of (t : string) (sg : segment) : bool :=
  match sg with
  | Text _ => false
  | Tag ev => String.eqb (tag_text ev) t
  end.

Definition remove_tag (t : string) (segs : list segment) : list segment :=
  List.filter (fun sg => negb (is_tag_of t sg)) segs.

(** What the scanner is to return on the trace of these events: the
    successes that are no sub-rules, provided that no event is left open
    when there is one, and the text. *)
Definition scan_outcome (evs : list event) (text : string)
  : result (list string * string) :=
  try! '(successes, opened) := spec_scan ([], []) evs in
  let matches := List.filter not_subrule successes in
  if (0 <? length matches)%nat then
    match opened with
    | [] => Ok (matches, text)
    | _ :: _ => Raise AssertionError
    end
  else Ok (matches, text).
(* ===================================================================== *)
(** * Properties *)
(* ===================================================================== *)

(** Unfolding of the monad operations. *)
Ltac msimpl :=
  unfold bind, ret, gets, throw, modify, lift, getattr, zoom, on_self in *;
  simpl in *.

(** Case analysis on every test of an unfolded method. *)
Ltac mcases :=
  repeat (case_match; simplify_eq; simpl in * ); simplify_eq; simpl in *.

(** ** The lazily derived cells *)

Section Cells.
Context `{GameLogic}.

(** The setters touch one attribute. *)
Lemma set_score_get v s : _score (set_score v s) = v.
Proof. by destruct s. Qed.

Lemma set_has_won_get v s : _has_won (set_has_won v s) = v.
Proof. by destruct s. Qed.

Lemma set_has_lost_get v s : _has_lost (set_has_lost v s) = v.
Proof. by destruct s. Qed.

Lemma set_policy_commands_get v s :
  _policy_commands (set_policy_commands v s) = v.
Proof. by destruct s. Qed.

Lemma set_admissible_commands_get v s :
  _admissible_commands (set_admissible_commands v s) = v.
Proof. by destruct s. Qed.

(** A resolved cell answers its property, whatever the trackers hold. *)
Lemma score_cached sigma s v :
  _score s = Some v -> score sigma s = (Ok v, s).
Proof. intros Hc. unfold score. msimpl. by rewrite Hc. Qed.



Lemma policy_commands_cached sigma s l :
  _policy_commands s = Some l -> policy_commands sigma s = (Ok l, s).
Proof. intros Hc. unfold policy_commands. msimpl. by rewrite Hc. Qed.

Lemma admissible_commands_cached sigma s l :
  _admissible_commands s = Some l -> admissible_commands sigma s = (Ok l, s).
Proof. intros Hc. unfold admissible_commands. msimpl. by rewrite Hc. Qed.

(** A property that returns leaves its cell resolved to the value
    returned. *)
Lemma has_won_resolves sigma s b s' :
  has_won sigma s = (Ok b, s') -> _has_won s' = Some b.
Proof.
  unfold has_won, progression, feedback. msimpl.
  destruct (_has_won s) eqn:Hc.
  - intros [= <- <-]. exact Hc.
  - destruct (_compute_intermediate_reward s); msimpl.
    + destruct (_game_progression s) as [l|]; [|discriminate].
      destruct (sigma !! l); [|discriminate].
      intros [= <- <-]. apply set_has_won_get.
    + intros [= <- <-]. apply set_has_won_get.
Qed.

Lemma has_lost_resolves sigma s b s' :
  has_lost sigma s = (Ok b, s') -> _has_lost s' = Some b.
Proof.
  unfold has_lost, progression, feedback. msimpl.
  destruct (_has_lost s) eqn:Hc.
  - intros [= <- <-]. exact Hc.
  - destruct (_compute_intermediate_reward s); msimpl.
    + destruct (_game_progression s) as [l|]; [|discriminate].
      destruct (sigma !! l); [|discriminate].
      intros [= <- <-]. apply set_has_lost_get.
    + intros [= <- <-]. apply set_has_lost_get.
Qed.

Lemma policy_commands_resolves sigma s l s' :
  policy_commands sigma s = (Ok l, s') -> _policy_commands s' = Some l.
Proof.
  unfold policy_commands, progression. msimpl.
  destruct (_policy_commands s) eqn:Hc.
  - intros [= <- <-]. exact Hc.
  - destruct (_compute_intermediate_reward s); msimpl; [|discriminate].
    destruct s; simpl in *. intros Heq. by mcases.
Qed.

End Cells.

(** ** The intermediate reward *)

Section Reward.
Context `{GameLogic}.

Lemma intermediate_reward_disabled sigma s :
  _compute_intermediate_reward s = false ->
  intermediate_reward sigma s
  = (Raise (OraclePolicyIsRequiredError "intermediate_reward"), s).
Proof. intros Hci. unfold intermediate_reward. msimpl. by rewrite Hci. Qed.

Lemma has_lost_keeps_won sigma s r s' :
  has_lost sigma s = (r, s') -> _has_won s' = _has_won s.
Proof.
  unfold has_lost, progression, feedback. msimpl. destruct s; simpl.
  intros Heq. by mcases.
Qed.

Lemma has_lost_keeps_previous sigma s r s' :
  has_lost sigma s = (r, s') -> previous_state s' = previous_state s.
Proof.
  unfold has_lost, progression, feedback. msimpl. destruct s; simpl.
  intros Heq. by mcases.
Qed.

Lemma policy_commands_keeps sigma s r s' :
  policy_commands sigma s = (r, s') ->
  _has_won s' = _has_won s /\ _has_lost s' = _has_lost s
  /\ previous_state s' = previous_state s.
Proof.
  unfold policy_commands, progression. msimpl. destruct s; simpl.
  intros Heq. by mcases.
Qed.

Lemma intermediate_reward_explained sigma s v s' :
  intermediate_reward sigma s = (Ok v, s') -> reward_explained v s'.
Proof.
  unfold intermediate_reward, previous_policy_commands. msimpl.
  destruct (_compute_intermediate_reward s); simpl; [|discriminate].
  destruct (has_won sigma s) as [[won|e] s1] eqn:Hw; [|discriminate].
  apply has_won_resolves in Hw.
  destruct won.
  { intros [= <- <-]. exists true. auto. }
  destruct (has_lost sigma s1) as [[lost|e] s2] eqn:Hl; [|discriminate].
  pose proof (has_lost_keeps_won _ _ _ _ Hl) as Hkw.
  pose proof (has_lost_keeps_previous _ _ _ _ Hl) as Hkp.
  apply has_lost_resolves in Hl.
  destruct lost.
  { intros [= <- <-]. exists false. split; [congruence|].
    exists true. auto. }
  destruct (previous_state s2) as [p|] eqn:Hp.
  2:{ intros [= <- <-]. exists false. split; [congruence|].
      exists false. split; [done|]. by rewrite Hp. }
  destruct (policy_commands sigma p) as [[before|e] p'] eqn:Hb; [|discriminate].
  apply policy_commands_resolves in Hb.
  destruct (policy_commands sigma (set_previous_state (Some p') s2))
    as [[now|e] s3] eqn:Hn; [|discriminate].
  destruct (policy_commands_keeps _ _ _ _ Hn) as (Hn1 & Hn2 & Hn3).
  apply policy_commands_resolves in Hn.
  intros [= <- <-].
  assert (previous_state (set_previous_state (Some p') s2) = Some p')
    as Hsp by (by destruct s2).
  assert (_has_won (set_previous_state (Some p') s2) = _has_won s2)
    as Hsw by (by destruct s2).
  assert (_has_lost (set_previous_state (Some p') s2) = _has_lost s2)
    as Hsl by (by destruct s2).
  exists false. split; [congruence|].
  exists false. split; [congruence|].
  rewrite Hn3, Hsp. exists before, now. auto.
Qed.

Lemma reward_explained_bound v s' :
  reward_explained v s' -> v = -1 \/ v = 0 \/ v = 1.
Proof.
  intros (won & _ & Hv). destruct won; [auto|].
  destruct Hv as (lost & _ & Hv). destruct lost; [auto|].
  destruct (previous_state s') as [p|]; [|auto].
  destruct Hv as (before & now & _ & _ & ->).
  destruct (Z.sgn_spec (Z.of_nat (length before) - Z.of_nat (length now)))
    as [[_ ->]|[[_ ->]|[_ ->]]]; auto.
Qed.

Lemma has_won_returns sigma s :
  (exists l gp, _game_progression s = Some l /\ sigma !! l = Some gp) ->
  exists b s', has_won sigma s = (Ok b, s')
    /\ _game_progression s' = _game_progression s
    /\ _inform7 s' = _inform7 s
    /\ previous_state s' = previous_state s
    /\ _compute_intermediate_reward s' = _compute_intermediate_reward s.
Proof.
  intros (l & gp & Hl & Hgp).
  unfold has_won, progression, feedback. msimpl.
  destruct s; simpl in *; subst. mcases; try congruence; by eauto 10.
Qed.

Lemma has_lost_returns sigma s :
  (exists l gp, _game_progression s = Some l /\ sigma !! l = Some gp) ->
  exists b s', has_lost sigma s = (Ok b, s')
    /\ _game_progression s' = _game_progression s
    /\ _inform7 s' = _inform7 s
    /\ previous_state s' = previous_state s
    /\ _compute_intermediate_reward s' = _compute_intermediate_reward s.
Proof.
  intros (l & gp & Hl & Hgp).
  unfold has_lost, progression, feedback. msimpl.
  destruct s; simpl in *; subst. mcases; try congruence; by eauto 10.
Qed.

Lemma policy_commands_returns sigma s :
  _compute_intermediate_reward s = true ->
  (exists l gp, _game_progression s = Some l /\ sigma !! l = Some gp) ->
  is_Some (_inform7 s) ->
  exists l s', policy_commands sigma s = (Ok l, s').
Proof.
  intros Hci (l & gp & Hl & Hgp) [g Hg].
  unfold policy_commands, progression. msimpl.
  destruct s; simpl in *; subst. mcases; try congruence; by eauto.
Qed.

Lemma intermediate_reward_returns sigma s :
  _compute_intermediate_reward s = true ->
  reward_ready sigma s ->
  exists v s', intermediate_reward sigma s = (Ok v, s').
Proof.
  intros Hci (Htr & Hi7 & Hprev).
  unfold intermediate_reward, previous_policy_commands. msimpl.
  rewrite Hci. simpl.
  destruct (has_won_returns sigma s Htr)
    as (won & s1 & -> & Hgp1 & Hi1 & Hp1 & Hc1).
  destruct won; [eauto|].
  assert (exists l gp, _game_progression s1 = Some l /\ sigma !! l = Some gp)
    as Htr1 by (by rewrite Hgp1).
  destruct (has_lost_returns sigma s1 Htr1)
    as (lost & s2 & -> & Hgp2 & Hi2 & Hp2 & Hc2).
  destruct lost; [eauto|].
  destruct (previous_state s2) as [p|] eqn:Hp; [|eauto].
  destruct (Hprev p) as [before Hb]; [congruence|].
  rewrite (policy_commands_cached sigma p before Hb).
  destruct (policy_commands_returns sigma (set_previous_state (Some p) s2))
    as (now & s3 & ->); [| | |eauto].
  - destruct s2; simpl in *. congruence.
  - destruct s2; simpl in *. by rewrite Hgp2, Hgp1.
  - destruct s2; simpl in *. by rewrite Hi2, Hi1.
Qed.

Lemma reward_explained_spec v s' :
  reward_explained v s' -> reward_spec s' = Some v.
Proof.
  unfold reward_spec. intros (won & -> & Hv). destruct won; [by subst|].
  destruct Hv as (lost & -> & Hv). destruct lost; [by subst|].
  destruct (previous_state s') as [p|]; [|by subst].
  destruct Hv as (before & now & -> & -> & ->). reflexivity.
Qed.

(** The properties write their own cell and nothing else. *)
Lemma has_won_frame sigma s r s1 :
  has_won sigma s = (r, s1) -> s1 = s \/ exists b, s1 = set_has_won (Some b) s.
Proof.
  unfold has_won, progression, feedback. msimpl. intros Heq.
  mcases; eauto.
Qed.

Lemma has_lost_frame sigma s r s1 :
  has_lost sigma s = (r, s1) ->
  s1 = s \/ exists b, s1 = set_has_lost (Some b) s.
Proof.
  unfold has_lost, progression, feedback. msimpl. intros Heq.
  mcases; eauto.
Qed.

(** Two snapshots that differ by the cells of the outcome and by the
    previous snapshot. *)
Record same_but_outcome (s t : GlulxGameState) : Prop := {
  sbo_feedback : _feedback t = _feedback s;
  sbo_compute_intermediate_reward :
    _compute_intermediate_reward t = _compute_intermediate_reward s;
  sbo_game_progression : _game_progression t = _game_progression s;
  sbo_inform7 : _inform7 t = _inform7 s;
  sbo_policy_commands : _policy_commands t = _policy_commands s
}.

Lemma has_won_same_but_outcome sigma s r s1 :
  has_won sigma s = (r, s1) ->
  same_but_outcome s s1 /\ _has_lost s1 = _has_lost s
  /\ previous_state s1 = previous_state s.
Proof.
  intros Hw. apply has_won_frame in Hw as [->|[b ->]]; [done|].
  by destruct s.
Qed.

Lemma has_lost_same_but_outcome sigma s r s1 :
  has_lost sigma s = (r, s1) ->
  same_but_outcome s s1 /\ previous_state s1 = previous_state s.
Proof.
  intros Hw. apply has_lost_frame in Hw as [->|[b ->]]; [done|].
  by destruct s.
Qed.

Lemma has_lost_answer sigma s t :
  same_but_outcome s t -> _has_lost t = _has_lost s ->
  fst (has_lost sigma t) = fst (has_lost sigma s).
Proof.
  intros [Hf Hc Hg _ _] Hl. unfold has_lost, progression, feedback. msimpl.
  rewrite Hl. destruct (_has_lost s); [done|]. simpl. rewrite Hc.
  destruct (_compute_intermediate_reward s); simpl; [|by rewrite Hf].
  rewrite Hg. destruct (_game_progression s) as [l|]; simpl; [|done].
  by destruct (sigma !! l).
Qed.

Lemma policy_commands_answer sigma s t :
  same_but_outcome s t ->
  fst (policy_commands sigma t) = fst (policy_commands sigma s).
Proof.
  intros [_ Hc Hg Hi Hp]. unfold policy_commands, progression. msimpl.
  rewrite Hp. destruct (_policy_commands s); [done|]. simpl. rewrite Hc.
  destruct (_compute_intermediate_reward s); simpl; [|done].
  assert (forall x, _game_progression (set_policy_commands (Some []) x)
                    = _game_progression x) as Hsg by (by intros []).
  assert (forall x l, _inform7 (set_policy_commands l x) = _inform7 x)
    as Hsi by (by intros []).
  rewrite !Hsg, Hg.
  destruct (_game_progression s) as [l|]; simpl; [|done].
  destruct (sigma !! l) as [gp|]; simpl; [|done].
  destruct (gp_winning_policy gp); simpl; [|done].
  rewrite !Hsi, Hi. by destruct (_inform7 s).
Qed.

(** The value returned, on the answers of the properties on the snapshot
    that is given. *)
Lemma intermediate_reward_of_properties sigma s v s' :
  intermediate_reward sigma s = (Ok v, s') -> reward_of_properties sigma s v.
Proof.
  unfold intermediate_reward, previous_policy_commands, reward_of_properties.
  msimpl. intros Hrun.
  destruct (_compute_intermediate_reward s); simpl in Hrun; [|discriminate].
  destruct (has_won sigma s) as [[won|e] s1] eqn:Hw; [|discriminate].
  destruct (has_won_same_but_outcome _ _ _ _ Hw) as (S1 & Hl1 & Hp1).
  exists won. split; [done|].
  destruct won; [by injection Hrun as <- <-|].
  destruct (has_lost sigma s1) as [[lost|e] s2] eqn:Hl; [|discriminate].
  destruct (has_lost_same_but_outcome _ _ _ _ Hl) as (S2 & Hp2).
  exists lost. split.
  { rewrite <- (has_lost_answer sigma s s1 S1 Hl1). by rewrite Hl. }
  destruct lost; [by injection Hrun as <- <-|].
  rewrite <- Hp1, <- Hp2.
  destruct (previous_state s2) as [p|] eqn:Hp; [|by injection Hrun as <- <-].
  destruct (policy_commands sigma p) as [[before|e] p'] eqn:Hb; [|discriminate].
  destruct (policy_commands sigma (set_previous_state (Some p') s2))
    as [[now|e] s3] eqn:Hn; [|discriminate].
  injection Hrun as <- <-. exists before, now. split; [done|]. split; [|done].
  rewrite <- (policy_commands_answer sigma s (set_previous_state (Some p') s2)).
  - by rewrite Hn.
  - destruct S1, S2. destruct s2; simpl in *. constructor; simpl; congruence.
Qed.

(** The first read of a property under the intermediate reward, from
    the tracker. *)
Lemma has_won_of_tracker sigma s l gp :
  _compute_intermediate_reward s = true -> _has_won s = None ->
  _game_progression s = Some l -> sigma !! l = Some gp ->
  has_won sigma s
  = (Ok (gp_completed gp), set_has_won (Some (gp_completed gp)) s).
Proof.
  intros Hci Hw Hg Hgp. unfold has_won, progression. msimpl.
  rewrite Hw. simpl. rewrite Hci. simpl. rewrite Hg. simpl. by rewrite Hgp.
Qed.

Lemma has_lost_of_tracker sigma s l gp :
  _compute_intermediate_reward s = true -> _has_lost s = None ->
  _game_progression s = Some l -> sigma !! l = Some gp ->
  has_lost sigma s
  = (Ok (gp_failed gp), set_has_lost (Some (gp_failed gp)) s).
Proof.
  intros Hci Hw Hg Hgp. unfold has_lost, progression. msimpl.
  rewrite Hw. simpl. rewrite Hci. simpl. rewrite Hg. simpl. by rewrite Hgp.
Qed.

Lemma policy_commands_of_tracker sigma s l gp i7 :
  _compute_intermediate_reward s = true -> _policy_commands s = None ->
  _game_progression s = Some l -> sigma !! l = Some gp ->
  _inform7 s = Some i7 ->
  exists s', policy_commands sigma s = (Ok (tracker_policy i7 gp), s').
Proof.
  intros Hci Hp Hg Hgp Hi. unfold policy_commands, progression, tracker_policy.
  msimpl. rewrite Hp. simpl. rewrite Hci. simpl.
  destruct s; simpl in *. subst. simpl. rewrite Hgp. simpl.
  destruct (gp_winning_policy gp); simpl; eauto.
Qed.

(** The value returned on a snapshot none of whose properties is
    resolved, read off its tracker. *)
Lemma intermediate_reward_of_tracker sigma s l gp i7 :
  _compute_intermediate_reward s = true ->
  _has_won s = None -> _has_lost s = None -> _policy_commands s = None ->
  _game_progression s = Some l -> sigma !! l = Some gp ->
  _inform7 s = Some i7 ->
  (forall p, previous_state s = Some p -> is_Some (_policy_commands p)) ->
  exists s',
    intermediate_reward sigma s
    = (Ok (tracker_reward i7 gp
             (match previous_state s with
              | Some p => _policy_commands p
              | None => None
              end)), s').
Proof.
  intros Hci Hw Hl Hp Hg Hgp Hi Hprev.
  unfold intermediate_reward, previous_policy_commands, tracker_reward.
  msimpl. rewrite Hci. simpl.
  rewrite (has_won_of_tracker sigma s l gp) by done.
  destruct (gp_completed gp); [eauto|].
  rewrite (has_lost_of_tracker sigma _ l gp) by (by destruct s).
  destruct (gp_failed gp); [eauto|].
  set (s2 := set_has_lost _ _).
  assert (previous_state s2 = previous_state s) as -> by (by destruct s).
  destruct (previous_state s) as [p|] eqn:Hprevious; [|eauto].
  destruct (Hprev p eq_refl) as [before Hb].
  rewrite (policy_commands_cached sigma p before Hb), Hb.
  destruct (policy_commands_of_tracker sigma (set_previous_state (Some p) s2)
              l gp i7) as [s3 ->]; try (by destruct s).
  eauto.
Qed.

(** C1: with the computation of the intermediate reward disabled,
    [intermediate_reward] raises [OraclePolicyIsRequiredError] and returns
    no value. When it returns, the computation is enabled and the value is
    the one the specification words: +1 if [has_won], otherwise -1 if
    [has_lost], otherwise 0 without a previous snapshot, otherwise the
    sign of the length of the previous snapshot's [policy_commands] minus
    the length of this snapshot's; hence it is -1, 0 or 1. This holds of
    the cells of the snapshot as the call leaves it, and of the answers
    that [has_won], [has_lost] and [policy_commands] give on the snapshot
    that is given. And it does return on every snapshot that has its
    tracker and, if it has a previous snapshot, one whose winning policy
    is resolved; on a snapshot none of whose properties is resolved yet,
    the value is the one read off its tracker: +1 when the tracker is
    completed, otherwise -1 when it has failed, otherwise 0 or the sign
    of the length of the previous winning policy minus the length of the
    one of the tracker. *)
Theorem intermediate_reward_correct sigma s :
  (_compute_intermediate_reward s = false ->
   intermediate_reward sigma s
   = (Raise (OraclePolicyIsRequiredError "intermediate_reward"), s))
  /\ (forall v s',
        intermediate_reward sigma s = (Ok v, s') ->
        _compute_intermediate_reward s = true
        /\ reward_spec s' = Some v
        /\ (v = -1 \/ v = 0 \/ v = 1)
        /\ reward_of_properties sigma s v)
  /\ (_compute_intermediate_reward s = true ->
      reward_ready sigma s ->
      exists v s', intermediate_reward sigma s = (Ok v, s'))
  /\ (forall l gp i7,
        _compute_intermediate_reward s = true ->
        _has_won s = None -> _has_lost s = None ->
        _policy_commands s = None ->
        _game_progression s = Some l -> sigma !! l = Some gp ->
        _inform7 s = Some i7 ->
        (forall p, previous_state s = Some p -> is_Some (_policy_commands p)) ->
        exists s',
          intermediate_reward sigma s
          = (Ok (tracker_reward i7 gp
                   (match previous_state s with
                    | Some p => _policy_commands p
                    | None => None
                    end)), s')).
Proof.
  split; [apply intermediate_reward_disabled|]. split; [|split].
  - intros v s' Hr.
    pose proof (intermediate_reward_explained _ _ _ _ Hr) as He.
    split; [|split; [|split]].
    + destruct (_compute_intermediate_reward s) eqn:Hci; [done|].
      rewrite (intermediate_reward_disabled _ _ Hci) in Hr. discriminate.
    + by apply reward_explained_spec.
    + by apply (reward_explained_bound v s').
    + by apply (intermediate_reward_of_properties _ _ _ _ Hr).
  - apply intermediate_reward_returns.
  - intros l gp i7. apply intermediate_reward_of_tracker.
Qed.

End Reward.

(** ** The score *)

Section Score.
Context `{GameLogic}.

Lemma init_result output game tracking ci sigma0 s0 r sigma s :
  init output game tracking ci (sigma0, s0) = (r, (sigma, s)) ->
  match r with
  | Raise _ => sigma = sigma0 /\ s = s0
  | Ok _ =>
      exists infos text,
        sigma = sigma0 ++ [GameProgression_new game tracking]
        /\ s = init_attributes infos game (length sigma0)
                 (GameProgression_new game tracking) tracking ci
                 (GameState_init text s0)
  end.
Proof.
  unfold init. msimpl.
  destruct (_detect_i7_events_debug_tags _) as [[evs text1]|e]; simpl.
  2:{ intros [= <- <- <-]. auto. }
  destruct (_detect_extra_infos text1) as [[infos text2]|e]; simpl.
  2:{ intros [= <- <- <-]. auto. }
  intros [= <- <- <-]. eauto.
Qed.

(** C9: on the snapshot that [init] builds, the score cell holds 0, so
    [score] returns 0, whatever the trackers hold, whether or not state
    tracking is on and whether or not a score fact was observed; it does
    not raise the missing-information error. *)
Theorem initial_score_is_zero output game tracking ci sigma0 s0 sigma s :
  init output game tracking ci (sigma0, s0) = (Ok tt, (sigma, s)) ->
  _score s = Some 0
  /\ forall sigma', score sigma' s = (Ok 0, s).
Proof.
  intros Hin. apply init_result in Hin as (infos & text & -> & ->).
  assert (_score (init_attributes infos game (length sigma0)
                    (GameProgression_new game tracking) tracking ci
                    (GameState_init text s0)) = Some 0) as Hs
    by (by destruct s0).
  split; [exact Hs|]. intros sigma'. by apply score_cached.
Qed.

(** C6, as amended: a resolved score is returned as it is. Otherwise,
    with state tracking the score is the tracker's; without it the score
    fact is parsed as an integer, [ExtraInfosIsMissingError] being raised
    when there is no such fact and [ValueError] when it is no integer; the
    value returned is kept in the cell. *)
Theorem score_correct sigma s :
  (forall v, _score s = Some v -> score sigma s = (Ok v, s))
  /\ (_score s = None ->
      _state_tracking s = true ->
      forall l gp,
        _game_progression s = Some l -> sigma !! l = Some gp ->
        score sigma s = (Ok (gp_score gp), set_score (Some (gp_score gp)) s))
  /\ (_score s = None ->
      _state_tracking s = false ->
      forall infos,
        _extra_infos s = Some infos ->
        match infos !! "score" with
        | None =>
            score sigma s = (Raise (ExtraInfosIsMissingError "score"), s)
        | Some text =>
            match py_int text with
            | Ok v => score sigma s = (Ok v, set_score (Some v) s)
            | Raise e => score sigma s = (Raise e, s)
            end
        end).
Proof.
  split; [intros v; apply score_cached|]. split.
  - intros Hc Ht l gp Hl Hgp. unfold score, progression. msimpl.
    rewrite Hc, Ht. simpl. rewrite Hl. simpl. by rewrite Hgp.
  - intros Hc Ht infos Hi. unfold score. msimpl.
    rewrite Hc, Ht. simpl. rewrite Hi. simpl.
    destruct (infos !! "score") as [text|]; [|done].
    by destruct (py_int text).
Qed.

End Score.

(** ** Games without quests *)

Section NoQuests.
Context `{GameLogic}.

Lemma policy_commands_disabled sigma s :
  _compute_intermediate_reward s = false -> _policy_commands s = None ->
  policy_commands sigma s
  = (Raise (OraclePolicyIsRequiredError "policy_commands"), s).
Proof. intros Hci Hc. unfold policy_commands. msimpl. by rewrite Hc, Hci. Qed.

Lemma set_action_keeps a s :
  _compute_intermediate_reward (set_action a s) = _compute_intermediate_reward s
  /\ _state_tracking (set_action a s) = _state_tracking s
  /\ _policy_commands (set_action a s) = _policy_commands s
  /\ _admissible_commands (set_action a s) = _admissible_commands s
  /\ _score (set_action a s) = _score s
  /\ _game_progression (set_action a s) = _game_progression s.
Proof. by destruct s. Qed.

(** The loop over the events writes nothing but [_action] to the new
    snapshot. *)
Lemma track_event_frame self e sigma gs r sigma' gs' :
  track_event self e (sigma, gs) = (r, (sigma', gs')) ->
  gs' = gs \/ exists a, gs' = set_action a gs.
Proof.
  unfold track_event, progression_at. msimpl. intros Heq.
  mcases; eauto.
Qed.

Lemma set_action_twice a b (s : GlulxGameState) :
  set_action a (set_action b s) = set_action a s.
Proof. by destruct s. Qed.

Lemma track_events_frame self es sigma gs r sigma' gs' :
  track_events self es (sigma, gs) = (r, (sigma', gs')) ->
  gs' = gs \/ exists a, gs' = set_action a gs.
Proof.
  revert sigma gs. induction es as [|e es IH]; intros sigma gs; simpl.
  - msimpl. intros [= <- <- <-]. auto.
  - unfold bind.
    destruct (track_event self e (sigma, gs)) as [[[]|ex] [sigma1 gs1]] eqn:He.
    + intros Hes. apply IH in Hes. apply track_event_frame in He.
      destruct He as [->|[a ->]]; [done|].
      destruct Hes as [->|[b ->]]; [eauto|].
      right. exists b. apply set_action_twice.
    + intros [= <- <- <-]. by apply track_event_frame in He.
Qed.

End NoQuests.

(** ** Reading properties only fills cells *)

Section Preservation.
Context {S : Type} (R : S -> S -> Prop) `{!Reflexive R} `{!Transitive R}.

Lemma preserves_ret {A} (a : A) : preserves R (ret a).
Proof. intros s r s' [= <- <-]. reflexivity. Qed.

Lemma preserves_throw {A} e : preserves R (@throw S A e).
Proof. intros s r s' [= <- <-]. reflexivity. Qed.

Lemma preserves_gets {A} (f : S -> A) : preserves R (gets f).
Proof. intros s r s' [= <- <-]. reflexivity. Qed.

Lemma preserves_lift {A} (x : result A) : preserves R (lift x).
Proof. intros s r s' [= <- <-]. reflexivity. Qed.

Lemma preserves_getattr {A} name (f : S -> option A) :
  preserves R (getattr name f).
Proof.
  intros s r s'. unfold getattr. destruct (f s); intros [= <- <-]; reflexivity.
Qed.

Lemma preserves_modify (f : S -> S) :
  (forall s, R s (f s)) -> preserves R (modify f).
Proof. intros Hf s r s' [= <- <-]. apply Hf. Qed.

Lemma preserves_bind {A B} (m : M S A) (k : A -> M S B) :
  preserves R m -> (forall a, preserves R (k a)) -> preserves R (bind m k).
Proof.
  intros Hm Hk s r s'. unfold bind.
  destruct (m s) as [[a|e] s1] eqn:Hms.
  - intros Hks. etransitivity; [eapply Hm, Hms|eapply Hk, Hks].
  - intros [= <- <-]. eapply Hm, Hms.
Qed.

End Preservation.

(** What a bind that returns has gone through. *)
Lemma bind_ok_inv {S A B} (m : M S A) (k : A -> M S B) s b s2 :
  bind m k s = (Ok b, s2) ->
  exists a s1, m s = (Ok a, s1) /\ k a s1 = (Ok b, s2).
Proof.
  unfold bind. destruct (m s) as [[a|e] s1]; [eauto|discriminate].
Qed.

Lemma lift_ok_inv {S A} (x : result A) (s : S) a s1 :
  lift x s = (Ok a, s1) -> x = Ok a /\ s1 = s.
Proof. by intros [= -> ->]. Qed.

Lemma gets_ok_inv {S A} (f : S -> A) (s : S) a s1 :
  gets f s = (Ok a, s1) -> a = f s /\ s1 = s.
Proof. by intros [= <- <-]. Qed.

Lemma getattr_ok_inv {S A} name (f : S -> option A) (s : S) a s1 :
  getattr name f s = (Ok a, s1) -> f s = Some a /\ s1 = s.
Proof. unfold getattr. destruct (f s); by intros [= <- <-]. Qed.

Lemma ret_ok_inv {S A} (x : A) (s : S) a s1 :
  ret x s = (Ok a, s1) -> a = x /\ s1 = s.
Proof. by intros [= <- <-]. Qed.

(** One step back through a bind that has returned. *)
Ltac bind_inv Hrun a s1 Hm :=
  apply bind_ok_inv in Hrun as (a & s1 & Hm & Hrun).

Ltac gets_inv Hrun a :=
  let s1 := fresh "s" in
  let Hm := fresh "Hm" in
  bind_inv Hrun a s1 Hm;
  apply gets_ok_inv in Hm as [-> ->].

Section Extends.
Context `{GameLogic}.

#[global] Instance extends_refl : Reflexive extends.
Proof. intros s. by constructor. Qed.

#[global] Instance extends_trans : Transitive extends.
Proof.
  intros s1 s2 s3 [] []. constructor; try congruence; eauto.
Qed.

Lemma extends_set_score v s : _score s = None -> extends s (set_score (Some v) s).
Proof. intros Hc. destruct s; simpl in *; subst. by constructor. Qed.

Lemma extends_set_state v s : _state s = None -> extends s (set_state (Some v) s).
Proof. intros Hc. destruct s; simpl in *; subst. by constructor. Qed.

Lemma extends_set_has_won v s :
  _has_won s = None -> extends s (set_has_won (Some v) s).
Proof. intros Hc. destruct s; simpl in *; subst. by constructor. Qed.

Lemma extends_set_has_lost v s :
  _has_lost s = None -> extends s (set_has_lost (Some v) s).
Proof. intros Hc. destruct s; simpl in *; subst. by constructor. Qed.

Lemma extends_set_admissible_commands v s :
  _admissible_commands s = None -> _state_tracking s = true ->
  extends s (set_admissible_commands (Some v) s).
Proof.
  intros Hc Ht. destruct s; simpl in *; subst.
  constructor; try done. intros [? ?]; split; simpl in *; auto. done.
Qed.

Lemma extends_set_policy_commands v s :
  _policy_commands s = None -> _compute_intermediate_reward s = true ->
  extends s (set_policy_commands (Some v) s).
Proof.
  intros Hc Ht. destruct s; simpl in *; subst.
  constructor; try done. intros [? ?]; split; simpl in *; auto. done.
Qed.

End Extends.

Ltac solve_extends :=
  repeat match goal with
         | Hb : negb _ = false |- _ => apply negb_false_iff in Hb; subst
         | Hb : negb _ = true |- _ => apply negb_true_iff in Hb; subst
         end;
  constructor; simpl in *; try done; try congruence;
  try (intros [? ?]; split; simpl in *; intros; auto; congruence).

Section PropertiesExtend.
Context `{GameLogic}.

Lemma has_won_extends sigma : preserves extends (has_won sigma).
Proof.
  intros s r s'. unfold has_won, progression, feedback. msimpl.
  destruct s; simpl. intros Heq. mcases; solve_extends.
Qed.

Lemma has_lost_extends sigma : preserves extends (has_lost sigma).
Proof.
  intros s r s'. unfold has_lost, progression, feedback. msimpl.
  destruct s; simpl. intros Heq. mcases; solve_extends.
Qed.

Lemma score_extends sigma : preserves extends (score sigma).
Proof.
  intros s r s'. unfold score, progression. msimpl.
  destruct s; simpl. intros Heq. mcases; solve_extends.
Qed.

Lemma state_extends sigma : preserves extends (state sigma).
Proof.
  intros s r s'. unfold state, progression. msimpl.
  destruct s; simpl. intros Heq. mcases; solve_extends.
Qed.

Lemma admissible_commands_extends sigma :
  preserves extends (admissible_commands sigma).
Proof.
  intros s r s'. unfold admissible_commands, progression. msimpl.
  destruct s; simpl. intros Heq. mcases; solve_extends.
Qed.

Lemma policy_commands_extends sigma : preserves extends (policy_commands sigma).
Proof.
  intros s r s'. unfold policy_commands, progression. msimpl.
  destruct s; simpl. intros Heq. mcases; solve_extends.
Qed.

Lemma objective_extends : preserves extends objective.
Proof. apply preserves_getattr; apply _. Qed.

Lemma view_extends sigma : preserves extends (view sigma).
Proof.
  unfold view, command, feedback, action, max_score, nb_moves.
  repeat first
    [ apply state_extends | apply score_extends | apply has_won_extends
    | apply has_lost_extends | apply objective_extends
    | apply admissible_commands_extends | apply policy_commands_extends
    | apply preserves_gets; apply _
    | apply preserves_ret; apply _
    | match goal with |- preserves _ (if ?b then _ else _) => destruct b end
    | apply preserves_bind; [apply _ | | intros ?] ].
Qed.

Lemma score_resolves sigma s v s' :
  score sigma s = (Ok v, s') -> _score s' = Some v.
Proof.
  unfold score, progression. msimpl. destruct s; simpl. intros Heq. by mcases.
Qed.

Lemma admissible_commands_resolves sigma s l s' :
  admissible_commands sigma s = (Ok l, s') -> _admissible_commands s' = Some l.
Proof.
  unfold admissible_commands, progression. msimpl. destruct s; simpl.
  intros Heq. by mcases.
Qed.

Lemma view_is_view sigma s v s1 :
  view sigma s = (Ok v, s1) -> is_view s1 v /\ extends s s1.
Proof.
  intros Hrun. pose proof (view_extends sigma _ _ _ Hrun) as Hext.
  split; [|exact Hext].
  unfold view, command, feedback, action, max_score, nb_moves in Hrun.
  gets_inv Hrun prev.
  bind_inv Hrun st sa Hst.
  gets_inv Hrun tracking. gets_inv Hrun ci. gets_inv Hrun cmd.
  gets_inv Hrun fb. gets_inv Hrun act. gets_inv Hrun description.
  gets_inv Hrun inventory.
  bind_inv Hrun obj sa' Hobj. apply getattr_ok_inv in Hobj as [Hobj ->].
  bind_inv Hrun scv sb Hsc.
  gets_inv Hrun mx. gets_inv Hrun nb.
  bind_inv Hrun won sw Hwon.
  bind_inv Hrun lost sd Hlost.
  gets_inv Hrun timeout.
  bind_inv Hrun adm se Hadm.
  bind_inv Hrun pol sf Hpol.
  apply ret_ok_inv in Hrun as [-> ->].
  (* the states the reads go through *)
  pose proof (state_extends _ _ _ _ Hst) as E1.
  pose proof (score_extends _ _ _ _ Hsc) as E2.
  pose proof (has_won_extends _ _ _ _ Hwon) as E3.
  pose proof (has_lost_extends _ _ _ _ Hlost) as E4.
  assert (extends sd se) as E5.
  { destruct (_state_tracking sa).
    - bind_inv Hadm l sx Hl. apply ret_ok_inv in Hadm as [-> ->].
      eapply admissible_commands_extends, Hl.
    - apply ret_ok_inv in Hadm as [-> ->]. reflexivity. }
  assert (extends se sf) as E6.
  { destruct (_compute_intermediate_reward sa).
    - bind_inv Hpol l sx Hl. apply ret_ok_inv in Hpol as [-> ->].
      eapply policy_commands_extends, Hl.
    - apply ret_ok_inv in Hpol as [-> ->]. reflexivity. }
  assert (extends sb sf) as E26
    by (etransitivity; [exact E3|]; etransitivity; [exact E4|];
        etransitivity; [exact E5|exact E6]).
  assert (extends sa sf) as E16 by (etransitivity; eassumption).
  apply score_resolves in Hsc.
  apply has_won_resolves in Hwon.
  apply has_lost_resolves in Hlost.
  assert (extends sw sf) as E36
    by (etransitivity; [exact E4|]; etransitivity; [exact E5|exact E6]).
  assert (extends sd sf) as E46 by (etransitivity; [exact E5|exact E6]).
  constructor; simpl.
  - symmetry. apply E16.
  - symmetry. apply E16.
  - rewrite (ext_previous_state _ _ Hext). reflexivity.
  - symmetry. apply E46.
  - symmetry. apply E26.
  - rewrite (ext_score _ _ E26 _ Hsc). eauto.
  - rewrite (ext_has_won _ _ E36 _ Hwon). eauto.
  - rewrite (ext_has_lost _ _ E46 _ Hlost). eauto.
  - destruct (_state_tracking sa).
    + bind_inv Hadm l sx Hl. apply ret_ok_inv in Hadm as [-> ->].
      apply admissible_commands_resolves in Hl.
      rewrite (ext_admissible_commands _ _ E6 _ Hl). eauto.
    + by apply ret_ok_inv in Hadm as [-> ->].
  - destruct (_compute_intermediate_reward sa).
    + bind_inv Hpol l sx Hl. apply ret_ok_inv in Hpol as [-> ->].
      apply policy_commands_resolves in Hl. rewrite Hl. eauto.
    + by apply ret_ok_inv in Hpol as [-> ->].
Qed.

End PropertiesExtend.

(** ** What [update] builds *)

Section Update.
Context `{GameLogic}.

Lemma on_self_ok_inv {A} (m : store -> M GlulxGameState A) w a w1 :
  on_self m w = (Ok a, w1) ->
  exists s1, m (fst w) (snd w) = (Ok a, s1) /\ w1 = (fst w, s1).
Proof.
  unfold on_self. destruct (m (fst w) (snd w)) as [r s1].
  intros [= -> <-]. eauto.
Qed.

(** The loop over the events keeps every tracker in place. *)
Lemma track_event_store self e sigma gs r sigma' gs' :
  track_event self e (sigma, gs) = (r, (sigma', gs')) ->
  forall l, is_Some (sigma !! l) -> is_Some (sigma' !! l).
Proof.
  unfold track_event, progression_at. msimpl. intros Heq l Hl.
  mcases; try done.
  unfold store in *.
  apply lookup_lt_is_Some. rewrite length_insert. by apply lookup_lt_is_Some.
Qed.

Lemma track_events_store self es sigma gs r sigma' gs' :
  track_events self es (sigma, gs) = (r, (sigma', gs')) ->
  forall l, is_Some (sigma !! l) -> is_Some (sigma' !! l).
Proof.
  revert sigma gs. induction es as [|e es IH]; intros sigma gs; simpl.
  - msimpl. by intros [= <- <- <-].
  - unfold bind.
    destruct (track_event self e (sigma, gs)) as [[[]|ex] [sigma1 gs1]] eqn:He.
    + intros Hes l Hl. eapply IH; [exact Hes|].
      eapply track_event_store; eauto.
    + intros [= <- <- <-]. eapply track_event_store; eauto.
Qed.

Lemma fresh_update_set_action cmd self prev s' a :
  fresh_update cmd self prev s' -> fresh_update cmd self prev (set_action a s').
Proof. intros []. destruct s'. by constructor. Qed.

Lemma update_ok_inv cmd out sigma self s' sigma' self' :
  update cmd out (sigma, self) = (Ok s', (sigma', self')) ->
  exists prev,
    is_view self' prev /\ extends self self'
    /\ fresh_update cmd self prev s'
    /\ (forall l, is_Some (sigma !! l) -> is_Some (sigma' !! l)).
Proof.
  unfold update. intros Hrun.
  bind_inv Hrun x w1 Hx. destruct x as [extra_infos output].
  apply lift_ok_inv in Hx as [Hx ->].
  bind_inv Hrun game_state w1 Hgs. apply gets_ok_inv in Hgs as [-> ->].
  bind_inv Hrun prev w1 Hv. apply on_self_ok_inv in Hv as (s1 & Hv & ->).
  simpl in Hv. apply view_is_view in Hv as [Hview Hext].
  bind_inv Hrun obj w1 Ho. apply on_self_ok_inv in Ho as (s2 & Ho & ->).
  apply getattr_ok_inv in Ho as [Ho ->]. simpl in *.
  bind_inv Hrun mx w1 Hmx. apply on_self_ok_inv in Hmx as (s2 & Hmx & ->).
  apply gets_ok_inv in Hmx as [-> ->]. simpl in *.
  bind_inv Hrun i7 w1 Hi. apply on_self_ok_inv in Hi as (s2 & Hi & ->).
  apply getattr_ok_inv in Hi as [Hi ->]. simpl in *.
  bind_inv Hrun game w1 Hg. apply on_self_ok_inv in Hg as (s2 & Hg & ->).
  apply getattr_ok_inv in Hg as [Hg ->]. simpl in *.
  bind_inv Hrun l w1 Hl. apply on_self_ok_inv in Hl as (s2 & Hl & ->).
  apply getattr_ok_inv in Hl as [Hl ->]. simpl in *.
  bind_inv Hrun tracking w1 Ht. apply gets_ok_inv in Ht as [-> ->].
  bind_inv Hrun ci w1 Hc. apply gets_ok_inv in Hc as [-> ->].
  bind_inv Hrun old_infos w1 Hoi. apply on_self_ok_inv in Hoi as (s2 & Hoi & ->).
  apply getattr_ok_inv in Hoi as [Hoi ->]. simpl in *.
  bind_inv Hrun y w1 Hy. destruct y as [i7_events fb].
  apply lift_ok_inv in Hy as [Hy ->].
  bind_inv Hrun self0 w1 Hs. apply gets_ok_inv in Hs as [-> ->]. simpl in *.
  exists prev.
  assert (fresh_update cmd self prev
            (set_feedback fb
               (inherit_attributes prev obj (_max_score s1) i7 game l
                  (_state_tracking s1) (_compute_intermediate_reward s1)
                  (extra_infos ∪ old_infos)
                  (GameState_update cmd output self)))) as Hfresh.
  { constructor; simpl; try done.
    - apply Hext.
    - apply Hext.
    - apply Hext.
    - split; [|done]. rewrite <- Hl. apply Hext.
    - split; [|done]. rewrite <- Hi. apply Hext.
    - split; [|done]. rewrite <- Hg. apply Hext.
    - split; [|done]. rewrite <- Ho. apply Hext. }
  destruct (_state_tracking s1).
  - destruct (track_events s1 i7_events _) as [r [sigma2 gs2]] eqn:Hev.
    simpl in Hrun.
    pose proof (track_events_frame _ _ _ _ _ _ _ Hev) as Hframe.
    pose proof (track_events_store _ _ _ _ _ _ _ Hev) as Hstore.
    destruct r as [[]|ex]; [|discriminate].
    injection Hrun as <- <- <-.
    split; [exact Hview|]. split; [exact Hext|]. split; [|exact Hstore].
    destruct Hframe as [->|[a ->]]; [done|].
    by apply fresh_update_set_action.
  - apply ret_ok_inv in Hrun as [-> [= <- <-]]. done.
Qed.

End Update.

(** ** Snapshots of a session *)

Section Session.
Context `{GameLogic}.

Lemma init_attached output game tracking ci sigma0 s0 sigma s :
  init output game tracking ci (sigma0, s0) = (Ok tt, (sigma, s)) ->
  attached sigma s
  /\ _state_tracking s = tracking
  /\ _compute_intermediate_reward s
     = ci && (0 <? length (game_quests game))%nat
  /\ previous_state s = previous_state s0
  /\ _policy_commands s = _policy_commands s0
  /\ _admissible_commands s = _admissible_commands s0.
Proof.
  intros Hin. apply init_result in Hin as (infos & text & -> & ->).
  destruct s0; simpl. repeat split; try done; simpl; eauto.
  exists (length sigma0), (GameProgression_new game tracking).
  split; [done|]. unfold store in *.
  by rewrite lookup_app_r, Nat.sub_diag.
Qed.

Lemma extends_attached sigma s s' :
  extends s s' -> attached sigma s -> attached sigma s'.
Proof.
  intros E (Htr & Hi & Hg & He & Ho). unfold attached.
  rewrite (ext_game_progression _ _ E), (ext_inform7 _ _ E),
    (ext_game _ _ E), (ext_extra_infos _ _ E), (ext_objective _ _ E). done.
Qed.

(** [update] leaves both snapshots attached, the new one with a view of
    the old one as its predecessor, ready for the reward to be computed
    when the capability is on. *)
Lemma update_attached cmd out sigma self s' sigma' self' :
  attached sigma self ->
  update cmd out (sigma, self) = (Ok s', (sigma', self')) ->
  attached sigma' s' /\ attached sigma' self' /\ cells_sound s'
  /\ _state_tracking s' = _state_tracking self
  /\ _compute_intermediate_reward s' = _compute_intermediate_reward self
  /\ (_compute_intermediate_reward self = true -> reward_ready sigma' s').
Proof.
  intros Hat Hup.
  apply update_ok_inv in Hup as (prev & Hview & Hext & Hf & Hstore).
  assert (attached sigma' self') as Hat'.
  { apply (extends_attached sigma' self self' Hext).
    destruct Hat as ((l & gp & Hl & Hgp) & Hrest). split; [|exact Hrest].
    destruct (Hstore l) as [gp' Hgp']; [by rewrite Hgp|]. eauto. }
  assert (exists l gp, _game_progression s' = Some l /\ sigma' !! l = Some gp)
    as Htr.
  { destruct Hat as ((l & gp & Hl & Hgp) & _).
    destruct (Hstore l) as [gp' Hgp']; [by rewrite Hgp|].
    exists l, gp'. split; [|done].
    destruct (fu_game_progression _ _ _ _ Hf) as [-> _]. done. }
  split; [|split; [exact Hat'|split; [|split; [|split]]]].
  - split; [exact Htr|]. repeat split; apply Hf.
  - split; intros _; apply Hf.
  - apply Hf.
  - apply Hf.
  - intros Hci. split; [exact Htr|]. split; [apply Hf|].
    intros p Hp. rewrite (fu_previous_state _ _ _ _ Hf) in Hp.
    injection Hp as <-.
    pose proof (view_policy_commands _ _ Hview) as Hpol.
    rewrite (view_compute_intermediate_reward _ _ Hview) in Hpol.
    rewrite (ext_compute_intermediate_reward _ _ Hext), Hci in Hpol.
    apply Hpol.
Qed.

(** C10: for a game without quests [init] turns the computation of the
    intermediate reward off, whatever its argument says; on the snapshot
    it builds, [intermediate_reward] and [policy_commands] raise
    [OraclePolicyIsRequiredError]. The snapshots that [update] derives
    from it inherit the flag and start with an empty cell, so they raise
    as well. *)
Theorem no_quests_no_reward output game tracking ci sigma0 s0 sigma s :
  game_quests game = [] ->
  _policy_commands s0 = None ->
  init output game tracking ci (sigma0, s0) = (Ok tt, (sigma, s)) ->
  _compute_intermediate_reward s = false
  /\ (forall sigma1,
        intermediate_reward sigma1 s
        = (Raise (OraclePolicyIsRequiredError "intermediate_reward"), s))
  /\ (forall sigma1,
        policy_commands sigma1 s
        = (Raise (OraclePolicyIsRequiredError "policy_commands"), s))
  /\ (forall s1 cmd out sigma1 s' sigma2 s2,
        extends s s1 ->
        update cmd out (sigma1, s1) = (Ok s', (sigma2, s2)) ->
        _compute_intermediate_reward s' = false
        /\ (forall sigma3,
              intermediate_reward sigma3 s'
              = (Raise (OraclePolicyIsRequiredError "intermediate_reward"), s'))
        /\ (forall sigma3,
              policy_commands sigma3 s'
              = (Raise (OraclePolicyIsRequiredError "policy_commands"), s'))).
Proof.
  intros Hq Hp0 Hin.
  apply init_attached in Hin as (_ & _ & Hci & _ & Hpol & _).
  rewrite Hq, andb_false_r in Hci. rewrite Hp0 in Hpol.
  split; [exact Hci|]. split; [|split].
  - intros sigma1. by apply intermediate_reward_disabled.
  - intros sigma1. by apply policy_commands_disabled.
  - intros s1 cmd out sigma1 s' sigma2 s2 Hext Hup.
    apply update_ok_inv in Hup as (prev & Hview & Hext' & Hf & _).
    assert (_compute_intermediate_reward s' = false) as Hci'.
    { rewrite (fu_compute_intermediate_reward _ _ _ _ Hf).
      by rewrite (ext_compute_intermediate_reward _ _ Hext). }
    split; [exact Hci'|]. split.
    + intros sigma3. by apply intermediate_reward_disabled.
    + intros sigma3. apply policy_commands_disabled; [done|apply Hf].
Qed.

End Session.

(** ** The admissible commands *)

Section TextualOrder.

Lemma compare_as_OT s t : String.compare s t = OrdersEx.String_as_OT.compare s t.
Proof.
  revert t. induction s as [|a s IH]; intros [|b t]; simpl; reflexivity.
Qed.

Lemma compare_refl s : String.compare s s = Eq.
Proof.
  rewrite compare_as_OT.
  destruct (OrdersEx.String_as_OT.compare_spec s s) as [_|Hlt|Hlt];
    [done| |]; by apply OrdersEx.String_as_OT.lt_strorder in Hlt.
Qed.

Lemma compare_lt_trans a b c :
  String.compare a b = Lt -> String.compare b c = Lt -> String.compare a c = Lt.
Proof.
  intros Hab Hbc.
  rewrite (compare_as_OT a b) in Hab. rewrite (compare_as_OT b c) in Hbc.
  rewrite (compare_as_OT a c).
  exact (@StrictOrder_Transitive _ _
           OrdersEx.String_as_OT.lt_strorder a b c Hab Hbc).
Qed.

Lemma str_lt_trans a b c : str_lt a b -> str_lt b c -> str_lt a c.
Proof.
  unfold str_lt, String.ltb. intros H1 H2.
  destruct (String.compare a b) eqn:Hab; try discriminate H1.
  destruct (String.compare b c) eqn:Hbc; try discriminate H2.
  by rewrite (compare_lt_trans a b c).
Qed.

Lemma str_le_lt_or_eq a b : str_le a b <-> str_lt a b \/ a = b.
Proof.
  unfold str_le, str_lt, String.leb, String.ltb. split.
  - destruct (String.compare a b) eqn:Hc; intros Hle;
      [right; by apply String.compare_eq_iff|by left|discriminate].
  - intros [Hlt| ->]; [by destruct (String.compare a b)|].
    by rewrite compare_refl.
Qed.

Lemma str_lt_irrefl a : ~ str_lt a a.
Proof. unfold str_lt, String.ltb. by rewrite compare_refl. Qed.

#[global] Instance str_le_refl : Reflexive str_le.
Proof. intros a. apply str_le_lt_or_eq. by right. Qed.

#[global] Instance str_le_trans : Transitive str_le.
Proof.
  intros a b c Hab Hbc. apply str_le_lt_or_eq in Hab, Hbc.
  apply str_le_lt_or_eq.
  destruct Hab as [Hab| ->]; [|done].
  destruct Hbc as [Hbc| <-]; [|by left].
  left. by eapply str_lt_trans.
Qed.

#[global] Instance str_le_antisym : AntiSymm (=) str_le.
Proof. intros a b Hab Hba. by apply String.leb_antisym. Qed.

#[global] Instance str_le_total : Total str_le.
Proof. intros a b. apply String.leb_total. Qed.

#[global] Instance str_lt_transitive : Transitive str_lt.
Proof. intros a b c. apply str_lt_trans. Qed.

(** ** [sorted] *)

Lemma insert_sorted_perm x l : insert_sorted x l ≡ₚ x :: l.
Proof.
  induction l as [|y l IH]; simpl; [done|].
  destruct (String.leb x y); [done|]. by rewrite IH, Permutation_swap.
Qed.

Lemma sorted_perm l : sorted l ≡ₚ l.
Proof.
  induction l as [|x l IH]; simpl; [done|].
  by rewrite insert_sorted_perm, IH.
Qed.

Lemma insert_sorted_sorted x l :
  StronglySorted str_le l -> StronglySorted str_le (insert_sorted x l).
Proof.
  induction 1 as [|y l Hl IH Hy]; simpl.
  - repeat constructor.
  - destruct (String.leb x y) eqn:Hxy.
    + constructor; [by constructor|].
      constructor; [done|].
      eapply Forall_impl; [exact Hy|]. intros z Hz. by etransitivity.
    + constructor; [done|].
      rewrite insert_sorted_perm. constructor; [|done].
      destruct (str_le_total x y) as [Hle|Hle]; [|done].
      unfold str_le in Hle. congruence.
Qed.

Lemma sorted_sorted l : StronglySorted str_le (sorted l).
Proof.
  induction l as [|x l IH]; simpl; [constructor|].
  by apply insert_sorted_sorted.
Qed.

Lemma sorted_strict l : NoDup l -> StronglySorted str_lt (sorted l).
Proof.
  intros Hnd. rewrite <- sorted_perm in Hnd.
  pose proof (sorted_sorted l) as Hs.
  induction Hs as [|x l' Hs IH Hx]; [constructor|].
  apply NoDup_cons in Hnd as [Hnotin Hnd].
  constructor; [by apply IH|].
  apply Forall_forall. intros y Hy.
  rewrite Forall_forall in Hx.
  destruct (proj1 (str_le_lt_or_eq x y) (Hx y Hy)) as [Hlt| ->]; [done|].
  done.
Qed.

(** A strictly sorted list is determined by its elements. *)
Lemma strictly_sorted_unique l1 l2 :
  StronglySorted str_lt l1 -> StronglySorted str_lt l2 ->
  (forall x, x ∈ l1 <-> x ∈ l2) -> l1 = l2.
Proof.
  intros H1. revert l2.
  induction H1 as [|x l1 H1 IH Hx]; intros l2 H2 Hel.
  - destruct l2 as [|y l2]; [done|].
    exfalso. eapply not_elem_of_nil. apply Hel. left.
  - destruct H2 as [|y l2 H2 Hy].
    { exfalso. eapply not_elem_of_nil. apply Hel. left. }
    rewrite Forall_forall in Hx, Hy.
    assert (x = y) as ->.
    { assert (x ∈ y :: l2) as Hx2 by (apply Hel; left).
      assert (y ∈ x :: l1) as Hy1 by (apply Hel; left).
      apply elem_of_cons in Hx2 as [->|Hx2]; [done|].
      apply elem_of_cons in Hy1 as [->|Hy1]; [done|].
      exfalso. apply (str_lt_irrefl x).
      eapply str_lt_trans; [apply Hx, Hy1|apply Hy, Hx2]. }
    f_equal. apply IH; [done|]. intros z. split; intros Hz.
    + assert (z ∈ y :: l2) as Hz2 by (apply Hel; by right).
      apply elem_of_cons in Hz2 as [->|Hz2]; [|done].
      exfalso. apply (str_lt_irrefl y). by apply Hx.
    + assert (z ∈ y :: l1) as Hz1 by (apply Hel; by right).
      apply elem_of_cons in Hz1 as [->|Hz1]; [|done].
      exfalso. apply (str_lt_irrefl y). by apply Hy.
Qed.

(** The order in which the set is enumerated does not matter. *)
Lemma sorted_permutation l1 l2 : l1 ≡ₚ l2 -> sorted l1 = sorted l2.
Proof.
  intros Hp. apply (StronglySorted_unique str_le).
  - apply sorted_sorted.
  - apply sorted_sorted.
  - by rewrite !sorted_perm.
Qed.

Lemma sorted_set_elem_of x l : x ∈ sorted (py_set l) <-> x ∈ l.
Proof. unfold py_set. by rewrite sorted_perm, elem_of_remove_dups. Qed.

Lemma sorted_set_strict l : StronglySorted str_lt (sorted (py_set l)).
Proof. apply sorted_strict, NoDup_remove_dups. Qed.

End TextualOrder.

Section Admissible.
Context `{GameLogic}.

(** C5: with state tracking, the first read of [admissible_commands]
    returns the renderings of the currently valid actions without
    duplicates and in textual order, the one list that is strictly
    increasing and has these elements, and keeps it; reading again returns
    the same list in the same order, whatever has become of the tracker.
    Without state tracking the property raises
    [StateTrackingIsRequiredError]. *)
Theorem admissible_commands_correct sigma s :
  (_state_tracking s = true -> _admissible_commands s = None ->
   forall l gp i7,
     _game_progression s = Some l -> sigma !! l = Some gp ->
     _inform7 s = Some i7 ->
     let rendered := gen_commands_from_actions i7 (gp_valid_actions gp) in
     let cmds := sorted (py_set rendered) in
     admissible_commands sigma s
     = (Ok cmds, set_admissible_commands (Some cmds) s)
     /\ StronglySorted str_lt cmds
     /\ (forall c, c ∈ cmds <-> c ∈ rendered)
     /\ (forall l',
           StronglySorted str_lt l' -> (forall c, c ∈ l' <-> c ∈ rendered) ->
           l' = cmds))
  /\ (forall cmds s1,
        admissible_commands sigma s = (Ok cmds, s1) ->
        forall sigma', admissible_commands sigma' s1 = (Ok cmds, s1))
  /\ (_state_tracking s = false -> cells_sound s ->
      admissible_commands sigma s
      = (Raise (StateTrackingIsRequiredError "admissible_commands"), s)).
Proof.
  split; [|split].
  - intros Ht Hc l gp i7 Hl Hgp Hi rendered cmds.
    split; [|split; [|split]].
    + unfold admissible_commands, progression. msimpl.
      rewrite Hc, Ht. simpl. rewrite Hi. simpl. rewrite Hl. simpl.
      by rewrite Hgp.
    + apply sorted_set_strict.
    + intros c. apply sorted_set_elem_of.
    + intros l' Hs Hel. apply strictly_sorted_unique; [done| |].
      * apply sorted_set_strict.
      * intros c. rewrite Hel. symmetry. apply sorted_set_elem_of.
  - intros cmds s1 Hr sigma'.
    apply admissible_commands_cached.
    by apply admissible_commands_resolves in Hr.
  - intros Ht [Hsound _].
    unfold admissible_commands. msimpl. by rewrite (Hsound Ht), Ht.
Qed.

End Admissible.

(** ** The session driver *)

Section Driver.
Context `{GameLogic} `{Transport}.

Lemma on_game_state_ok_inv {A} (m : M (store * GlulxGameState) A) e a e1 :
  Env.on_game_state m e = (Ok a, e1) ->
  exists gs sigma gs',
    Env.game_state e = Some gs
    /\ m (Env.heap e, gs) = (Ok a, (sigma, gs'))
    /\ e1 = Env.set_heap sigma (Env.set_game_state (Some gs') e).
Proof.
  unfold Env.on_game_state. intros Hrun.
  bind_inv Hrun gs e0 Hgs. apply getattr_ok_inv in Hgs as [Hgs ->].
  destruct (m (Env.heap e, gs)) as [r [sigma gs']] eqn:Hm.
  injection Hrun as -> <-. eauto 10.
Qed.

Lemma _send_running command e p p1 :
  Env._process e = Some p -> poll p = (true, p1) ->
  Env._send command e
  = match communicate p1 (sent_command command) with
    | (Some result, p2) =>
        (Ok (Some (Str.replace Env.escaped_csi Env.csi result)),
         Env.set_process (Some p2) e)
    | (None, p2) =>
        let '(_, e2) := Env.close (Env.set_process (Some p2) e) in
        (Ok None, e2)
    end.
Proof.
  intros Hp Hpoll. unfold Env._send, Env.game_running, sent_command. msimpl.
  rewrite Hp, Hpoll. simpl.
  destruct (communicate p1 _) as [[result|] p2]; simpl; [by destruct e|].
  unfold Env.close, Env.game_running. msimpl.
  destruct (poll p2) as [[] p3]; simpl; by destruct e.
Qed.

Lemma _send_not_running command e e1 :
  Env.game_running e = (Ok false, e1) ->
  Env._send command e = (Ok None, e1).
Proof. intros Hr. unfold Env._send. msimpl. by rewrite Hr. Qed.

(** C7, as amended: [step] raises [GameNotRunningError], and so returns no
    snapshot, when the game is not running as it is called, and when
    [_send] comes back empty-handed because the process is found exited
    before the command is sent or gives no answer to it; hence a call
    made after the process has exited fails. The command goes to the
    interpreter without the white space around it, and the empty command
    as one space: the answer of [_send] is the answer of the interpreter
    to that text, each escaped control sequence replaced. *)
Theorem step_not_running command e :
  (forall e1,
     Env.game_running e = (Ok false, e1) ->
     Env.step command e = (Raise GameNotRunningError, e1))
  /\ (forall e1 e2,
        Env.game_running e = (Ok true, e1) ->
        Env._send (Str.strip command) e1 = (Ok None, e2) ->
        Env.step command e = (Raise GameNotRunningError, e2))
  /\ (forall e1 e2,
        Env.game_running e = (Ok true, e1) ->
        Env.game_running e1 = (Ok false, e2) ->
        Env.step command e = (Raise GameNotRunningError, e2))
  /\ (Env._process e = None ->
      Env.step command e = (Raise GameNotRunningError, e))
  /\ (forall p p1,
        Env._process e = Some p -> poll p = (false, p1) ->
        Env.step command e
        = (Raise GameNotRunningError, Env.set_process (Some p1) e))
  /\ (forall p p1 p2,
        Env._process e = Some p -> poll p = (true, p1) ->
        poll p1 = (false, p2) ->
        Env.step command e
        = (Raise GameNotRunningError, Env.set_process (Some p2) e))
  /\ (forall p p1 p2 p3,
        Env._process e = Some p -> poll p = (true, p1) ->
        poll p1 = (true, p2) ->
        communicate p2 (if (String.length (Str.strip command) =? 0)%nat
                        then " " else Str.strip command)
        = (None, p3) ->
        Env.step command e
        = (Raise GameNotRunningError,
           snd (Env.close (Env.set_process (Some p3) e))))
  /\ (forall p p1,
        Env._process e = Some p -> poll p = (true, p1) ->
        Env._send command e
        = match communicate p1 (if (String.length command =? 0)%nat
                                then " " else command) with
          | (Some result, p2) =>
              (Ok (Some (Str.replace Env.escaped_csi Env.csi result)),
               Env.set_process (Some p2) e)
          | (None, p2) =>
              (Ok None, snd (Env.close (Env.set_process (Some p2) e)))
          end)
  /\ (forall p p1,
        Env._process e = Some p -> poll p = (true, p1) ->
        Env._send "" e
        = match communicate p1 " " with
          | (Some result, p2) =>
              (Ok (Some (Str.replace Env.escaped_csi Env.csi result)),
               Env.set_process (Some p2) e)
          | (None, p2) =>
              (Ok None, snd (Env.close (Env.set_process (Some p2) e)))
          end).
Proof.
  assert (forall c e0 p p1,
            Env._process e0 = Some p -> poll p = (true, p1) ->
            Env._send c e0
            = match communicate p1 (if (String.length c =? 0)%nat
                                    then " " else c) with
              | (Some result, p2) =>
                  (Ok (Some (Str.replace Env.escaped_csi Env.csi result)),
                   Env.set_process (Some p2) e0)
              | (None, p2) =>
                  (Ok None, snd (Env.close (Env.set_process (Some p2) e0)))
              end) as Hsend.
  { intros c e0 p p1 Hp Hpoll.
    rewrite (_send_running _ _ _ _ Hp Hpoll). unfold sent_command.
    destruct (communicate p1 _) as [[result|] p2]; [done|].
    by destruct (Env.close _). }
  assert (forall p p1,
            Env._process e = Some p -> poll p = (false, p1) ->
            Env.game_running e = (Ok false, Env.set_process (Some p1) e))
    as Hdead by (intros p p1 Hp Hpoll; unfold Env.game_running;
                 by rewrite Hp, Hpoll).
  assert (forall p p1,
            Env._process e = Some p -> poll p = (true, p1) ->
            Env.game_running e = (Ok true, Env.set_process (Some p1) e))
    as Halive by (intros p p1 Hp Hpoll; unfold Env.game_running;
                  by rewrite Hp, Hpoll).
  assert (forall e0 p0, Env.set_process (Some p0) (Env.set_process e0 e)
                        = Env.set_process (Some p0) e) as Hset
    by (intros; by destruct e).
  assert (forall e1,
            Env.game_running e = (Ok false, e1) ->
            Env.step command e = (Raise GameNotRunningError, e1)) as H1
    by (intros e1 Hr; unfold Env.step; msimpl; by rewrite Hr).
  assert (forall e1 e2,
            Env.game_running e = (Ok true, e1) ->
            Env._send (Str.strip command) e1 = (Ok None, e2) ->
            Env.step command e = (Raise GameNotRunningError, e2)) as H2.
  { intros e1 e2 Hr Hs. unfold Env.step. msimpl. rewrite Hr. simpl.
    by rewrite Hs. }
  split; [exact H1|]. split; [exact H2|].
  split; [|split; [|split; [|split; [|split; [|split]]]]].
  - intros e1 e2 Hr Hr2. apply (H2 e1 e2 Hr).
    by apply _send_not_running.
  - intros Hp. apply H1. unfold Env.game_running. by rewrite Hp.
  - intros p p1 Hp Hpoll. by apply H1, (Hdead p).
  - intros p p1 p2 Hp Hpoll Hpoll2.
    apply (H2 _ _ (Halive p p1 Hp Hpoll)), _send_not_running.
    unfold Env.game_running.
    assert (Env._process (Env.set_process (Some p1) e) = Some p1) as ->
      by (by destruct e).
    by rewrite Hpoll2, Hset.
  - intros p p1 p2 p3 Hp Hpoll Hpoll2 Hc.
    apply (H2 _ _ (Halive p p1 Hp Hpoll)).
    rewrite (Hsend _ _ p1 p2); [|by destruct e|done].
    by rewrite Hc, Hset.
  - intros p p1. apply Hsend.
  - intros p p1. apply (Hsend "").
Qed.

Lemma game_ended_extends sigma : preserves extends (game_ended sigma).
Proof.
  unfold game_ended.
  repeat first
    [ apply has_won_extends | apply has_lost_extends
    | apply preserves_gets; apply _
    | apply preserves_ret; apply _
    | apply preserves_bind; [apply _ | | intros ?] ].
Qed.




End Driver.

(** ** Strings *)

Section StringFacts.

Lemma app_cons c (s t : string) : String c s +:+ t = String c (s +:+ t).
Proof. reflexivity. Qed.

Lemma app_nil_l (s : string) : "" +:+ s = s.
Proof. reflexivity. Qed.

Lemma app_nil_r (s : string) : s +:+ "" = s.
Proof. induction s as [|c s IH]; [done|]. by rewrite app_cons, IH. Qed.

Lemma app_assoc (s t u : string) : (s +:+ t) +:+ u = s +:+ (t +:+ u).
Proof. induction s as [|c s IH]; [done|]. by rewrite !app_cons, IH. Qed.

Lemma length_app (s t : string) :
  String.length (s +:+ t) = (String.length s + String.length t)%nat.
Proof. induction s as [|c s IH]; [done|]. rewrite app_cons. simpl. by rewrite IH. Qed.

Lemma ascii_eqb_eq a b : Str.ascii_eqb a b = true <-> a = b.
Proof. apply Ascii.eqb_eq. Qed.

Lemma ascii_eqb_refl a : Str.ascii_eqb a a = true.
Proof. apply Ascii.eqb_refl. Qed.

Lemma ascii_eqb_neq a b : Str.ascii_eqb a b = false <-> a <> b.
Proof. apply Ascii.eqb_neq. Qed.

(** [startswith] *)

Lemma startswith_app p s : Str.startswith p (p +:+ s) = true.
Proof.
  induction p as [|c p IH]; [done|]. rewrite app_cons. simpl.
  by rewrite ascii_eqb_refl, IH.
Qed.

Lemma startswith_spec p s :
  Str.startswith p s = true <-> exists r, s = p +:+ r.
Proof.
  split.
  - revert s. induction p as [|c p IH]; intros s Hs; [by exists s|].
    destruct s as [|d s]; [done|]. simpl in Hs.
    apply andb_true_iff in Hs as [Hc Hp]. apply ascii_eqb_eq in Hc as ->.
    destruct (IH s Hp) as [r ->]. by exists r.
  - intros [r ->]. apply startswith_app.
Qed.

Lemma startswith_nil_r p : Str.startswith p "" = true -> p = "".
Proof. by destruct p. Qed.

Lemma startswith_length p s :
  Str.startswith p s = true -> (String.length p <= String.length s)%nat.
Proof.
  intros Hs. apply startswith_spec in Hs as [r ->]. rewrite length_app. lia.
Qed.

(** [drop] and [take] *)

Lemma drop_app_length p s : Str.drop (String.length p) (p +:+ s) = s.
Proof. induction p as [|c p IH]; [by destruct s|]. by rewrite app_cons. Qed.

Lemma take_app_length p s : Str.take (String.length p) (p +:+ s) = p.
Proof.
  induction p as [|c p IH]; [by destruct s|]. rewrite app_cons. simpl.
  by rewrite IH.
Qed.

Lemma drop_0 s : Str.drop 0 s = s.
Proof. by destruct s. Qed.

Lemma drop_nil n : Str.drop n "" = "".
Proof. by destruct n. Qed.

Lemma take_drop n s : Str.take n s +:+ Str.drop n s = s.
Proof.
  revert s. induction n as [|n IH]; intros [|c s]; try done.
  simpl. rewrite app_cons. by rewrite IH.
Qed.

Lemma drop_drop n k s : Str.drop n (Str.drop k s) = Str.drop (k + n) s.
Proof.
  revert s. induction k as [|k IH]; intros s; [by rewrite drop_0|].
  destruct s as [|c s]; [by rewrite !drop_nil|]. simpl. apply IH.
Qed.

Lemma length_drop n s :
  String.length (Str.drop n s) = (String.length s - n)%nat.
Proof.
  revert s. induction n as [|n IH]; intros [|c s]; simpl; done.
Qed.

(** [find] and [contains] *)

Lemma find_Some_spec sub s i :
  Str.find sub s = Some i ->
  Str.startswith sub (Str.drop i s) = true
  /\ (i <= String.length s)%nat
  /\ forall j, (j < i)%nat -> Str.startswith sub (Str.drop j s) = false.
Proof.
  revert i. induction s as [|c s IH]; intros i; simpl.
  - destruct (Str.startswith sub "") eqn:Hs; [|done].
    intros [= <-]. split; [done|]. split; [done|]. intros j Hj. lia.
  - destruct (Str.startswith sub (String c s)) eqn:Hs.
    + intros [= <-]. split; [done|]. split; [lia|]. intros j Hj. lia.
    + destruct (Str.find sub s) as [k|] eqn:Hf; [|done].
      intros [= <-]. destruct (IH k eq_refl) as (H1 & H2 & H3).
      split; [done|]. split; [lia|].
      intros [|j] Hj; [done|]. simpl. apply H3. lia.
Qed.

Lemma find_None_spec sub s :
  Str.find sub s = None ->
  forall j, Str.startswith sub (Str.drop j s) = false.
Proof.
  induction s as [|c s IH]; simpl.
  - destruct (Str.startswith sub "") eqn:Hs; [done|].
    intros _ j. by rewrite drop_nil.
  - destruct (Str.startswith sub (String c s)) eqn:Hs; [done|].
    destruct (Str.find sub s) as [k|] eqn:Hf; [done|].
    intros _ [|j]; [done|]. simpl. by apply IH.
Qed.

Lemma find_first sub s i :
  Str.startswith sub (Str.drop i s) = true ->
  (i <= String.length s)%nat ->
  (forall j, (j < i)%nat -> Str.startswith sub (Str.drop j s) = false) ->
  Str.find sub s = Some i.
Proof.
  revert i. induction s as [|c s IH]; intros i Hi Hle Hlt.
  - simpl in Hle. assert (i = O) as -> by lia. simpl in *. by rewrite Hi.
  - destruct i as [|i].
    + simpl in Hi. simpl. by rewrite Hi.
    + pose proof (Hlt O ltac:(lia)) as H0. simpl in H0.
      simpl. rewrite H0.
      rewrite (IH i); [done|done|simpl in Hle; lia|].
      intros j Hj. apply (Hlt (S j)). lia.
Qed.

Lemma contains_false_spec sub s :
  Str.contains sub s = false <->
  forall j, Str.startswith sub (Str.drop j s) = false.
Proof.
  unfold Str.contains. split.
  - destruct (Str.find sub s) eqn:Hf; [done|]. intros _.
    by apply find_None_spec.
  - intros Hno. destruct (Str.find sub s) as [i|] eqn:Hf; [|done].
    apply find_Some_spec in Hf as (Hs & _ & _). by rewrite Hno in Hs.
Qed.

Lemma contains_true_spec sub s :
  Str.contains sub s = true <-> exists a b, s = a +:+ sub +:+ b.
Proof.
  unfold Str.contains. split.
  - destruct (Str.find sub s) as [i|] eqn:Hf; [|done]. intros _.
    apply find_Some_spec in Hf as (Hs & _ & _).
    apply startswith_spec in Hs as [r Hr].
    exists (Str.take i s), r. by rewrite <- Hr, take_drop.
  - intros (a & b & ->).
    destruct (Str.find sub (a +:+ sub +:+ b)) eqn:Hf; [done|].
    pose proof (find_None_spec _ _ Hf (String.length a)) as Hno.
    by rewrite drop_app_length, startswith_app in Hno.
Qed.

End StringFacts.

(** ** Side-channel blocks *)

Section Blocks.

Lemma split_first_find sep s :
  split_first sep s
  = match Str.find sep s with
    | Some i => Some (Str.take i s, Str.drop (i + String.length sep) s)
    | None => None
    end.
Proof.
  induction s as [|c s IH]; simpl.
  - destruct (Str.startswith sep ""); [|done]. by rewrite !drop_nil.
  - destruct (Str.startswith sep (String c s)) eqn:Hs; [done|].
    rewrite IH. by destruct (Str.find sep s).
Qed.

Lemma split_first_at sep pre rest :
  Str.find sep (pre +:+ sep +:+ rest) = Some (String.length pre) ->
  split_first sep (pre +:+ sep +:+ rest) = Some (pre, rest).
Proof.
  intros Hf. rewrite split_first_find, Hf. f_equal. f_equal.
  - apply take_app_length.
  - rewrite <- drop_drop, drop_app_length. apply drop_app_length.
Qed.

Lemma split_first_none sep s :
  Str.contains sep s = false -> split_first sep s = None.
Proof.
  unfold Str.contains. rewrite split_first_find.
  by destruct (Str.find sep s).
Qed.

(** When a separator is found last, it occurs nowhere later. *)
Lemma split_last_none sep s :
  (forall j, Str.startswith sep (Str.drop j s) = false) ->
  split_last sep s = None.
Proof.
  induction s as [|c s IH]; intros Hno; simpl.
  - pose proof (Hno O) as H0. simpl in H0. by rewrite H0.
  - rewrite IH; [|intros j; apply (Hno (S j))].
    pose proof (Hno O) as H0. simpl in H0. by rewrite H0.
Qed.

Lemma split_last_app inner s b :
  split_last "</score>" s = Some ("", b) ->
  split_last "</score>" (inner +:+ s) = Some (inner, b).
Proof.
  intros Hs. induction inner as [|c inner IH]; [done|].
  rewrite app_cons. simpl. by rewrite IH.
Qed.

(** The closing tag starts with the one ['<'] it has: an occurrence
    cannot begin inside another one. *)
Lemma split_last_score inner post :
  Str.contains "</score>" post = false ->
  split_last (close_tag "score") (inner +:+ close_tag "score" +:+ post)
  = Some (inner, post).
Proof.
  intros Hno. apply split_last_app.
  pose proof (proj1 (contains_false_spec _ _) Hno) as Hj.
  assert (split_last "</score>" post = None) as Hp by (by apply split_last_none).
  destruct post as [|c post].
  - reflexivity.
  - change (close_tag "score" +:+ String c post)
      with (String "<" (String "/" (String "s" (String "c" (String "o"
              (String "r" (String "e" (String ">" (String c post))))))))).
    simpl in Hp |- *. rewrite Hp. reflexivity.
Qed.

Lemma re_search_block_none_open tag text :
  Str.contains (open_tag tag) text = false -> re_search_block tag text = None.
Proof.
  intros Hno. unfold re_search_block. by rewrite split_first_none.
Qed.

Lemma contains_drop sub s j :
  Str.contains sub s = false -> Str.contains sub (Str.drop j s) = false.
Proof.
  rewrite !contains_false_spec. intros Hno k.
  rewrite drop_drop. apply Hno.
Qed.

Lemma re_search_block_none_close tag text :
  Str.contains (close_tag tag) text = false -> re_search_block tag text = None.
Proof.
  intros Hno. unfold re_search_block. rewrite split_first_find.
  destruct (Str.find (open_tag tag) text) as [i|]; [|done].
  rewrite split_last_none; [done|].
  apply contains_false_spec. by apply contains_drop.
Qed.

Lemma re_sub_block_fuel_none fuel tag text :
  re_search_block tag text = None -> re_sub_block_fuel fuel tag text = text.
Proof. intros Hn. destruct fuel; simpl; [done|]. by rewrite Hn. Qed.

Lemma re_sub_block_none tag text :
  re_search_block tag text = None -> re_sub_block tag text = text.
Proof. apply re_sub_block_fuel_none. Qed.

(** The score block of a text that has one. *)
Lemma re_search_block_score pre inner post :
  let text :=
    pre +:+ open_tag "score" +:+ inner +:+ close_tag "score" +:+ post in
  Str.find (open_tag "score") text = Some (String.length pre) ->
  Str.contains (close_tag "score") post = false ->
  re_search_block "score" text = Some (pre, inner, post)
  /\ re_sub_block "score" text = pre +:+ post.
Proof.
  intros text Hopen Hclose.
  assert (re_search_block "score" text = Some (pre, inner, post)) as Hsearch.
  { unfold re_search_block, text.
    rewrite (split_first_at _ _ _ Hopen), (split_last_score _ _ Hclose). done. }
  split; [exact Hsearch|].
  unfold re_sub_block.
  destruct (String.length text) as [|fuel] eqn:Hlen.
  - unfold text in Hlen. rewrite !length_app in Hlen. simpl in Hlen. lia.
  - simpl. rewrite Hsearch. f_equal.
    apply re_sub_block_fuel_none. by apply re_search_block_none_close.
Qed.

(** The round of the loop for the score, on any text that has a score
    block, whatever the rounds before have found and removed. *)
Lemma extra_infos_step_score facts pre inner post :
  let text :=
    pre +:+ open_tag "score" +:+ inner +:+ close_tag "score" +:+ post in
  Str.find (open_tag "score") text = Some (String.length pre) ->
  Str.contains (close_tag "score") post = false ->
  extra_infos_step (facts, text) "score"
  = match _detect_i7_events_debug_tags inner with
    | Ok (_, cleaned) => Ok (<["score" := cleaned]> facts, pre +:+ post)
    | Raise e => Raise e
    end.
Proof.
  intros text Hopen Hclose.
  destruct (re_search_block_score pre inner post Hopen Hclose) as [Hs Hsub].
  fold text in Hs, Hsub. unfold extra_infos_step. rewrite Hs.
  destruct (_detect_i7_events_debug_tags inner) as [[evs cleaned]|e]; simpl;
    [|done].
  by rewrite Hsub.
Qed.

Lemma extra_infos_step_absent facts text tag :
  Str.contains (open_tag tag) text = false ->
  extra_infos_step (facts, text) tag = Ok (facts, text).
Proof.
  intros Hno. unfold extra_infos_step.
  by rewrite (re_search_block_none_open _ _ Hno).
Qed.

Lemma split_last_None_inv sep s :
  split_last sep s = None -> Str.contains sep s = false.
Proof.
  unfold Str.contains. induction s as [|c s IH]; simpl.
  - by destruct (Str.startswith sep "").
  - destruct (split_last sep s) as [[a b]|]; [done|].
    destruct (Str.startswith sep (String c s)); [done|].
    intros _. specialize (IH eq_refl).
    by destruct (Str.find sep s).
Qed.

(** What [split_last] finds: the separator and, after it, a text in which
    the separator does not occur. *)
Lemma split_last_Some_inv sep s a b :
  sep <> "" ->
  split_last sep s = Some (a, b) ->
  s = a +:+ sep +:+ b /\ Str.contains sep b = false.
Proof.
  intros Hsep. revert a. induction s as [|c s IH]; intros a; simpl.
  - destruct (Str.startswith sep "") eqn:Hs; [|done].
    by apply startswith_nil_r in Hs.
  - destruct (split_last sep s) as [[a' b']|] eqn:Hl.
    + intros [= <- <-]. destruct (IH a' eq_refl) as [-> Hb]. by rewrite app_cons.
    + destruct (Str.startswith sep (String c s)) eqn:Hs; [|done].
      intros [= <- <-]. apply startswith_spec in Hs as [r Hr].
      rewrite Hr, drop_app_length, app_nil_l. split; [done|].
      apply split_last_None_inv in Hl.
      destruct sep as [|x sep]; [done|].
      rewrite app_cons in Hr. injection Hr as _ ->.
      assert (r = Str.drop (String.length sep) (sep +:+ r)) as ->
        by (by rewrite drop_app_length).
      by apply contains_drop.
Qed.

Lemma length_take n s :
  (n <= String.length s)%nat -> String.length (Str.take n s) = n.
Proof.
  revert s. induction n as [|n IH]; intros [|c s] Hn; simpl in *; try lia.
  rewrite IH; lia.
Qed.

Lemma drop_app_le n a b :
  (n <= String.length a)%nat -> Str.drop n (a +:+ b) = Str.drop n a +:+ b.
Proof.
  revert a. induction n as [|n IH]; intros a Hn; [done|].
  destruct a as [|c a]; simpl in *; [lia|]. apply IH. lia.
Qed.

Lemma drop_app_ge n a b :
  (String.length a <= n)%nat ->
  Str.drop n (a +:+ b) = Str.drop (n - String.length a) b.
Proof.
  revert n. induction a as [|c a IH]; intros n Hn; simpl.
  - by rewrite Nat.sub_0_r.
  - destruct n as [|n]; simpl in *; [lia|]. apply IH. lia.
Qed.

Lemma open_tag_not_nil tag : open_tag tag <> "".
Proof. done. Qed.

Lemma close_tag_not_nil tag : close_tag tag <> "".
Proof. done. Qed.

(** What [re_search_block] finds. *)
Lemma re_search_block_Some_inv tag text pre inner post :
  re_search_block tag text = Some (pre, inner, post) ->
  text = pre +:+ open_tag tag +:+ inner +:+ close_tag tag +:+ post
  /\ Str.find (open_tag tag) text = Some (String.length pre)
  /\ Str.contains (close_tag tag) post = false.
Proof.
  unfold re_search_block. rewrite split_first_find.
  destruct (Str.find (open_tag tag) text) as [i|] eqn:Hf; [|done].
  destruct (split_last _ _) as [[inner' post']|] eqn:Hl; [|done].
  intros [= <- <- <-].
  apply split_last_Some_inv in Hl as [Hrest Hpost]; [|done].
  destruct (find_Some_spec _ _ _ Hf) as (Hs & Hle & _).
  rewrite (length_take _ _ Hle). split; [|done].
  rewrite <- Hrest.
  apply startswith_spec in Hs as [r Hr].
  rewrite <- (take_drop i text) at 1. f_equal.
  rewrite <- drop_drop, Hr, drop_app_length. done.
Qed.

Lemma re_sub_block_found tag text pre inner post :
  re_search_block tag text = Some (pre, inner, post) ->
  re_sub_block tag text = pre +:+ post.
Proof.
  intros Hs. pose proof (re_search_block_Some_inv _ _ _ _ _ Hs) as (Ht & _ & Hpost).
  unfold re_sub_block.
  destruct (String.length text) as [|fuel] eqn:Hlen.
  - rewrite Ht, !length_app in Hlen. simpl in Hlen. lia.
  - simpl. rewrite Hs. f_equal.
    apply re_sub_block_fuel_none. by apply re_search_block_none_close.
Qed.

(** One round of the loop, as the specification words it: the fact of
    the tag is recorded and its block is taken out of the text. *)
Lemma extra_infos_step_spec facts text tag :
  extra_infos_step (facts, text) tag
  = (try! fact := block_fact tag text in
     Ok (with_fact tag fact facts, without_block tag text)).
Proof.
  unfold extra_infos_step, block_fact, without_block.
  destruct (re_search_block tag text) as [[[pre inner] post]|] eqn:Hs; [|done].
  destruct (_detect_i7_events_debug_tags inner) as [[evs cleaned]|e];
    cbn [rbind with_fact]; [|done].
  by rewrite (re_sub_block_found _ _ _ _ _ Hs).
Qed.

(** C8, as amended: take the description block and then the inventory
    block out of a raw text; when what is left has a score block, made of
    its first opening tag and of a closing tag that no other one follows,
    normalization returns the inner text of that block, cleaned of its
    event tags, as the score fact, beside the facts of the two blocks
    taken out, and the text before the block followed by the text after
    it as the clean text; when the event scan of an inner text raises, so
    does normalization. In particular, for a raw text that has no opening
    tag of a description or an inventory block, the score fact is the only
    fact and the text around the block is the text around it in the raw
    text. *)
Theorem score_block_extracted pre inner post :
  (forall text,
     let t1 := without_block "description" text in
     let t2 := without_block "inventory" t1 in
     t2 = pre +:+ open_tag "score" +:+ inner +:+ close_tag "score" +:+ post ->
     Str.find (open_tag "score") t2 = Some (String.length pre) ->
     Str.contains (close_tag "score") post = false ->
     _detect_extra_infos text
     = (try! d := block_fact "description" text in
        try! i := block_fact "inventory" t1 in
        try! '(_, cleaned) := _detect_i7_events_debug_tags inner in
        Ok (<["score" := cleaned]>
              (with_fact "inventory" i (with_fact "description" d ∅)),
            pre +:+ post)))
  /\ (let text :=
        pre +:+ open_tag "score" +:+ inner +:+ close_tag "score" +:+ post in
      Str.contains (open_tag "description") text = false ->
      Str.contains (open_tag "inventory") text = false ->
      Str.find (open_tag "score") text = Some (String.length pre) ->
      Str.contains (close_tag "score") post = false ->
      match _detect_i7_events_debug_tags inner with
      | Ok (_, cleaned) =>
          _detect_extra_infos text = Ok ({[ "score" := cleaned ]}, pre +:+ post)
      | Raise e => _detect_extra_infos text = Raise e
      end).
Proof.
  split.
  - intros text t1 t2 Ht2 Hopen Hclose.
    unfold _detect_extra_infos, extra_info_tags. cbn [extra_infos_loop].
    rewrite extra_infos_step_spec. fold t1.
    destruct (block_fact "description" text) as [d|e]; cbn [rbind]; [|done].
    rewrite extra_infos_step_spec. fold t2.
    destruct (block_fact "inventory" t1) as [i|e]; cbn [rbind]; [|done].
    rewrite Ht2 in Hopen |- *.
    rewrite (extra_infos_step_score _ pre inner post Hopen Hclose).
    by destruct (_detect_i7_events_debug_tags inner) as [[evs cleaned]|e].
  - intros text Hd Hi Hopen Hclose.
    pose proof (extra_infos_step_score ∅ pre inner post Hopen Hclose) as Hstep.
    fold text in Hstep.
    unfold _detect_extra_infos, extra_info_tags. cbn [extra_infos_loop].
    rewrite (extra_infos_step_absent _ _ _ Hd). cbn [rbind].
    rewrite (extra_infos_step_absent _ _ _ Hi). cbn [rbind].
    rewrite Hstep.
    destruct (_detect_i7_events_debug_tags inner) as [[evs cleaned]|e]; simpl;
      [|done].
    by rewrite insert_empty.
Qed.

End Blocks.

(** ** Tokens *)

Section Tokens.

Lemma has_char_nil c : has_char c "" = false.
Proof. reflexivity. Qed.

Lemma has_char_cons c d s :
  has_char c (String d s) = Str.ascii_eqb c d || has_char c s.
Proof.
  unfold has_char, Str.contains. simpl.
  destruct (Str.ascii_eqb c d); simpl; [done|].
  by destruct (Str.find (String c "") s).
Qed.

Lemma has_char_app c a b : has_char c (a +:+ b) = has_char c a || has_char c b.
Proof.
  induction a as [|d a IH]; [done|].
  by rewrite app_cons, !has_char_cons, IH, orb_assoc.
Qed.

Lemma ascii_eqb_sym a b : Str.ascii_eqb a b = Str.ascii_eqb b a.
Proof. apply Ascii.eqb_sym. Qed.

Lemma until_close_spec s body :
  until_close s = Some body <->
  has_char "]" body = false /\ exists rest, s = body +:+ "]" +:+ rest.
Proof.
  split.
  - revert body. induction s as [|c s IH]; intros body; simpl; [done|].
    destruct (Str.ascii_eqb c "]") eqn:Hc.
    + apply ascii_eqb_eq in Hc as ->. intros [= <-]. split; [done|].
      by exists s.
    + destruct (until_close s) as [b|]; [|done]. intros [= <-].
      destruct (IH b eq_refl) as (Hb & rest & ->). split; [|by exists rest].
      by rewrite has_char_cons, ascii_eqb_sym, Hc, Hb.
  - intros (Hb & rest & ->). induction body as [|c body IH]; [done|].
    rewrite app_cons. simpl.
    rewrite has_char_cons in Hb. apply orb_false_iff in Hb as [Hc Hb].
    rewrite ascii_eqb_sym in Hc. rewrite Hc. by rewrite IH.
Qed.

Lemma until_close_none s : until_close s = None <-> has_char "]" s = false.
Proof.
  induction s as [|c s IH]; simpl; [done|].
  rewrite has_char_cons, (ascii_eqb_sym "]" c).
  destruct (Str.ascii_eqb c "]"); simpl; [done|].
  destruct (until_close s); simpl; [|tauto].
  split; [done|]. intros Hs. apply IH in Hs. done.
Qed.

Lemma drop_past_close inner rest :
  Str.drop (S (String.length inner)) (inner +:+ "]" +:+ rest) = rest.
Proof.
  induction inner as [|c inner IH]; [by destruct rest|].
  rewrite app_cons. simpl. exact IH.
Qed.

(** What the pattern matches at the start of a text. *)
Lemma match_tag_at_spec s m :
  match_tag_at s = Some m <->
  exists inner rest,
    inner <> "" /\ has_char "]" inner = false
    /\ s = String "[" (inner +:+ "]" +:+ rest)
    /\ m = token inner (Str.startswith Str.nl rest).
Proof.
  unfold match_tag_at, token. split.
  - destruct s as [|c s]; [done|].
    destruct (Str.ascii_eqb c "[") eqn:Hc; [|done].
    apply ascii_eqb_eq in Hc as ->.
    destruct (until_close s) as [body|] eqn:Hu; [|done].
    apply until_close_spec in Hu as (Hb & rest & ->).
    destruct body as [|b body]; [done|].
    rewrite drop_past_close. intros Heq. injection Heq as <-.
    exists (String b body), rest. by repeat split.
  - intros (inner & rest & Hne & Hb & -> & ->).
    rewrite ascii_eqb_refl.
    assert (until_close (inner +:+ "]" +:+ rest) = Some inner) as ->
      by (apply until_close_spec; eauto).
    destruct inner as [|b inner]; [done|].
    by rewrite drop_past_close.
Qed.

(** *** The scans without their counters *)

Lemma findall_from_skip e k s :
  findall_from e (S k) s = findall_from false 0 (Str.drop (S k) s).
Proof.
  revert e k. induction s as [|c s IH]; intros e k; [done|].
  simpl. destruct k as [|k]; [by rewrite drop_0|]. apply IH.
Qed.

Lemma findall_from_match s m :
  match_tag_at s = Some m ->
  findall_from false 0 s
  = m :: findall_from false 0 (Str.drop (String.length m) s).
Proof.
  intros Hm. destruct s as [|c s]; [done|].
  cbn [findall_from]. rewrite Hm. f_equal.
  apply match_tag_at_spec in Hm as (inner & rest & _ & _ & _ & ->).
  unfold token.
  remember (inner +:+ "]" +:+ (if Str.startswith Str.nl rest then Str.nl else ""))
    as u eqn:Hu.
  change (String.length (String "[" u)) with (S (String.length u)).
  replace (S (String.length u) - 1)%nat with (String.length u) by lia.
  cbn [Str.drop].
  destruct (String.length u) eqn:Hl.
  - subst u. rewrite !length_app in Hl. simpl in Hl. lia.
  - by rewrite findall_from_skip.
Qed.

Lemma findall_from_no_match e c s :
  e = true \/ match_tag_at (String c s) = None ->
  findall_from e 0 (String c s)
  = findall_from (Str.ascii_eqb c Str.ESC) 0 s.
Proof.
  intros Hno. cbn [findall_from].
  destruct e; [done|]. destruct Hno as [Hno|Hno]; [done|by rewrite Hno].
Qed.

Lemma match_tag_at_other c s :
  c <> "["%char -> match_tag_at (String c s) = None.
Proof.
  intros Hc. unfold match_tag_at.
  by apply ascii_eqb_neq in Hc as ->.
Qed.

Lemma replace_delete m s : m <> "" -> Str.replace m "" s = delete m s.
Proof. by destruct m. Qed.

Lemma replace_from_skip m k s :
  Str.replace_from m "" (S k) s = delete m (Str.drop (S k) s).
Proof.
  revert k. induction s as [|c s IH]; intros k; [done|].
  simpl. destruct k as [|k]; [by rewrite drop_0|]. apply IH.
Qed.

Lemma delete_occurrence m s :
  m <> "" -> delete m (m +:+ s) = delete m s.
Proof.
  intros Hm. destruct m as [|c m]; [done|].
  unfold delete. rewrite app_cons. cbn [Str.replace_from].
  rewrite <- app_cons, startswith_app. rewrite app_nil_l.
  change (String.length (String c m)) with (S (String.length m)).
  replace (S (String.length m) - 1)%nat with (String.length m) by lia.
  destruct (String.length m) eqn:Hl.
  - destruct m; [done|discriminate].
  - rewrite replace_from_skip, <- Hl. by rewrite drop_app_length.
Qed.

Lemma delete_other m c s :
  Str.startswith m (String c s) = false ->
  delete m (String c s) = String c (delete m s).
Proof. intros Hs. unfold delete. cbn [Str.replace_from]. by rewrite Hs. Qed.

Lemma delete_nil m : delete m "" = "".
Proof. reflexivity. Qed.

End Tokens.

(** ** Deleting the tokens of a text without nested brackets *)

Section Flat.

Lemma token_app inner with_nl s :
  token inner with_nl +:+ s
  = String "[" (inner +:+ "]" +:+ ((if with_nl then Str.nl else "") +:+ s)).
Proof.
  unfold token. rewrite (app_cons "[" _ s). by rewrite !app_assoc.
Qed.

Lemma token_nl inner : token inner true = token inner false +:+ Str.nl.
Proof.
  unfold token. rewrite (app_cons "[" _ Str.nl). by rewrite !app_assoc.
Qed.

Lemma token_not_nil inner with_nl : token inner with_nl <> "".
Proof. done. Qed.

Lemma token_startswith_other inner with_nl c s :
  c <> "["%char -> Str.startswith (token inner with_nl) (String c s) = false.
Proof.
  intros Hc. unfold token. cbn [Str.startswith].
  assert (Str.ascii_eqb "[" c = false) as ->; [|done].
  apply ascii_eqb_neq. congruence.
Qed.

Lemma has_char_cons_false c d s :
  has_char c (String d s) = false -> d <> c /\ has_char c s = false.
Proof.
  rewrite has_char_cons. intros Hf. apply orb_false_iff in Hf as [Hc Hs].
  split; [|done]. apply ascii_eqb_neq in Hc. congruence.
Qed.

(** Text without an opening bracket is passed over by both scans. *)
Lemma findall_plain_close u e s :
  has_char "[" u = false ->
  findall_from e 0 (u +:+ "]" +:+ s) = findall_from false 0 s.
Proof.
  revert e. induction u as [|c u IH]; intros e Hu.
  - rewrite app_nil_l, app_cons.
    rewrite findall_from_no_match; [done|]. right. by apply match_tag_at_other.
  - apply has_char_cons_false in Hu as [Hc Hu]. rewrite app_cons.
    rewrite findall_from_no_match; [by apply IH|].
    right. by apply match_tag_at_other.
Qed.

Lemma findall_nl e s :
  findall_from e 0 (Str.nl +:+ s) = findall_from false 0 s.
Proof.
  unfold Str.nl. rewrite app_cons, app_nil_l.
  rewrite findall_from_no_match; [done|]. right. by apply match_tag_at_other.
Qed.

Lemma delete_plain m u s :
  (forall c r, c <> "["%char -> Str.startswith m (String c r) = false) ->
  has_char "[" u = false ->
  delete m (u +:+ s) = u +:+ delete m s.
Proof.
  intros Hm. induction u as [|c u IH]; intros Hu; [done|].
  apply has_char_cons_false in Hu as [Hc Hu]. rewrite !app_cons.
  rewrite delete_other by (by apply Hm). by rewrite IH.
Qed.

Lemma has_char_delete c m s :
  has_char c s = false -> has_char c (delete m s) = false.
Proof.
  remember (String.length s) as n eqn:Hn. revert s Hn.
  induction n as [n IH] using lt_wf_ind. intros s -> Hs.
  destruct s as [|d s]; [done|].
  destruct (Str.startswith m (String d s)) eqn:Hm.
  - destruct (decide (m = "")) as [->|Hne].
    + unfold delete. cbn [Str.replace_from]. simpl.
      apply has_char_cons_false in Hs as [_ Hs].
      apply (IH (String.length s)); [simpl; lia|done|done].
    + apply startswith_spec in Hm as [r Hr]. rewrite Hr in Hs |- *.
      rewrite delete_occurrence by done.
      rewrite has_char_app in Hs. apply orb_false_iff in Hs as [_ Hs].
      apply (IH (String.length r)); [|done|done].
      rewrite Hr, length_app. destruct m; [done|simpl; lia].
  - rewrite delete_other by done.
    apply has_char_cons_false in Hs as [Hd Hs].
    rewrite has_char_cons.
    assert (Str.ascii_eqb c d = false) as ->
      by (apply ascii_eqb_neq; congruence).
    apply (IH (String.length s)); [simpl; lia|done|done].
Qed.

(** *** The name of a token *)

Lemma rstrip_close u (with_nl : bool) :
  Str.rstrip (u +:+ "]" +:+ (if with_nl then Str.nl else "")) = u +:+ "]".
Proof.
  induction u as [|c u IH]; [by destruct with_nl|].
  rewrite !(app_cons c). cbn [Str.rstrip]. rewrite IH.
  by destruct u.
Qed.

Lemma strip_token inner with_nl :
  Str.strip (token inner with_nl) = token inner false.
Proof.
  unfold Str.strip, token. cbn [Str.lstrip].
  change (Str.is_space "[") with false. cbv iota.
  rewrite <- (app_cons "[" inner), rstrip_close. reflexivity.
Qed.

Lemma tag_inner_token inner with_nl : tag_inner (token inner with_nl) = inner.
Proof.
  unfold tag_inner. rewrite strip_token.
  unfold Str.slice_1_m1, Str.drop_last, token. rewrite app_nil_r.
  change (String.length (String "[" (inner +:+ "]")))
    with (S (String.length (inner +:+ "]"))).
  replace (S (String.length (inner +:+ "]")) - 1)%nat
    with (S (String.length inner)) by (rewrite length_app; simpl; lia).
  cbn [Str.take Str.drop]. rewrite take_app_length. by destruct inner.
Qed.

Lemma flat_token_inner inner with_nl :
  flat_token (token inner with_nl) <-> has_char "[" inner = false.
Proof. unfold flat_token. by rewrite tag_inner_token. Qed.

(** *** A token and what follows it *)

Lemma token_inner_unique i1 r1 i2 r2 :
  has_char "]" i1 = false -> has_char "]" i2 = false ->
  i1 +:+ "]" +:+ r1 = i2 +:+ "]" +:+ r2 -> i1 = i2 /\ r1 = r2.
Proof.
  intros H1 H2 Heq.
  assert (until_close (i1 +:+ "]" +:+ r1) = Some i1) as Hu1
    by (apply until_close_spec; eauto).
  assert (until_close (i2 +:+ "]" +:+ r2) = Some i2) as Hu2
    by (apply until_close_spec; eauto).
  rewrite Heq, Hu2 in Hu1. injection Hu1 as ->. split; [done|].
  apply (inj (String.app i1)) in Heq. by injection Heq.
Qed.

Lemma startswith_nl_app (with_nl : bool) r :
  Str.startswith Str.nl ((if with_nl then Str.nl else "") +:+ r)
  = with_nl || Str.startswith Str.nl r.
Proof. by destruct with_nl. Qed.

Lemma match_tag_at_token inner with_nl r :
  inner <> "" -> has_char "]" inner = false ->
  match_tag_at (token inner with_nl +:+ r)
  = Some (token inner (with_nl || Str.startswith Str.nl r)).
Proof.
  intros Hne Hc. apply match_tag_at_spec.
  exists inner, ((if with_nl then Str.nl else "") +:+ r).
  split; [done|]. split; [done|]. split; [apply token_app|].
  by rewrite startswith_nl_app.
Qed.

Lemma startswith_nl_split r :
  Str.startswith Str.nl r = true -> exists r', r = Str.nl +:+ r'.
Proof. apply startswith_spec. Qed.

(** The scan takes an eligible token, with the line feed that follows it,
    and goes on with the rest. *)
Lemma findall_token_then inner with_nl r :
  inner <> "" -> has_char "]" inner = false ->
  findall_from false 0 (token inner with_nl +:+ r)
  = token inner (with_nl || Str.startswith Str.nl r)
    :: findall_from false 0 r.
Proof.
  intros Hne Hc.
  rewrite (findall_from_match _ _ (match_tag_at_token inner with_nl r Hne Hc)).
  f_equal. destruct with_nl; cbn [orb].
  - by rewrite drop_app_length.
  - destruct (Str.startswith Str.nl r) eqn:Hr.
    + apply startswith_nl_split in Hr as [r' ->].
      rewrite findall_nl, token_nl. rewrite <- app_assoc.
      by rewrite drop_app_length.
    + by rewrite drop_app_length.
Qed.

(** A token behind ESC is passed over, when its name has no opening
    bracket. *)
Lemma findall_token_blocked inner with_nl r :
  has_char "[" inner = false ->
  findall_from true 0 (token inner with_nl +:+ r) = findall_from false 0 r.
Proof.
  intros Hf. rewrite token_app.
  rewrite findall_from_no_match by (by left).
  change (Str.ascii_eqb "[" Str.ESC) with false.
  rewrite findall_plain_close by done.
  destruct with_nl; [apply findall_nl|done].
Qed.

Lemma delete_token_through mi mnl inner with_nl r :
  has_char "[" inner = false ->
  Str.startswith (token mi mnl) (token inner with_nl +:+ r) = false ->
  delete (token mi mnl) (token inner with_nl +:+ r)
  = token inner with_nl +:+ delete (token mi mnl) r.
Proof.
  intros Hf Hs. rewrite !token_app in *.
  rewrite delete_other by done. f_equal.
  rewrite <- !app_assoc.
  rewrite delete_plain; [done|by intros; apply token_startswith_other|].
  rewrite !has_char_app, Hf. by destruct with_nl.
Qed.

Lemma match_tag_at_split s y :
  match_tag_at s = Some y ->
  exists inner with_nl r,
    y = token inner with_nl /\ inner <> "" /\ has_char "]" inner = false
    /\ s = y +:+ r
    /\ (with_nl = false -> Str.startswith Str.nl r = false).
Proof.
  intros Hm. apply match_tag_at_spec in Hm as (inner & rest & Hne & Hc & -> & ->).
  destruct (Str.startswith Str.nl rest) eqn:Hr.
  - apply startswith_nl_split in Hr as [r' ->].
    exists inner, true, r'. repeat split; try done.
    by rewrite token_app.
  - exists inner, false, rest. repeat split; try done.
    by rewrite token_app.
Qed.

Lemma startswith_app_l m y r :
  Str.startswith m y = true -> Str.startswith m (y +:+ r) = true.
Proof.
  intros Hs. apply startswith_spec in Hs as [q ->].
  rewrite app_assoc. apply startswith_app.
Qed.

(** Where the pattern does not match, it does not match once
    occurrences of a token have been deleted from what follows. *)
Lemma match_tag_at_delete_none mi mnl c s :
  match_tag_at (String c s) = None ->
  match_tag_at (String c (delete (token mi mnl) s)) = None.
Proof.
  unfold match_tag_at.
  destruct (Str.ascii_eqb c "["); [|done].
  destruct (until_close s) as [body|] eqn:Hu.
  - destruct body as [|b body]; [|done]. intros _.
    apply until_close_spec in Hu as (_ & rest & ->).
    rewrite app_nil_l, (app_cons "]" "" rest), app_nil_l.
    rewrite delete_other by (by apply token_startswith_other).
    cbn [until_close]. by rewrite ascii_eqb_refl.
  - intros _. apply until_close_none in Hu.
    apply (has_char_delete _ (token mi mnl)) in Hu.
    apply until_close_none in Hu. by rewrite Hu.
Qed.

(** One pass of deletion: a token of the text that is left was a token of
    the text before, with the same name, which the deleted text does not
    start; it may have gained the line feed that follows it now. *)
Lemma delete_pass mi mnl :
  mi <> "" -> has_char "]" mi = false -> has_char "[" mi = false ->
  forall n s e e',
    String.length s = n ->
    (e = true -> e' = true) ->
    Forall flat_token (findall_from e 0 s) ->
    forall x,
      x ∈ findall_from e' 0 (delete (token mi mnl) s) ->
      exists i (a b : bool),
        token i a ∈ findall_from e 0 s
        /\ x = token i b /\ (a = true -> b = true)
        /\ i <> "" /\ has_char "]" i = false
        /\ Str.startswith (token mi mnl) (token i a) = false.
Proof.
  intros Hne Hc Hf. induction n as [n IH] using lt_wf_ind.
  intros s e e' Hn He Hflat x Hx.
  destruct s as [|c s'].
  { rewrite delete_nil in Hx. by apply elem_of_nil in Hx. }
  destruct (Str.startswith (token mi mnl) (String c s')) eqn:Hocc.
  - (* an occurrence of the deleted text starts here *)
    apply startswith_spec in Hocc as [s2 Hs]. rewrite Hs in *.
    rewrite delete_occurrence in Hx by apply token_not_nil.
    assert (String.length s2 < n)%nat as Hlt.
    { rewrite <- Hn, length_app. unfold token. simpl. lia. }
    destruct e.
    + rewrite findall_token_blocked in Hflat |- * by done.
      exact (IH _ Hlt s2 false e' eq_refl ltac:(done) Hflat x Hx).
    + rewrite findall_token_then in Hflat |- * by done.
      apply Forall_cons in Hflat as [_ Hflat].
      destruct (IH _ Hlt s2 false e' eq_refl ltac:(done) Hflat x Hx)
        as (i & a & b & Hy & Hrest).
      exists i, a, b. split; [by apply elem_of_cons; right|done].
  - destruct e.
    + (* behind ESC nothing is matched, before or after *)
      rewrite (He eq_refl) in Hx.
      rewrite delete_other in Hx by done.
      rewrite findall_from_no_match in Hx by (by left).
      rewrite findall_from_no_match in Hflat |- * by (by left).
      apply (IH (String.length s') ltac:(simpl in Hn; lia) s'
               (Str.ascii_eqb c Str.ESC) (Str.ascii_eqb c Str.ESC)
               eq_refl ltac:(done) Hflat x Hx).
    + destruct (match_tag_at (String c s')) as [y|] eqn:Hm.
      * (* a token starts here and stays *)
        apply match_tag_at_split in Hm
          as (yi & ynl & r & -> & Hyne & Hyc & Hs & Hnl).
        rewrite Hs in *.
        assert (String.length r < n)%nat as Hlt.
        { rewrite <- Hn, length_app. unfold token. simpl. lia. }
        rewrite findall_token_then in Hflat |- * by done.
        assert (ynl || Str.startswith Str.nl r = ynl) as Hb.
        { destruct ynl; [done|]. by rewrite Hnl. }
        rewrite Hb in *.
        apply Forall_cons in Hflat as [Hyf Hflat].
        apply flat_token_inner in Hyf.
        rewrite delete_token_through in Hx by done.
        assert (Str.startswith (token mi mnl) (token yi ynl) = false) as Hmy.
        { destruct (Str.startswith (token mi mnl) (token yi ynl)) eqn:Hq;
            [|done].
          by rewrite (startswith_app_l _ _ r Hq) in Hocc. }
        assert (x ∈ findall_from false 0 (delete (token mi mnl) r) ->
                exists i (a b : bool),
                  token i a ∈ token yi ynl :: findall_from false 0 r
                  /\ x = token i b /\ (a = true -> b = true)
                  /\ i <> "" /\ has_char "]" i = false
                  /\ Str.startswith (token mi mnl) (token i a) = false)
          as Htail.
        { intros Hx'.
          destruct (IH _ Hlt r false false eq_refl ltac:(done) Hflat x Hx')
            as (i & a & b & Hy & Hrest).
          exists i, a, b. split; [by apply elem_of_cons; right|done]. }
        destruct e'.
        -- rewrite findall_token_blocked in Hx by done. by apply Htail.
        -- rewrite findall_token_then in Hx by done.
           apply elem_of_cons in Hx as [->|Hx]; [|by apply Htail].
           exists yi, ynl,
             (ynl || Str.startswith Str.nl (delete (token mi mnl) r)).
           split; [by apply elem_of_cons; left|].
           split; [done|]. split; [by intros ->|done].
      * (* no token starts here, before or after *)
        rewrite delete_other in Hx by done.
        rewrite findall_from_no_match in Hflat |- * by (by right).
        rewrite findall_from_no_match in Hx
          by (right; by apply match_tag_at_delete_none).
        apply (IH (String.length s') ltac:(simpl in Hn; lia) s'
                 (Str.ascii_eqb c Str.ESC) (Str.ascii_eqb c Str.ESC)
                 eq_refl ltac:(done) Hflat x Hx).
Qed.

(** What the scan finds are tokens. *)
Lemma findall_from_tokens n :
  forall s e, String.length s = n -> Forall is_token (findall_from e 0 s).
Proof.
  induction n as [n IH] using lt_wf_ind. intros s e Hn.
  destruct s as [|c s']; [constructor|].
  destruct (match_tag_at (String c s')) as [y|] eqn:Hm.
  - destruct e.
    + rewrite findall_from_no_match by (by left).
      apply (IH (String.length s')); [simpl in Hn; lia|done].
    + rewrite (findall_from_match _ _ Hm).
      apply match_tag_at_split in Hm
        as (yi & ynl & r & -> & Hyne & Hyc & Hs & Hnl).
      constructor; [by exists yi, ynl|].
      rewrite Hs, drop_app_length.
      apply (IH (String.length r)); [|done].
      rewrite <- Hn, Hs, length_app. unfold token. simpl. lia.
  - rewrite findall_from_no_match by (by right).
    apply (IH (String.length s')); [simpl in Hn; lia|done].
Qed.

Lemma findall_tags_tokens text : Forall is_token (findall_tags text).
Proof. by apply (findall_from_tokens (String.length text)). Qed.

Lemma token_inj i a j c :
  has_char "]" i = false -> has_char "]" j = false ->
  token i a = token j c -> i = j /\ a = c.
Proof.
  intros Hi Hj Heq. unfold token in Heq. injection Heq as Heq.
  apply token_inner_unique in Heq as [-> Hr]; [|done|done].
  split; [done|]. by destruct a, c.
Qed.

Lemma token_nl_inj i a j c :
  has_char "]" i = false -> has_char "]" j = false ->
  token i a = token j c +:+ Str.nl -> i = j /\ a = true /\ c = false.
Proof.
  intros Hi Hj Heq. rewrite token_app in Heq. unfold token in Heq.
  injection Heq as Heq.
  apply token_inner_unique in Heq as [-> Hr]; [|done|done].
  split; [done|]. by destruct a, c.
Qed.

Lemma delete_tokens_cons m rem t :
  m <> "" -> delete_tokens (m :: rem) t = delete_tokens rem (delete m t).
Proof. intros Hm. unfold delete_tokens. simpl. by rewrite replace_delete. Qed.

(** When the tokens of a text have no bracket inside their names, deleting
    them, one after the other, leaves no token. *)
Lemma delete_tokens_clean rem :
  Forall is_token rem ->
  forall t,
    Forall flat_token (findall_tags t) ->
    (forall x, x ∈ findall_tags t ->
               exists m, m ∈ rem /\ (x = m \/ x = m +:+ Str.nl)) ->
    Forall flat_token rem ->
    findall_tags (delete_tokens rem t) = [].
Proof.
  induction 1 as [|m rem Hm Hrem IH]; intros t Hflat Hcov Hfrem.
  - unfold delete_tokens. simpl.
    destruct (findall_tags t) as [|x l]; [done|].
    destruct (Hcov x) as (m & Hin & _); [by left|]. by apply elem_of_nil in Hin.
  - destruct Hm as (mi & mnl & -> & Hmne & Hmc).
    apply Forall_cons in Hfrem as [Hmf Hfrem].
    apply flat_token_inner in Hmf.
    rewrite delete_tokens_cons by apply token_not_nil.
    assert (forall x, x ∈ findall_tags (delete (token mi mnl) t) ->
              exists i (a b : bool),
                token i a ∈ findall_tags t
                /\ x = token i b /\ (a = true -> b = true)
                /\ i <> "" /\ has_char "]" i = false
                /\ Str.startswith (token mi mnl) (token i a) = false)
      as Hpass.
    { intros x Hx.
      by apply (delete_pass mi mnl Hmne Hmc Hmf (String.length t) t
                  false false eq_refl). }
    apply IH; [| |done].
    + apply Forall_forall. intros x Hx.
      destruct (Hpass x Hx) as (i & a & b & Hy & -> & _ & _ & _ & _).
      rewrite Forall_forall in Hflat. apply Hflat in Hy.
      apply flat_token_inner in Hy. by apply flat_token_inner.
    + intros x Hx.
      destruct (Hpass x Hx) as (i & a & b & Hy & -> & Hab & Hine & Hic & Hmy).
      destruct (Hcov _ Hy) as (m0 & Hin & Hym).
      apply elem_of_cons in Hin as [->|Hin].
      { (* the deleted token would have taken it along *)
        exfalso. destruct Hym as [Hym|Hym]; rewrite Hym in Hmy.
        - rewrite <- (app_nil_r (token mi mnl)) in Hmy at 2.
          by rewrite startswith_app in Hmy.
        - by rewrite startswith_app in Hmy. }
      exists m0. split; [done|].
      rewrite Forall_forall in Hrem.
      destruct (Hrem m0 Hin) as (j & c & -> & Hjne & Hjc).
      destruct Hym as [Hym|Hym].
      * apply token_inj in Hym as [-> ->]; [|done|done].
        destruct c, b; auto.
        -- by specialize (Hab eq_refl).
        -- right. apply token_nl.
      * apply token_nl_inj in Hym as (-> & -> & ->); [|done|done].
        rewrite (Hab eq_refl). right. apply token_nl.
Qed.

End Flat.

(** ** The events *)

Section Events.

Lemma scan_step_event st m :
  scan_step st m
  = (try! '(successes, opened) :=
       spec_step (sc_matches st, sc_open_tags st)
                 (scanned_event (tag_inner m)) in
     Ok (ScanState successes opened (Str.replace m "" (sc_text st)))).
Proof.
  unfold scan_step, scanned_event, tag_inner, Str.contains, Str.index.
  destruct (Str.find " - failed" _) as [i|]; simpl.
  - by destruct (list_remove _ _).
  - destruct (Str.find " - succeeded" _) as [i|]; simpl; [|done].
    by destruct (list_remove _ _).
Qed.

(** *** Markers at the end of a name *)

Lemma startswith_app_cases p a b :
  Str.startswith p (a +:+ b) = true ->
  Str.startswith p a = true
  \/ ((String.length a < String.length p)%nat
      /\ Str.startswith (Str.drop (String.length a) p) b = true).
Proof.
  revert a. induction p as [|x p IH]; intros a Hs; [by left|].
  destruct a as [|c a].
  - right. split; [simpl; lia|]. done.
  - rewrite app_cons in Hs. cbn [Str.startswith] in Hs |- *.
    apply andb_true_iff in Hs as [Hx Hs]. rewrite Hx.
    destruct (IH a Hs) as [Hl|[Hlt Hr]]; [by left|].
    right. split; [simpl; lia|done].
Qed.

Lemma no_straddle_spec p b k :
  no_straddle p b = true -> (0 < k < String.length p)%nat ->
  Str.startswith (Str.drop k p) b = false.
Proof.
  unfold no_straddle. rewrite forallb_forall. intros Hall Hk.
  apply negb_true_iff, Hall, in_seq. lia.
Qed.

Lemma contains_cons_false p c a :
  Str.contains p (String c a) = false ->
  Str.startswith p (String c a) = false /\ Str.contains p a = false.
Proof.
  rewrite !contains_false_spec. intros Hno. split; [apply (Hno O)|].
  intros j. apply (Hno (S j)).
Qed.

Lemma find_app_no_straddle p a b :
  Str.contains p a = false -> no_straddle p b = true ->
  Str.find p (a +:+ b)
  = option_map (fun i => (String.length a + i)%nat) (Str.find p b).
Proof.
  intros Ha Hb. induction a as [|c a IH].
  - rewrite app_nil_l. by destruct (Str.find p b).
  - apply contains_cons_false in Ha as [Hs Ha].
    rewrite app_cons. cbn [Str.find]. rewrite <- app_cons.
    destruct (Str.startswith p (String c a +:+ b)) eqn:Hq.
    + exfalso. apply startswith_app_cases in Hq as [Hq|[Hlt Hq]].
      * by rewrite Hq in Hs.
      * rewrite (no_straddle_spec p b _ Hb) in Hq; [done|]. simpl in *. lia.
    + rewrite IH by done. by destruct (Str.find p b).
Qed.

Lemma endswith_spec p s :
  Str.endswith p s = true -> s = Str.drop_last (String.length p) s +:+ p.
Proof.
  unfold Str.endswith, Str.drop_last. intros He.
  apply andb_true_iff in He as [_ He]. apply String.eqb_eq in He.
  rewrite <- He at 2. by rewrite take_drop.
Qed.

Lemma find_none_contains p s :
  Str.contains p s = false -> Str.find p s = None.
Proof. unfold Str.contains. by destruct (Str.find p s). Qed.

(** On a name that carries the markers as a suffix at most, the scanner
    reads the event that the specification reads. *)
Lemma scanned_event_plain inner :
  (let n := event_name (spec_event inner) in
   Str.contains " - failed" n = false /\ Str.contains " - succeeded" n = false) ->
  scanned_event inner = spec_event inner.
Proof.
  unfold spec_event, scanned_event.
  destruct (Str.endswith " - succeeded" inner) eqn:Hs.
  - apply endswith_spec in Hs. cbn [event_name]. intros [Hf Hsu].
    remember (Str.drop_last (String.length " - succeeded") inner) as n eqn:Hn.
    clear Hn. subst inner.
    rewrite (find_app_no_straddle " - failed" n " - succeeded" Hf eq_refl).
    rewrite (find_app_no_straddle " - succeeded" n " - succeeded" Hsu eq_refl).
    simpl. by rewrite Nat.add_0_r, take_app_length.
  - destruct (Str.endswith " - failed" inner) eqn:Hfl.
    + apply endswith_spec in Hfl. cbn [event_name]. intros [Hf Hsu].
      remember (Str.drop_last (String.length " - failed") inner) as n eqn:Hn.
      clear Hn Hs. subst inner.
      rewrite (find_app_no_straddle " - failed" n " - failed" Hf eq_refl).
      simpl. by rewrite Nat.add_0_r, take_app_length.
    + cbn [event_name]. intros [Hf Hsu].
      by rewrite (find_none_contains _ _ Hf), (find_none_contains _ _ Hsu).
Qed.

(** *** The loop *)

Lemma scan_loop_text st ms st' :
  scan_loop st ms = Ok st' -> sc_text st' = delete_tokens ms (sc_text st).
Proof.
  revert st. induction ms as [|m ms IH]; intros st; simpl.
  - intros Heq. by injection Heq as <-.
  - rewrite scan_step_event.
    destruct (spec_step _ _) as [[su op]|e]; simpl; [|done].
    intros Hl. by rewrite (IH _ Hl).
Qed.

Lemma scan_loop_spec st ms :
  Forall plain_token ms ->
  scan_loop st ms
  = (try! '(successes, opened) :=
       spec_scan (sc_matches st, sc_open_tags st)
                 (map (fun m => spec_event (tag_inner m)) ms) in
     Ok (ScanState successes opened (delete_tokens ms (sc_text st)))).
Proof.
  intros Hplain. revert st.
  induction Hplain as [|m ms Hm Hms IH]; intros st.
  - by destruct st.
  - cbn [scan_loop map spec_scan].
    rewrite scan_step_event, (scanned_event_plain _ Hm).
    destruct (spec_step _ _) as [[su op]|e]; cbn [rbind]; [|done].
    by rewrite IH.
Qed.

Lemma list_remove_absent x l : x ∉ l -> list_remove x l = Raise ValueError.
Proof.
  induction l as [|y l IH]; intros Hx; simpl; [done|].
  apply not_elem_of_cons in Hx as [Hne Hx].
  destruct (String.eqb_spec y x) as [->|_]; [done|].
  by rewrite IH.
Qed.

Lemma list_remove_present x l :
  x ∈ l -> exists l', list_remove x l = Ok l' /\ l ≡ₚ x :: l'.
Proof.
  induction l as [|y l IH]; intros Hx; [by apply elem_of_nil in Hx|].
  simpl. destruct (String.eqb_spec y x) as [->|Hne]; [by exists l|].
  apply elem_of_cons in Hx as [->|Hx]; [done|].
  destruct (IH Hx) as (l' & -> & Hp). exists (y :: l'). split; [done|].
  by rewrite Hp, Permutation_swap.
Qed.

Lemma detect_ok_inv text ms t :
  _detect_i7_events_debug_tags text = Ok (ms, t) ->
  exists st,
    scan_tags text = Ok st
    /\ ms = List.filter not_subrule (sc_matches st)
    /\ t = sc_text st
    /\ (ms = [] \/ sc_open_tags st = []).
Proof.
  unfold _detect_i7_events_debug_tags.
  destruct (scan_tags text) as [st|e]; simpl; [|done].
  destruct (List.filter not_subrule (sc_matches st)) as [|x l] eqn:Hf; simpl.
  - intros [= <- <-]. exists st. auto.
  - destruct (sc_open_tags st) eqn:Ho; [|done].
    intros [= <- <-]. exists st. rewrite Hf. auto.
Qed.

(** C2, as amended: when the scan has recorded a success that is no
    sub-rule (its name has no parenthesis) and leaves an event open, the
    scanner raises [AssertionError]; successes of sub-rules alone do not
    count. A closing token whose name is not open makes the scan raise
    [ValueError], as on the text of the scenario. An error of the scan is
    the error of the scanner, and a result is returned only with no
    success to report or with no event left open. *)
Theorem unbalanced_scan_raises text :
  (forall st,
     scan_tags text = Ok st ->
     List.filter not_subrule (sc_matches st) <> [] ->
     sc_open_tags st <> [] ->
     _detect_i7_events_debug_tags text = Raise AssertionError)
  /\ (forall e,
        scan_tags text = Raise e ->
        _detect_i7_events_debug_tags text = Raise e)
  /\ (forall ms t,
        _detect_i7_events_debug_tags text = Ok (ms, t) ->
        exists st,
          scan_tags text = Ok st /\ (ms = [] \/ sc_open_tags st = []))
  /\ (forall st m n,
        scanned_event (tag_inner m) = Succeeds n
        \/ scanned_event (tag_inner m) = Fails n ->
        n ∉ sc_open_tags st ->
        scan_step st m = Raise ValueError)
  /\ _detect_i7_events_debug_tags "[foo - succeeded]" = Raise ValueError.
Proof.
  split; [|split; [|split; [|split]]].
  - intros st Hs Hm Ho. unfold _detect_i7_events_debug_tags.
    rewrite Hs. simpl.
    destruct (List.filter not_subrule (sc_matches st)); [done|]. simpl.
    by destruct (sc_open_tags st).
  - intros e Hs. unfold _detect_i7_events_debug_tags. by rewrite Hs.
  - intros ms t Hd. apply detect_ok_inv in Hd as (st & Hs & _ & _ & Hb).
    eauto.
  - intros st m n Hev Hn. rewrite scan_step_event.
    destruct Hev as [-> | ->]; simpl; by rewrite (list_remove_absent _ _ Hn).
  - reflexivity.
Qed.

(** C3, as amended: when the tokens of the text carry the markers
    [" - succeeded"] and [" - failed"] as a suffix at most, the scan is the
    one the specification words, over the tokens in the order of the text:
    a token with a suffix takes an open event of its name away, a failed
    one is dropped, a succeeded one is appended to the successes, a token
    without suffix is pushed; the successes returned are those whose name
    has no parenthesis, the others having acted on the open events all the
    same; the text returned is the text from which, token after token,
    every occurrence of the text of the token has been deleted, and no
    token is left in it when no name of a token contains an opening
    bracket. *)
Theorem event_scan_correct text :
  Forall plain_token (findall_tags text) ->
  scan_tags text = spec_scan_tags text
  /\ (forall ms t,
        _detect_i7_events_debug_tags text = Ok (ms, t) ->
        exists st,
          spec_scan_tags text = Ok st
          /\ ms = List.filter not_subrule (sc_matches st)
          /\ t = delete_tokens (findall_tags text) text
          /\ (Forall flat_token (findall_tags text) -> findall_tags t = [])).
Proof.
  intros Hplain.
  assert (scan_tags text = spec_scan_tags text) as Hscan.
  { unfold scan_tags, spec_scan_tags. by rewrite scan_loop_spec. }
  split; [exact Hscan|].
  intros ms t Hd. apply detect_ok_inv in Hd as (st & Hs & -> & -> & _).
  exists st. split; [by rewrite <- Hscan|]. split; [done|].
  pose proof (scan_loop_text _ _ _ Hs) as Ht. simpl in Ht.
  split; [exact Ht|]. intros Hflat. rewrite Ht.
  apply delete_tokens_clean; [apply findall_tags_tokens|done| |done].
  intros x Hx. exists x. auto.
Qed.

Lemma plain_tokens_test l :
  forallb plain_tokenb l = true -> Forall plain_token l.
Proof.
  rewrite forallb_forall, Forall_forall. intros Hall m Hm.
  apply list_elem_of_In, Hall in Hm. unfold plain_tokenb in Hm.
  apply andb_true_iff in Hm as [Hf Hs].
  apply negb_true_iff in Hf, Hs. by split.
Qed.

Lemma flat_tokens_test l :
  forallb flat_tokenb l = true -> Forall flat_token l.
Proof.
  rewrite forallb_forall, Forall_forall. intros Hall m Hm.
  apply list_elem_of_In, Hall in Hm. by apply negb_true_iff in Hm.
Qed.

End Events.

(* ===================================================================== *)
(** * The theorems at work on the small game *)
(* ===================================================================== *)

Section Witnesses.
Import Toy Scenario ScenarioTexts MoreScenarios.

Lemma started_init g tracking ci :
  init intro g tracking ci ([], GlulxGameState_new)
  = (Ok tt, started g tracking ci).
Proof. by destruct tracking, ci. Qed.

(** *** The intermediate reward *)

Lemma intermediate_reward_correct_witness :
  (exists s',
     intermediate_reward (store_after_door true true) (second true true)
     = (Ok 1, s')
     /\ reward_spec s' = Some 1
     /\ reward_of_properties (store_after_door true true) (second true true) 1)
  /\ (exists s',
        intermediate_reward (store_after_death true true) (dead true true)
        = (Ok (-1), s')
        /\ reward_of_properties (store_after_death true true)
             (dead true true) (-1)).
Proof.
  split.
  - destruct (intermediate_reward_correct (store_after_door true true)
                (second true true)) as (_ & Hval & _ & Htracker).
    destruct (Htracker 0%nat (ToyProgression ["go north"] 1 false) game1)
      as (s' & Hrun); try reflexivity.
    { intros p [= <-]. by eexists. }
    assert (tracker_reward game1 (ToyProgression ["go north"] 1 false)
              match previous_state (second true true) with
              | Some p => _policy_commands p
              | None => None
              end = 1) as Hone by (vm_compute; reflexivity).
    rewrite Hone in Hrun.
    destruct (Hval 1 s' Hrun) as (_ & Hspec & _ & Hprops).
    exists s'. split; [exact Hrun|]. split; [exact Hspec|exact Hprops].
  - destruct (intermediate_reward_correct (store_after_death true true)
                (dead true true)) as (_ & Hval & _ & Htracker).
    destruct (Htracker 0%nat
                (ToyProgression ["open door"; "go north"] 0 true) game1)
      as (s' & Hrun); try reflexivity.
    { intros p [= <-]. by eexists. }
    assert (tracker_reward game1
              (ToyProgression ["open door"; "go north"] 0 true)
              match previous_state (dead true true) with
              | Some p => _policy_commands p
              | None => None
              end = -1) as Hlost by (vm_compute; reflexivity).
    rewrite Hlost in Hrun.
    destruct (Hval (-1) s' Hrun) as (_ & _ & _ & Hprops).
    exists s'. split; [exact Hrun|exact Hprops].
Defined.

(** *** The flag returned by [step] *)



(** *** The admissible commands *)

Lemma admissible_commands_correct_witness :
  let w := started game1 true false in
  exists s',
    admissible_commands (fst w) (snd w)
    = (Ok ["die"; "go north"; "inventory"; "look"; "open door"; "wander"], s').
Proof.
  intros w.
  destruct (admissible_commands_correct (fst w) (snd w)) as (Hfirst & _ & _).
  destruct (Hfirst eq_refl eq_refl 0%nat
              (ToyProgression ["open door"; "go north"] 0 false) game1
              eq_refl eq_refl eq_refl) as (Hrun & _).
  eexists. rewrite Hrun. f_equal.
Defined.

(** *** The score *)

Lemma score_correct_witness :
  let s := second false false in
  let sigma := store_after_door false false in
  score sigma s = (Raise (ExtraInfosIsMissingError "score"), s)
  /\ score [] looked = (Ok 12, set_score (Some 12) looked)
  /\ score [] separated = (Raise ValueError, separated).
Proof.
  intros s sigma.
  destruct (score_correct sigma s) as (_ & _ & Hfact).
  split; [exact (Hfact eq_refl eq_refl ∅ eq_refl)|].
  destruct (@score_correct logic [] looked) as (_ & _ & Hlooked).
  destruct (@score_correct logic [] separated) as (_ & _ & Hseparated).
  split.
  - exact (Hlooked eq_refl eq_refl
             {[ "description" := "A small room." +:+ Str.nl;
                "score" := "12" +:+ Str.nl ]} eq_refl).
  - exact (Hseparated eq_refl eq_refl
             {[ "score" := String (ascii_of_nat 28) "7" +:+ Str.nl ]} eq_refl).
Defined.

Lemma score_initial_counterexample :
  let w := started game1 false false in
  _state_tracking (snd w) = false
  /\ (exists infos,
        _extra_infos (snd w) = Some infos /\ infos !! "score" = None)
  /\ score (fst w) (snd w) = (Ok 0, snd w).
Proof. intros w. split; [done|]. split; [by exists ∅|]. done. Qed.

Lemma initial_score_is_zero_witness :
  let s := snd (started game1 false false) in
  _score s = Some 0 /\ score [] s = (Ok 0, s).
Proof.
  intros s.
  destruct (@initial_score_is_zero logic intro game1 false false []
              GlulxGameState_new _ _ (started_init game1 false false))
    as [Hcell Hread].
  split; [exact Hcell|apply Hread].
Defined.

(** *** Games without quests *)

Lemma no_quests_no_reward_witness :
  let w := started game0 false true in
  _compute_intermediate_reward (snd w) = false
  /\ intermediate_reward (fst w) (snd w)
     = (Raise (OraclePolicyIsRequiredError "intermediate_reward"), snd w)
  /\ policy_commands (fst w) (snd w)
     = (Raise (OraclePolicyIsRequiredError "policy_commands"), snd w).
Proof.
  intros w.
  destruct (@no_quests_no_reward logic intro game0 false true []
              GlulxGameState_new
              (fst w) (snd w) eq_refl eq_refl (started_init game0 false true))
    as (Hci & Hir & Hpc & _).
  split; [exact Hci|]. split; [apply Hir|apply Hpc].
Defined.

(** *** A process that has exited *)

Lemma step_not_running_witness :
  Env.step "look" env_exited = (Raise GameNotRunningError, env_exited)
  /\ @Env._send logic Echo.transport "" echo_running
     = (Ok (Some (" " +:+ prompt)),
        @Env.set_process logic Echo.transport (Some [" "]) echo_running).
Proof.
  destruct (step_not_running "look" env_exited) as (Hdead & _).
  split; [apply Hdead; reflexivity|].
  destruct (@step_not_running logic Echo.transport "" echo_running)
    as (_ & _ & _ & _ & _ & _ & _ & _ & Hempty).
  exact (Hempty [] [] eq_refl eq_refl).
Defined.

Lemma step_answer_then_exit_counterexample :
  match Env.step "go north" env_about_to_win with
  | (Ok (gs, _, _), e') =>
      Env.game_state e' = Some gs /\ has_timeout gs = true
      /\ fst (Env.game_running e') = Ok false
      /\ fst (Env.step "look" e') = Raise GameNotRunningError
  | (Raise _, _) => False
  end.
Proof. vm_compute. by repeat split. Qed.

(** *** The scanner *)

Lemma unbalanced_scan_raises_witness :
  _detect_i7_events_debug_tags unbalanced_trace = Raise AssertionError.
Proof.
  destruct (unbalanced_scan_raises unbalanced_trace) as (Hassert & _).
  apply (Hassert (ScanState ["b"] ["a"] ""));
    [vm_compute; reflexivity|discriminate|discriminate].
Defined.

Lemma subrule_success_counterexample :
  exists st,
    scan_tags subrule_trace = Ok st
    /\ sc_matches st <> [] /\ sc_open_tags st <> []
    /\ _detect_i7_events_debug_tags subrule_trace = Ok ([], "").
Proof.
  exists (ScanState ["b (x)"] ["a"] "").
  split; [vm_compute; reflexivity|]. split; [done|]. split; [done|].
  vm_compute. reflexivity.
Qed.

Lemma event_scan_correct_witness :
  _detect_i7_events_debug_tags door_trace
  = Ok (["open door"], "You open the door." +:+ Str.nl)
  /\ findall_tags ("You open the door." +:+ Str.nl) = [].
Proof.
  assert (Forall plain_token (findall_tags door_trace)) as Hplain
    by (apply plain_tokens_test; vm_compute; reflexivity).
  assert (Forall flat_token (findall_tags door_trace)) as Hflat
    by (apply flat_tokens_test; vm_compute; reflexivity).
  assert (_detect_i7_events_debug_tags door_trace
          = Ok (["open door"], "You open the door." +:+ Str.nl)) as Hrun
    by (vm_compute; reflexivity).
  destruct (event_scan_correct door_trace Hplain) as (_ & Hret).
  destruct (Hret _ _ Hrun) as (st & _ & _ & _ & Hclean).
  split; [exact Hrun|]. by apply Hclean.
Defined.

Lemma nested_token_counterexample :
  _detect_i7_events_debug_tags nested_trace = Ok ([], "[bc]")
  /\ findall_tags "[bc]" = ["[bc]"].
Proof. split; vm_compute; reflexivity. Qed.

(** *** The score block *)

Lemma score_block_extracted_witness :
  _detect_extra_infos described_score
  = Ok ({[ "description" := "A small room." +:+ Str.nl;
           "score" := "7" +:+ Str.nl ]}, "You see a room.").
Proof.
  destruct (score_block_extracted "" ("7" +:+ Str.nl) "You see a room.")
    as [Hgeneral _].
  rewrite (Hgeneral described_score) by (vm_compute; reflexivity).
  vm_compute. reflexivity.
Defined.

Lemma nested_score_counterexample :
  Str.contains ("<score>" +:+ Str.nl +:+ "7" +:+ Str.nl +:+ "</score>")
    nested_score = true
  /\ exists facts,
       _detect_extra_infos nested_score = Ok (facts, "")
       /\ facts !! "score" = None.
Proof.
  split; [vm_compute; reflexivity|].
  exists {[ "description" :=
              "<score>" +:+ Str.nl +:+ "7" +:+ Str.nl +:+ "</score>" ]}.
  split; vm_compute; reflexivity.
Qed.

End Witnesses.
(* ===================================================================== *)
(** * Further properties of the text functions *)
(* ===================================================================== *)

Section Prompt.

Lemma endswith_app p t : Str.endswith p (t +:+ p) = true.
Proof.
  unfold Str.endswith. rewrite length_app.
  apply andb_true_iff. split; [apply Nat.leb_le; lia|].
  replace (String.length t + String.length p - String.length p)%nat
    with (String.length t) by lia.
  rewrite drop_app_length. apply String.eqb_refl.
Qed.

Lemma drop_last_app p t : Str.drop_last (String.length p) (t +:+ p) = t.
Proof.
  unfold Str.drop_last. rewrite length_app.
  replace (String.length t + String.length p - String.length p)%nat
    with (String.length t) by lia.
  apply take_app_length.
Qed.

(** X1: [_strip_input_prompt_symbol] takes one prompt, a line feed and the
    sign [>], off the end of a text that ends with it, and returns any
    other text as it is. *)
Theorem strip_input_prompt_symbol_spec text :
  _strip_input_prompt_symbol (text +:+ prompt) = text
  /\ ((forall t, text <> t +:+ prompt) ->
      _strip_input_prompt_symbol text = text).
Proof.
  split.
  - unfold _strip_input_prompt_symbol. fold prompt.
    rewrite endswith_app. apply (drop_last_app prompt).
  - intros Hno. unfold _strip_input_prompt_symbol. fold prompt.
    destruct (Str.endswith prompt text) eqn:He; [|done].
    apply endswith_spec in He. by destruct (Hno _ He).
Qed.

Lemma strip_input_prompt_symbol_spec_witness :
  _strip_input_prompt_symbol ("Welcome" +:+ prompt +:+ prompt)
  = "Welcome" +:+ prompt
  /\ _strip_input_prompt_symbol "Welcome>" = "Welcome>".
Proof.
  split.
  - apply (strip_input_prompt_symbol_spec ("Welcome" +:+ prompt)).
  - apply (strip_input_prompt_symbol_spec "Welcome>").
    intros t Heq.
    assert (Str.endswith prompt "Welcome>" = true) as He
      by (rewrite Heq; apply endswith_app).
    vm_compute in He. discriminate.
Defined.

End Prompt.

Section Escaped.

Lemma findall_escaped e s :
  brackets_escaped e s = true -> findall_from e 0 s = [].
Proof.
  revert e. induction s as [|c s IH]; intros e Hesc; [done|].
  cbn [brackets_escaped] in Hesc.
  apply andb_true_iff in Hesc as [Hc Hrest].
  rewrite findall_from_no_match; [by apply IH|].
  destruct e; [by left|right].
  rewrite orb_false_r in Hc. apply negb_true_iff in Hc.
  apply match_tag_at_other. intros ->. by vm_compute in Hc.
Qed.

(** X2: a text in which every opening bracket follows an ESC character,
    such as a text whose only brackets belong to colour sequences, holds
    no event tag: the scanner reports no event and returns the text as it
    is, and so does [_strip_i7_event_debug_tags]. *)
Theorem escaped_brackets_untouched text :
  brackets_escaped false text = true ->
  _detect_i7_events_debug_tags text = Ok ([], text)
  /\ _strip_i7_event_debug_tags text = Ok text.
Proof.
  intros Hesc.
  assert (_detect_i7_events_debug_tags text = Ok ([], text)) as Hd.
  { unfold _detect_i7_events_debug_tags, scan_tags, findall_tags.
    by rewrite (findall_escaped _ _ Hesc). }
  split; [exact Hd|].
  unfold _strip_i7_event_debug_tags. by rewrite Hd.
Qed.

Lemma escaped_brackets_untouched_witness :
  let text := "A " +:+ Env.csi +:+ "31mred" +:+ Env.csi +:+ "0m door." in
  _detect_i7_events_debug_tags text = Ok ([], text)
  /\ _strip_i7_event_debug_tags text = Ok text.
Proof.
  apply escaped_brackets_untouched. vm_compute. reflexivity.
Defined.

End Escaped.
(** ** The side-channel blocks *)

Section MoreBlocks.

(** Taking a block away joins two texts that hold no block together. *)
Lemma re_search_block_removed tag text pre inner post :
  re_search_block tag text = Some (pre, inner, post) ->
  re_search_block tag (pre +:+ post) = None.
Proof.
  intros Hs. apply re_search_block_Some_inv in Hs as (Ht & Hf & Hpost).
  destruct (find_Some_spec _ _ _ Hf) as (_ & _ & Hfirst).
  unfold re_search_block. rewrite split_first_find.
  destruct (Str.find (open_tag tag) (pre +:+ post)) as [j|] eqn:Hj; [|done].
  destruct (find_Some_spec _ _ _ Hj) as (Hsj & Hlej & _).
  destruct (decide (j + String.length (open_tag tag) <= String.length pre)%nat)
    as [Hin|Hout].
  - (* the opening tag would lie before the block *)
    exfalso.
    assert (j < String.length pre)%nat as Hlt
      by (unfold open_tag in Hin; rewrite !length_app in Hin; simpl in Hin; lia).
    specialize (Hfirst j Hlt).
    rewrite drop_app_le in Hsj by lia.
    apply startswith_app_cases in Hsj as [Hsj|[Hshort _]].
    + rewrite Ht, drop_app_le, (startswith_app_l _ _ _ Hsj) in Hfirst by lia.
      done.
    + rewrite length_drop in Hshort. lia.
  - rewrite drop_app_ge by lia.
    rewrite split_last_none; [done|].
    apply contains_false_spec. by apply contains_drop.
Qed.

Lemma re_sub_block_clean tag text :
  re_search_block tag (re_sub_block tag text) = None.
Proof.
  destruct (re_search_block tag text) as [[[pre inner] post]|] eqn:Hs.
  - rewrite (re_sub_block_found _ _ _ _ _ Hs).
    by apply re_search_block_removed in Hs.
  - by rewrite re_sub_block_none.
Qed.

(** One round of the loop that has returned. *)
Lemma extra_infos_step_ok_inv facts text tag facts' text' :
  extra_infos_step (facts, text) tag = Ok (facts', text') ->
  text' = re_sub_block tag text
  /\ match re_search_block tag text with
     | None => facts' = facts
     | Some (_, inner, _) =>
         exists evs cleaned,
           _detect_i7_events_debug_tags inner = Ok (evs, cleaned)
           /\ facts' = <[tag := cleaned]> facts
     end.
Proof.
  unfold extra_infos_step.
  destruct (re_search_block tag text) as [[[pre inner] post]|] eqn:Hs.
  - destruct (_detect_i7_events_debug_tags inner) as [[evs cleaned]|e]; [|done].
    simpl. intros [= <- <-]. eauto.
  - intros [= <- <-]. by rewrite re_sub_block_none.
Qed.

Lemma detect_extra_infos_ok_inv text facts t :
  _detect_extra_infos text = Ok (facts, t) ->
  exists f1 t1 f2 t2,
    extra_infos_step (∅, text) "description" = Ok (f1, t1)
    /\ extra_infos_step (f1, t1) "inventory" = Ok (f2, t2)
    /\ extra_infos_step (f2, t2) "score" = Ok (facts, t).
Proof.
  unfold _detect_extra_infos, extra_info_tags. cbn [extra_infos_loop].
  intros Hrun.
  destruct (extra_infos_step (∅, text) "description") as [[f1 t1]|e] eqn:H1;
    [|done].
  cbn [rbind] in Hrun.
  destruct (extra_infos_step (f1, t1) "inventory") as [[f2 t2]|e] eqn:H2;
    [|done].
  cbn [rbind] in Hrun.
  destruct (extra_infos_step (f2, t2) "score") as [[f3 t3]|e] eqn:H3; [|done].
  cbn [rbind] in Hrun. injection Hrun as <- <-.
  by exists f1, t1, f2, t2.
Qed.

(** A round of the loop on a text without block of the tag. *)
Lemma extra_infos_step_no_block facts text tag :
  Str.contains (open_tag tag) text = false
  \/ Str.contains (close_tag tag) text = false ->
  extra_infos_step (facts, text) tag = Ok (facts, text).
Proof.
  intros [Ho|Hc]; unfold extra_infos_step.
  - by rewrite (re_search_block_none_open _ _ Ho).
  - by rewrite (re_search_block_none_close _ _ Hc).
Qed.

(** X3: a text in which, for each of the three tags, the opening tag or
    the closing tag does not occur holds no block: [_detect_extra_infos]
    returns no fact and the text as it is; a block that is not closed is
    left in the text. *)
Theorem no_block_no_extra_infos text :
  (forall tag, tag ∈ extra_info_tags ->
     Str.contains (open_tag tag) text = false
     \/ Str.contains (close_tag tag) text = false) ->
  _detect_extra_infos text = Ok (∅, text).
Proof.
  intros Hno.
  unfold _detect_extra_infos, extra_info_tags in *. cbn [extra_infos_loop].
  rewrite extra_infos_step_no_block by (apply Hno; set_solver). cbn [rbind].
  rewrite extra_infos_step_no_block by (apply Hno; set_solver). cbn [rbind].
  rewrite extra_infos_step_no_block by (apply Hno; set_solver). done.
Qed.

Lemma no_block_no_extra_infos_witness :
  let text :=
    "You see a door." +:+ Str.nl +:+ "<score>" +:+ Str.nl +:+ "3" in
  _detect_extra_infos text = Ok (∅, text).
Proof.
  apply no_block_no_extra_infos. intros tag Htag.
  unfold extra_info_tags in Htag.
  apply elem_of_cons in Htag as [->|Htag]; [by left|].
  apply elem_of_cons in Htag as [->|Htag]; [by left|].
  apply list_elem_of_singleton in Htag as ->. by right.
Defined.

(** What one round of the loop does to the facts. *)
Lemma extra_infos_step_facts facts text tag facts' text' :
  extra_infos_step (facts, text) tag = Ok (facts', text') ->
  dom facts' ⊆ {[ tag ]} ∪ dom facts
  /\ (forall k, k <> tag -> facts' !! k = facts !! k)
  /\ (is_Some (facts' !! tag) <->
      is_Some (re_search_block tag text) \/ is_Some (facts !! tag)).
Proof.
  intros Hstep. apply extra_infos_step_ok_inv in Hstep as [_ Hstep].
  destruct (re_search_block tag text) as [[[pre inner] post]|].
  - destruct Hstep as (evs & cleaned & Hclean & ->).
    rewrite dom_insert_L, lookup_insert_eq. split; [done|].
    split; [intros k Hk; by rewrite lookup_insert_ne|].
    split; eauto.
  - subst facts'. split; [set_solver|]. split; [done|].
    split; [auto|]. intros [[x Hx]|Hf]; [done|exact Hf].
Qed.

(** X4: the facts that [_detect_extra_infos] returns are facts of the three
    tags; there is a description fact exactly when the text has a
    description block, and the text returned holds no score block any
    more. *)
Theorem detect_extra_infos_facts text facts t :
  _detect_extra_infos text = Ok (facts, t) ->
  dom facts ⊆ {[ "description"; "inventory"; "score" ]}
  /\ (is_Some (facts !! "description") <-> has_block "description" text)
  /\ ~ has_block "score" t.
Proof.
  intros Hd.
  apply detect_extra_infos_ok_inv in Hd as (f1 & t1 & f2 & t2 & H1 & H2 & H3).
  pose proof (extra_infos_step_ok_inv _ _ _ _ _ H3) as [-> _].
  apply extra_infos_step_facts in H1 as (Hd1 & _ & Hk1).
  apply extra_infos_step_facts in H2 as (Hd2 & Hn2 & _).
  apply extra_infos_step_facts in H3 as (Hd3 & Hn3 & _).
  unfold has_block. split; [|split].
  - intros k Hk. apply Hd3, elem_of_union in Hk as [Hk|Hk].
    { apply elem_of_union_r, Hk. }
    apply Hd2, elem_of_union in Hk as [Hk|Hk].
    { apply elem_of_union_l, elem_of_union_r, Hk. }
    apply Hd1 in Hk. rewrite dom_empty_L in Hk.
    apply elem_of_union in Hk as [Hk|Hk]; [|by apply elem_of_empty in Hk].
    apply elem_of_union_l, elem_of_union_l, Hk.
  - rewrite Hn3, Hn2, Hk1 by done. rewrite lookup_empty.
    split; [intros [Hb|[x Hx]]; [exact Hb|done]|auto].
  - rewrite re_sub_block_clean. intros [x Hx]. done.
Qed.

End MoreBlocks.

Lemma detect_extra_infos_facts_witness :
  exists facts t,
    _detect_extra_infos ScenarioTexts.nested_score = Ok (facts, t)
    /\ dom facts ⊆ {[ "description"; "inventory"; "score" ]}
    /\ (is_Some (facts !! "description")
        <-> has_block "description" ScenarioTexts.nested_score)
    /\ ~ has_block "score" t.
Proof.
  assert (exists facts t,
            _detect_extra_infos ScenarioTexts.nested_score = Ok (facts, t))
    as (facts & t & Hd) by (eexists _, _; vm_compute; reflexivity).
  exists facts, t. split; [exact Hd|].
  exact (detect_extra_infos_facts _ _ _ Hd).
Defined.
(** ** The trace of one event *)

Section Trace.

Lemma plain_text_spec u :
  plain_text u = true -> has_char "[" u = false /\ has_char Str.ESC u = false.
Proof.
  unfold plain_text. intros Hp. apply andb_true_iff in Hp as [H1 H2].
  by apply negb_true_iff in H1, H2.
Qed.

Lemma findall_plain_text u s :
  plain_text u = true ->
  findall_from false 0 (u +:+ s) = findall_from false 0 s.
Proof.
  intros Hp. apply plain_text_spec in Hp as [Hb He].
  induction u as [|c u IH]; [done|].
  apply has_char_cons_false in Hb as [Hcb Hb].
  apply has_char_cons_false in He as [Hce He].
  rewrite app_cons, findall_from_no_match
    by (right; by apply match_tag_at_other).
  assert (Str.ascii_eqb c Str.ESC = false) as -> by (by apply ascii_eqb_neq).
  by apply IH.
Qed.

Lemma findall_no_bracket e u : has_char "[" u = false -> findall_from e 0 u = [].
Proof.
  revert e. induction u as [|c u IH]; intros e Hb; [done|].
  apply has_char_cons_false in Hb as [Hcb Hb].
  rewrite findall_from_no_match by (right; by apply match_tag_at_other).
  by apply IH.
Qed.

Lemma startswith_app_common a x y :
  Str.startswith (a +:+ x) (a +:+ y) = Str.startswith x y.
Proof.
  induction a as [|c a IH]; [done|].
  rewrite !app_cons. cbn [Str.startswith]. by rewrite ascii_eqb_refl.
Qed.

Lemma marker_no_bracket ok :
  has_char "[" (marker ok) = false /\ has_char "]" (marker ok) = false.
Proof. by destruct ok. Qed.

(** The token that opens an event does not start the token that closes
    it. *)
Lemma opening_not_closing name ok r :
  Str.startswith (token name true) (token (name +:+ marker ok) true +:+ r)
  = false.
Proof.
  rewrite token_app. unfold token. cbn [Str.startswith].
  rewrite ascii_eqb_refl. cbn [andb].
  rewrite !app_assoc, startswith_app_common. by destruct ok.
Qed.

(** The events that the scanner reads in the two tokens. *)
Lemma scanned_event_opening name :
  Str.contains " - failed" name = false ->
  Str.contains " - succeeded" name = false ->
  scanned_event name = Opens name.
Proof.
  intros Hf Hs. unfold scanned_event.
  by rewrite (find_none_contains _ _ Hf), (find_none_contains _ _ Hs).
Qed.

Lemma scanned_event_closing name ok :
  Str.contains " - failed" name = false ->
  Str.contains " - succeeded" name = false ->
  scanned_event (name +:+ marker ok)
  = if ok then Succeeds name else Fails name.
Proof.
  intros Hf Hs. unfold scanned_event. destruct ok; unfold marker.
  - rewrite (find_app_no_straddle " - failed" name " - succeeded" Hf eq_refl).
    rewrite (find_app_no_straddle " - succeeded" name " - succeeded" Hs eq_refl).
    simpl. by rewrite Nat.add_0_r, take_app_length.
  - rewrite (find_app_no_straddle " - failed" name " - failed" Hf eq_refl).
    simpl. by rewrite Nat.add_0_r, take_app_length.
Qed.

Lemma delete_no_bracket m u :
  (forall c r, c <> "["%char -> Str.startswith m (String c r) = false) ->
  has_char "[" u = false -> delete m u = u.
Proof.
  intros Hm Hu. rewrite <- (app_nil_r u) at 1.
  rewrite delete_plain by done. by rewrite delete_nil, app_nil_r.
Qed.

Lemma list_remove_head x l : list_remove x (x :: l) = Ok l.
Proof. simpl. by rewrite String.eqb_refl. Qed.

(** X5: the trace of one event, between texts without brackets, is read
    back: the scanner reports the event when it succeeded and is no
    sub-rule, reports nothing when it failed, and returns the text around
    and inside the trace, without the two tokens. *)
Theorem event_trace_round_trip pre name body post ok :
  name <> "" ->
  has_char "[" name = false -> has_char "]" name = false ->
  Str.contains " - failed" name = false ->
  Str.contains " - succeeded" name = false ->
  plain_text pre = true -> plain_text body = true ->
  has_char "[" post = false ->
  _detect_i7_events_debug_tags (pre +:+ event_trace name body ok +:+ post)
  = Ok (if ok && not_subrule name then [name] else [],
        pre +:+ body +:+ post).
Proof.
  intros Hne Hob Hcb Hf Hs Hpre Hbody Hpost.
  pose proof (marker_no_bracket ok) as [Hmo Hmc].
  set (opening := token name true).
  set (closing := token (name +:+ marker ok) true).
  assert (name +:+ marker ok <> "") as Hne2 by (by destruct name).
  assert (has_char "]" (name +:+ marker ok) = false) as Hcb2
    by (by rewrite has_char_app, Hcb, Hmc).
  assert (has_char "[" (name +:+ marker ok) = false) as Hob2
    by (by rewrite has_char_app, Hob, Hmo).
  (* the tokens of the text *)
  assert (findall_tags (pre +:+ event_trace name body ok +:+ post)
          = [opening; closing]) as Htokens.
  { unfold findall_tags, event_trace.
    rewrite (findall_plain_text _ _ Hpre), !app_assoc.
    rewrite (findall_token_then _ _ _ Hne Hcb). cbn [orb].
    rewrite (findall_plain_text _ _ Hbody).
    rewrite (findall_token_then _ _ _ Hne2 Hcb2). cbn [orb].
    by rewrite (findall_no_bracket _ _ Hpost). }
  (* the text from which they are deleted *)
  apply plain_text_spec in Hpre as [Hpre _].
  apply plain_text_spec in Hbody as [Hbody _].
  assert (forall mi c r,
            c <> "["%char -> Str.startswith (token mi true) (String c r) = false)
    as Hother by (intros; by apply token_startswith_other).
  assert (Str.replace opening "" (pre +:+ event_trace name body ok +:+ post)
          = pre +:+ body +:+ closing +:+ post) as Hfirst.
  { rewrite replace_delete by done. unfold event_trace. fold opening closing.
    rewrite !app_assoc.
    rewrite (delete_plain opening pre) by (by try apply Hother).
    rewrite delete_occurrence by done.
    rewrite (delete_plain opening body) by (by try apply Hother).
    unfold opening at 1, closing at 1.
    rewrite delete_token_through by (by try apply opening_not_closing).
    by rewrite (delete_no_bracket _ post) by (by try apply Hother). }
  assert (Str.replace closing "" (pre +:+ body +:+ closing +:+ post)
          = pre +:+ body +:+ post) as Hsecond.
  { rewrite replace_delete by done.
    rewrite (delete_plain closing pre) by (by try apply Hother).
    rewrite (delete_plain closing body) by (by try apply Hother).
    rewrite delete_occurrence by done.
    by rewrite (delete_no_bracket _ post) by (by try apply Hother). }
  (* the loop *)
  unfold _detect_i7_events_debug_tags, scan_tags. rewrite Htokens.
  cbn [scan_loop]. rewrite scan_step_event.
  replace (tag_inner opening) with name by (symmetry; apply tag_inner_token).
  rewrite (scanned_event_opening _ Hf Hs).
  cbn [sc_matches sc_open_tags sc_text spec_step rbind app]. rewrite Hfirst.
  rewrite scan_step_event.
  replace (tag_inner closing) with (name +:+ marker ok)
    by (symmetry; apply tag_inner_token).
  rewrite (scanned_event_closing _ ok Hf Hs).
  cbn [sc_matches sc_open_tags sc_text]. rewrite Hsecond.
  destruct ok; cbn [spec_step]; rewrite list_remove_head; cbn [rbind app];
    cbn [sc_matches sc_open_tags sc_text List.filter andb]; [|done].
  by destruct (not_subrule name).
Qed.

Lemma event_trace_round_trip_witness :
  _detect_i7_events_debug_tags
    (("You are in a kitchen." +:+ Str.nl)
     +:+ event_trace "taking the key" ("Taken." +:+ Str.nl) true
     +:+ "What now?")
  = Ok (["taking the key"],
        ("You are in a kitchen." +:+ Str.nl) +:+ ("Taken." +:+ Str.nl)
        +:+ "What now?").
Proof.
  apply (event_trace_round_trip ("You are in a kitchen." +:+ Str.nl)
           "taking the key" ("Taken." +:+ Str.nl) "What now?" true);
    vm_compute; done.
Defined.

End Trace.
(** ** Replacing the escaped control sequences *)

Section Unescape.

Lemma contains_cons sub c s :
  Str.contains sub (String c s)
  = Str.startswith sub (String c s) || Str.contains sub s.
Proof.
  unfold Str.contains. cbn [Str.find].
  destruct (Str.startswith sub (String c s)); [done|].
  by destruct (Str.find sub s).
Qed.

Lemma replace_from_skip_app old new u r :
  u <> "" ->
  Str.replace_from old new (String.length u) (u +:+ r)
  = Str.replace_from old new 0 r.
Proof.
  induction u as [|c u IH]; [done|]. intros _.
  rewrite app_cons. cbn [String.length Str.replace_from].
  destruct u as [|d u]; [by rewrite app_nil_l; destruct r|].
  by apply IH.
Qed.

Lemma replace_from_occurrence a old new r :
  Str.replace_from (String a old) new 0 (String a old +:+ r)
  = new +:+ Str.replace_from (String a old) new 0 r.
Proof.
  rewrite app_cons. cbn [Str.replace_from]. rewrite <- app_cons.
  rewrite (startswith_app (String a old)). f_equal.
  replace (String.length (String a old) - 1)%nat with (String.length old)
    by (simpl; lia).
  destruct old as [|b old]; [by rewrite app_nil_l; destruct r|].
  by apply replace_from_skip_app.
Qed.

Section Clean.
Variables (a b : ascii) (old new : string).
Hypothesis Hnew : has_char a (String b new) = false.
Hypothesis Hold : has_char b (String a old) = false.

(** A text that does not hold the first character of the replacement
    starts the result only where it starts the text. *)
Lemma startswith_replace_inv p s :
  has_char b p = false ->
  Str.startswith p (Str.replace_from (String a old) (String b new) 0 s) = true ->
  Str.startswith p s = true.
Proof.
  revert s. induction p as [|x p IH]; intros s Hp; [done|].
  apply has_char_cons_false in Hp as [Hx Hp].
  destruct s as [|d s]; [done|]. cbn [Str.replace_from].
  destruct (Str.startswith (String a old) (String d s)).
  - rewrite app_cons. cbn [Str.startswith].
    assert (Str.ascii_eqb x b = false) as -> by (by apply ascii_eqb_neq).
    done.
  - cbn [Str.startswith]. intros Hs.
    apply andb_true_iff in Hs as [-> Hs]. by rewrite (IH s Hp Hs).
Qed.

Lemma contains_app_no_start p u s :
  (forall c, has_char c u = true -> forall r, Str.startswith p (String c r) = false) ->
  Str.contains p (u +:+ s) = Str.contains p s.
Proof.
  induction u as [|c u IH]; intros Hu; [done|].
  rewrite app_cons, contains_cons, <- app_cons.
  rewrite app_cons, Hu; [|by rewrite has_char_cons, ascii_eqb_refl].
  apply IH. intros d Hd. apply Hu. by rewrite has_char_cons, Hd, orb_true_r.
Qed.

Lemma replace_clean_length n :
  forall s, String.length s = n ->
    Str.contains (String a old)
      (Str.replace_from (String a old) (String b new) 0 s) = false.
Proof.
  induction n as [n IH] using lt_wf_ind. intros s Hn.
  destruct s as [|c s]; [done|].
  destruct (Str.startswith (String a old) (String c s)) eqn:Hs.
  - apply startswith_spec in Hs as [r Hr]. rewrite Hr.
    rewrite replace_from_occurrence.
    rewrite contains_app_no_start.
    + apply (IH (String.length r)); [|done].
      rewrite <- Hn, Hr, length_app. simpl. lia.
    + intros d Hd r'. cbn [Str.startswith].
      assert (Str.ascii_eqb a d = false) as ->; [|done].
      apply ascii_eqb_neq. intros <-. by rewrite Hd in Hnew.
  - cbn [Str.replace_from]. rewrite Hs, contains_cons.
    rewrite (IH (String.length s)) by (simpl in Hn; lia || done).
    rewrite orb_false_r.
    destruct (Str.startswith (String a old) (String c (Str.replace_from _ _ _ _)))
      eqn:Hs'; [|done].
    cbn [Str.startswith] in Hs', Hs.
    apply andb_true_iff in Hs' as [Hc Hs']. rewrite Hc in Hs.
    apply has_char_cons_false in Hold as [_ Ho].
    by rewrite (startswith_replace_inv old s Ho Hs') in Hs.
Qed.

End Clean.

Lemma unescape_clean s :
  Str.contains Env.escaped_csi (Str.replace Env.escaped_csi Env.csi s) = false.
Proof.
  unfold Env.escaped_csi, Env.csi, Str.replace.
  by apply (replace_clean_length "\"%char Str.ESC "033[" "[" eq_refl eq_refl
              (String.length s)).
Qed.

Lemma replace_from_absent old new s :
  Str.contains old s = false -> Str.replace_from old new 0 s = s.
Proof.
  induction s as [|c s IH]; [done|]. rewrite contains_cons.
  intros Hno. apply orb_false_iff in Hno as [Hs Hno].
  cbn [Str.replace_from]. by rewrite Hs, IH.
Qed.

(** A text whose first character occurs nowhere else in it cannot start
    inside an occurrence of itself. *)
Lemma startswith_drop_self x old n r :
  has_char x old = false ->
  Str.startswith (Str.drop n old) (String x r) = true -> Str.drop n old = "".
Proof.
  revert n. induction old as [|y old IH]; intros n Hx; [by destruct n|].
  apply has_char_cons_false in Hx as [Hy Hx].
  destruct n as [|n]; cbn [Str.drop Str.startswith].
  - intros Hs. apply andb_true_iff in Hs as [Hyx _].
    apply ascii_eqb_eq in Hyx. congruence.
  - by apply IH.
Qed.

(** The first occurrence of such a text, after a text that holds none,
    is replaced, and the replacement goes on after it. *)
Lemma replace_from_first x old new a b :
  has_char x old = false ->
  Str.contains (String x old) a = false ->
  Str.replace_from (String x old) new 0 (a +:+ String x old +:+ b)
  = a +:+ new +:+ Str.replace_from (String x old) new 0 b.
Proof.
  intros Hx. induction a as [|c a IH]; intros Ha.
  - rewrite !app_nil_l. apply replace_from_occurrence.
  - apply contains_cons_false in Ha as [Hs Ha].
    assert (Str.startswith (String x old)
              (String c a +:+ String x old +:+ b) = false) as Hst.
    { destruct (Str.startswith (String x old)
                  (String c a +:+ String x old +:+ b)) eqn:Hst; [|done].
      exfalso.
      apply startswith_app_cases in Hst as [Hst|[Hlt Hst]]; [congruence|].
      cbn [String.length Str.drop] in Hlt, Hst.
      rewrite app_cons in Hst.
      apply (startswith_drop_self _ _ _ _ Hx) in Hst.
      assert (String.length (Str.drop (String.length a) old) = 0%nat) as Hlen
        by (by rewrite Hst).
      rewrite length_drop in Hlen. lia. }
    remember (String x old) as E eqn:HE.
    rewrite !app_cons in Hst |- *. cbn [Str.replace_from].
    rewrite Hst, (app_cons c a). f_equal. by apply IH.
Qed.

(** A text cut at its escaped sequences is put together again with the
    control sequences. *)
Lemma unescape_join pieces :
  Forall (fun u => Str.contains Env.escaped_csi u = false) pieces ->
  Str.replace Env.escaped_csi Env.csi (join Env.escaped_csi pieces)
  = join Env.csi pieces.
Proof.
  unfold Str.replace, Env.escaped_csi.
  induction 1 as [|u pieces Hu Hrest IH]; [done|].
  destruct pieces as [|v pieces].
  - cbn [join]. by apply replace_from_absent.
  - change (join ?sep (u :: v :: pieces))
      with (u +:+ sep +:+ join sep (v :: pieces)).
    rewrite replace_from_first by done. by rewrite IH.
Qed.

End Unescape.

Section Send.
Context `{GameLogic} `{Transport}.

(** What [_send] returns is an answer of the interpreter in which the
    escaped sequences are replaced. *)
Lemma _send_ok_inv command e out e1 :
  Env._send command e = (Ok (Some out), e1) ->
  exists p p1 raw p2,
    Env._process e = Some p /\ poll p = (true, p1)
    /\ communicate p1 (sent_command command) = (Some raw, p2)
    /\ out = Str.replace Env.escaped_csi Env.csi raw
    /\ e1 = Env.set_process (Some p2) e.
Proof.
  destruct (Env._process e) as [p|] eqn:Hp.
  - destruct (poll p) as [[] p1] eqn:Hpoll.
    + rewrite (_send_running _ _ _ _ Hp Hpoll).
      destruct (communicate p1 _) as [[raw|] p2] eqn:Hc.
      * intros [= <- <-]. by exists p, p1, raw, p2.
      * by destruct (Env.close _).
    + rewrite (_send_not_running command e (Env.set_process (Some p1) e));
        [done|].
      unfold Env.game_running. by rewrite Hp, Hpoll.
  - rewrite (_send_not_running command e e); [done|].
    unfold Env.game_running. by rewrite Hp.
Qed.

(** X6: the text that [_send] returns is the answer of the interpreter
    in which each escaped control sequence (backslash, 033 and bracket)
    is replaced by ESC and bracket: when the answer is made of pieces
    without escaped sequence, put together with escaped sequences, the
    text returned is made of the same pieces put together with ESC and
    bracket. It holds no escaped sequence, and an answer without escaped
    sequence is returned as it is. *)
Theorem send_unescapes command e out e1 :
  Env._send command e = (Ok (Some out), e1) ->
  Str.contains Env.escaped_csi out = false
  /\ exists p0 p raw p',
       Env._process e = Some p0 /\ poll p0 = (true, p)
       /\ communicate p (if (String.length command =? 0)%nat then " "
                         else command)
          = (Some raw, p')
       /\ Env._process e1 = Some p'
       /\ (Str.contains Env.escaped_csi raw = false -> out = raw)
       /\ (forall pieces,
             Forall (fun u => Str.contains Env.escaped_csi u = false) pieces ->
             raw = join Env.escaped_csi pieces ->
             out = join Env.csi pieces).
Proof.
  intros Hsend.
  apply _send_ok_inv in Hsend as (p & p1 & raw & p2 & Hp & Hpoll & Hc & -> & ->).
  split; [apply unescape_clean|].
  exists p, p1, raw, p2. split; [done|]. split; [done|]. split; [done|].
  split; [by destruct e|]. split; [apply replace_from_absent|].
  intros pieces Hpieces ->. by apply unescape_join.
Qed.

End Send.
(** ** [rreplace] *)

Section Rreplace.

Lemma rsplit_pieces_not_nil fuel sep limit s :
  rsplit_pieces fuel sep limit s <> [].
Proof.
  destruct fuel as [|f]; [done|]. cbn [rsplit_pieces].
  destruct (match limit with Some n => n <=? 0 | None => false end); [done|].
  destruct (split_last sep s) as [[a b]|]; [|done].
  by destruct (rsplit_pieces f sep _ a).
Qed.

Lemma join_snoc sep l b :
  l <> [] -> join sep (l ++ [b]) = join sep l +:+ sep +:+ b.
Proof.
  induction l as [|x l IH]; [done|]. intros _.
  destruct l as [|y l]; [done|].
  change (join sep ((x :: y :: l) ++ [b]))
    with (x +:+ sep +:+ join sep ((y :: l) ++ [b])).
  rewrite IH by done.
  change (join sep (x :: y :: l)) with (x +:+ sep +:+ join sep (y :: l)).
  by rewrite !app_assoc.
Qed.

(** Joining the pieces with the separator gives the text back. *)
Lemma join_rsplit_pieces fuel sep limit s :
  sep <> "" -> join sep (rsplit_pieces fuel sep limit s) = s.
Proof.
  intros Hsep. revert limit s.
  induction fuel as [|f IH]; intros limit s; [done|].
  cbn [rsplit_pieces].
  assert (join sep
            match split_last sep s with
            | Some (a, b) =>
                rsplit_pieces f sep (option_map Z.pred limit) a ++ [b]
            | None => [s]
            end = s) as Hcut.
  { destruct (split_last sep s) as [[a b]|] eqn:Hl; [|done].
    apply split_last_Some_inv in Hl as [-> _]; [|done].
    rewrite join_snoc by apply rsplit_pieces_not_nil. by rewrite IH. }
  by destruct (match limit with Some n => n <=? 0 | None => false end).
Qed.

(** The fuel is never used up. *)
Lemma rsplit_pieces_fuel sep :
  sep <> "" ->
  forall f f' limit s,
    (String.length s < f)%nat -> (String.length s < f')%nat ->
    rsplit_pieces f sep limit s = rsplit_pieces f' sep limit s.
Proof.
  intros Hsep. induction f as [|f IH]; intros f' limit s Hf Hf'; [lia|].
  destruct f' as [|f']; [lia|]. cbn [rsplit_pieces].
  destruct (match limit with Some n => n <=? 0 | None => false end); [done|].
  destruct (split_last sep s) as [[a b]|] eqn:Hl; [|done].
  apply split_last_Some_inv in Hl as [Hs _]; [|done].
  assert (String.length a < String.length s)%nat as Hlt.
  { rewrite Hs, !length_app. destruct sep; [done|]. simpl. lia. }
  rewrite (IH f'); [done|lia..].
Qed.

Lemma split_last_app_l sep a s b :
  split_last sep s = Some ("", b) ->
  split_last sep (a +:+ s) = Some (a, b).
Proof.
  intros Hs. induction a as [|c a IH]; [done|].
  rewrite app_cons. cbn [split_last]. by rewrite IH.
Qed.

(** The last occurrence of a text: no other one starts after it. *)
Lemma split_last_at sep a b :
  sep <> "" ->
  Str.contains sep (Str.drop 1 (sep +:+ b)) = false ->
  split_last sep (a +:+ sep +:+ b) = Some (a, b).
Proof.
  intros Hsep Hno. apply split_last_app_l.
  destruct sep as [|x sep]; [done|]. rewrite app_cons in *.
  cbn [Str.drop] in Hno. cbn [split_last].
  rewrite split_last_none by (by apply contains_false_spec).
  rewrite <- app_cons, startswith_app. by rewrite drop_app_length.
Qed.

(** A count that fits passes the conversion. *)
Lemma rsplit_fits sep maxsplit s :
  fits_ssize_t maxsplit ->
  rsplit sep maxsplit s
  = match sep with
    | "" => Raise ValueError
    | _ =>
        Ok (rsplit_pieces (S (String.length s)) sep
              (if maxsplit <? 0 then None else Some maxsplit) s)
    end.
Proof.
  unfold fits_ssize_t, rsplit. intros [Hlo Hhi].
  assert ((maxsplit <? - PY_SSIZE_T_MAX - 1) = false) as -> by lia.
  by assert ((PY_SSIZE_T_MAX <? maxsplit) = false) as -> by lia.
Qed.

(** X7: [rreplace] with the text that is replaced as the replacement
    returns the text it is given: joining the pieces of [rsplit] with the
    separator undoes the split, whatever the number of cuts, for every
    count that fits a [ssize_t]. *)
Theorem rreplace_same s old occurrence :
  fits_ssize_t occurrence ->
  old <> "" -> rreplace s old old occurrence = Ok s.
Proof.
  intros Hfit Hold. unfold rreplace. rewrite (rsplit_fits _ _ _ Hfit).
  destruct old as [|c old]; [done|]. cbn [rbind].
  by rewrite join_rsplit_pieces.
Qed.

Lemma rreplace_same_witness :
  rreplace "a--b--c" "--" "--" 1 = Ok "a--b--c".
Proof. apply rreplace_same; [unfold fits_ssize_t, PY_SSIZE_T_MAX; lia|done]. Defined.

(** X8: [rreplace] works from the end of the text: with a count that is
    not zero and fits a [ssize_t], it replaces the last occurrence of
    [old] and goes on, in the text before it, with one replacement less;
    with a count of one, it replaces the last occurrence and nothing
    else. *)
Theorem rreplace_last a old b new occurrence :
  fits_ssize_t occurrence ->
  old <> "" ->
  Str.contains old (Str.drop 1 (old +:+ b)) = false ->
  occurrence <> 0 ->
  rreplace (a +:+ old +:+ b) old new occurrence
  = (try! a' := rreplace a old new
                  (if occurrence <? 0 then occurrence else occurrence - 1) in
     Ok (a' +:+ new +:+ b))
  /\ rreplace (a +:+ old +:+ b) old new 1 = Ok (a +:+ new +:+ b).
Proof.
  intros Hfit Hold Hlast Hocc.
  pose proof (split_last_at old a b Hold Hlast) as Hcut.
  assert (String.length a < String.length (a +:+ old +:+ b))%nat as Hlt.
  { rewrite !length_app. destruct old; [done|]. simpl. lia. }
  assert (fits_ssize_t 1) as Hone by (unfold fits_ssize_t, PY_SSIZE_T_MAX; lia).
  assert (fits_ssize_t (if occurrence <? 0 then occurrence else occurrence - 1))
    as Hnext.
  { unfold fits_ssize_t, PY_SSIZE_T_MAX in *.
    destruct (occurrence <? 0) eqn:Hneg; [done|].
    apply Z.ltb_ge in Hneg. lia. }
  unfold rreplace.
  rewrite (rsplit_fits _ _ _ Hfit), (rsplit_fits _ _ _ Hone),
    (rsplit_fits _ _ _ Hnext).
  destruct old as [|c old]; [done|]. cbn [rbind].
  split.
  - cbn [rsplit_pieces]. rewrite Hcut.
    rewrite (rsplit_pieces_fuel _ Hold _ (S (String.length a))) by lia.
    destruct (occurrence <? 0) eqn:Hneg.
    + rewrite Hneg. cbn [option_map].
      by rewrite join_snoc by apply rsplit_pieces_not_nil.
    + apply Z.ltb_ge in Hneg.
      assert ((occurrence - 1 <? 0) = false) as -> by (apply Z.ltb_ge; lia).
      assert ((occurrence <=? 0) = false) as -> by (apply Z.leb_gt; lia).
      cbn [option_map]. rewrite <- Z.sub_1_r.
      by rewrite join_snoc by apply rsplit_pieces_not_nil.
  - change (1 <? 0) with false.
    cbn [rsplit_pieces]. rewrite Hcut. change (1 <=? 0) with false.
    cbn [option_map]. change (Z.pred 1) with 0.
    by destruct (String.length (a +:+ String c old +:+ b)).
Qed.

Lemma rreplace_last_witness :
  rreplace "a--b--c" "--" "+" 1 = Ok "a--b+c"
  /\ rreplace "a--b--c" "--" "+" (-1) = Ok "a+b+c".
Proof.
  assert (fits_ssize_t 1 /\ fits_ssize_t (-1)) as [Hone Hall']
    by (unfold fits_ssize_t, PY_SSIZE_T_MAX; lia).
  destruct (rreplace_last "a--b" "--" "c" "+" 1) as [_ Hone']; [done..|].
  destruct (rreplace_last "a--b" "--" "c" "+" (-1)) as [Hall _]; [done..|].
  split; [exact Hone'|].
  change (rreplace ("a--b" +:+ "--" +:+ "c") "--" "+" (-1) = Ok "a+b+c").
  rewrite Hall. vm_compute. reflexivity.
Defined.

(** X9: [rreplace] raises [OverflowError] when the count does not fit a
    [ssize_t], whatever the texts; with a count that fits, it raises
    [ValueError] for an empty [old], and for another [old] it returns the
    text as it is when the count is zero and when [old] does not occur in
    the text. *)
Theorem rreplace_unchanged s old new occurrence :
  (~ fits_ssize_t occurrence ->
   rreplace s old new occurrence = Raise OverflowError)
  /\ (fits_ssize_t occurrence ->
      rreplace s "" new occurrence = Raise ValueError)
  /\ (old <> "" -> rreplace s old new 0 = Ok s)
  /\ (fits_ssize_t occurrence -> old <> "" -> Str.contains old s = false ->
      rreplace s old new occurrence = Ok s).
Proof.
  assert (fits_ssize_t 0) as Hzero
    by (unfold fits_ssize_t, PY_SSIZE_T_MAX; lia).
  split; [|split; [|split]].
  - intros Hout. unfold rreplace, rsplit.
    destruct ((occurrence <? - PY_SSIZE_T_MAX - 1)
              || (PY_SSIZE_T_MAX <? occurrence)) eqn:Htest; [done|].
    exfalso. apply Hout. unfold fits_ssize_t.
    apply orb_false_iff in Htest as [Hlo Hhi]. lia.
  - intros Hfit. unfold rreplace. by rewrite (rsplit_fits _ _ _ Hfit).
  - intros Hold. unfold rreplace. rewrite (rsplit_fits _ _ _ Hzero).
    by destruct old.
  - intros Hfit Hold Hno. unfold rreplace. rewrite (rsplit_fits _ _ _ Hfit).
    destruct old as [|c old]; [done|]. cbn [rbind rsplit_pieces].
    rewrite split_last_none by (by apply contains_false_spec).
    by destruct (match (if occurrence <? 0 then _ else _) with
                 | Some n => n <=? 0
                 | None => false
                 end).
Qed.

Lemma rreplace_unchanged_witness :
  rreplace "a--b" "--" "+" (2 ^ 63) = Raise OverflowError
  /\ rreplace "a--b" "" "+" 1 = Raise ValueError
  /\ rreplace "a--b" "--" "+" 0 = Ok "a--b"
  /\ rreplace "a--b" "++" "-" 3 = Ok "a--b".
Proof.
  assert (fits_ssize_t 1 /\ fits_ssize_t 3 /\ ~ fits_ssize_t (2 ^ 63))
    as (Hone & Hthree & Hbig) by (unfold fits_ssize_t, PY_SSIZE_T_MAX; lia).
  destruct (rreplace_unchanged "a--b" "--" "+" (2 ^ 63)) as (Hover & _).
  destruct (rreplace_unchanged "a--b" "--" "+" 1) as (_ & Hempty & Hzero & _).
  destruct (rreplace_unchanged "a--b" "++" "-" 3) as (_ & _ & _ & Habsent).
  split; [by apply Hover|]. split; [by apply Hempty|].
  split; [by apply Hzero|by apply Habsent].
Defined.

End Rreplace.
(* ===================================================================== *)
(** * Further properties of the snapshots *)
(* ===================================================================== *)

Section View.
Context `{GameLogic}.

Lemma state_resolves sigma s st s' :
  state sigma s = (Ok st, s') -> _state s' = Some st.
Proof.
  unfold state, progression. msimpl. destruct s; simpl. intros Heq. by mcases.
Qed.

Lemma state_cached sigma s st :
  _state s = Some st -> state sigma s = (Ok st, s).
Proof. intros Hc. unfold state. msimpl. by rewrite Hc. Qed.

(** What [view] returns is the copy of the snapshot as the reads leave
    it, with its cells resolved. *)
Lemma view_ok_inv sigma s v s1 :
  view sigma s = (Ok v, s1) -> v = view_of s1 /\ resolved s1 /\ extends s s1.
Proof.
  intros Hrun. pose proof (view_extends sigma _ _ _ Hrun) as Hext.
  unfold view, command, feedback, action, max_score, nb_moves in Hrun.
  gets_inv Hrun prev.
  bind_inv Hrun st sa Hst.
  gets_inv Hrun tracking. gets_inv Hrun ci. gets_inv Hrun cmd.
  gets_inv Hrun fb. gets_inv Hrun act. gets_inv Hrun desc.
  gets_inv Hrun inv.
  bind_inv Hrun obj sa' Hobj. apply getattr_ok_inv in Hobj as [Hobj ->].
  bind_inv Hrun scv sb Hsc.
  gets_inv Hrun mx. gets_inv Hrun nb.
  bind_inv Hrun won sw Hwon.
  bind_inv Hrun lost sd Hlost.
  gets_inv Hrun timeout.
  bind_inv Hrun adm se Hadm.
  bind_inv Hrun pol sf Hpol.
  apply ret_ok_inv in Hrun as [-> ->].
  pose proof (state_extends _ _ _ _ Hst) as E1.
  pose proof (score_extends _ _ _ _ Hsc) as E2.
  pose proof (has_won_extends _ _ _ _ Hwon) as E3.
  pose proof (has_lost_extends _ _ _ _ Hlost) as E4.
  assert (extends sd se /\
          (if _state_tracking sa
           then exists l, adm = Some l /\ _admissible_commands se = Some l
           else adm = None)) as [E5 Hadm'].
  { destruct (_state_tracking sa).
    - bind_inv Hadm l sx Hl. apply ret_ok_inv in Hadm as [-> ->].
      split; [eapply admissible_commands_extends, Hl|].
      apply admissible_commands_resolves in Hl. eauto.
    - apply ret_ok_inv in Hadm as [-> ->]. split; [reflexivity|done]. }
  assert (extends se sf /\
          (if _compute_intermediate_reward sa
           then exists l, pol = Some l /\ _policy_commands sf = Some l
           else pol = None)) as [E6 Hpol'].
  { destruct (_compute_intermediate_reward sa).
    - bind_inv Hpol l sx Hl. apply ret_ok_inv in Hpol as [-> ->].
      split; [eapply policy_commands_extends, Hl|].
      apply policy_commands_resolves in Hl. eauto.
    - apply ret_ok_inv in Hpol as [-> ->]. split; [reflexivity|done]. }
  assert (extends sd sf) as E46 by (etransitivity; [exact E5|exact E6]).
  assert (extends sw sf) as E36 by (etransitivity; [exact E4|exact E46]).
  assert (extends sb sf) as E26 by (etransitivity; [exact E3|exact E36]).
  assert (extends sa sf) as E16 by (etransitivity; [exact E2|exact E26]).
  apply state_resolves in Hst. apply (ext_state _ _ E16) in Hst.
  apply score_resolves in Hsc. apply (ext_score _ _ E26) in Hsc.
  apply has_won_resolves in Hwon. apply (ext_has_won _ _ E36) in Hwon.
  apply has_lost_resolves in Hlost. apply (ext_has_lost _ _ E46) in Hlost.
  rewrite <- (ext_objective _ _ E16) in Hobj.
  rewrite <- (ext_state_tracking _ _ E16) in Hadm'.
  rewrite <- (ext_compute_intermediate_reward _ _ E16) in Hpol'.
  split; [|split; [|exact Hext]].
  - unfold view_of.
    rewrite <- (ext_previous_state _ _ Hext), <- (ext_command _ _ E16),
      <- (ext_feedback _ _ E16), <- (ext_nb_moves _ _ E26),
      <- (ext_has_timeout _ _ E46), <- (ext_state_tracking _ _ E16),
      <- (ext_compute_intermediate_reward _ _ E16),
      <- (ext_max_score _ _ E26), <- (ext_action _ _ E16),
      <- (ext_description _ _ E16), <- (ext_inventory _ _ E16),
      Hobj, Hsc, Hst, Hwon, Hlost.
    f_equal.
    + destruct (_state_tracking sf); [|done].
      destruct Hadm' as (l & -> & Hl).
      by rewrite (ext_admissible_commands _ _ E6 _ Hl).
    + destruct (_compute_intermediate_reward sf); [|done].
      by destruct Hpol' as (l & -> & ->).
  - unfold resolved. rewrite Hobj, Hsc, Hst, Hwon, Hlost.
    repeat split; eauto.
    + intros Ht. rewrite Ht in Hadm'. destruct Hadm' as (l & _ & Hl).
      rewrite (ext_admissible_commands _ _ E6 _ Hl). eauto.
    + intros Hc. rewrite Hc in Hpol'. destruct Hpol' as (l & _ & ->). eauto.
Qed.

End View.

Section ViewAnswers.
Context `{GameLogic}.



(** X11: the description and the inventory of a view are the ones that
    were read on the snapshot before the view was taken, and the empty
    text when they were not read, whether or not the snapshot holds the
    fact; on a view they never raise. *)
Theorem view_description sigma s v s1 :
  view sigma s = (Ok v, s1) ->
  SideChannel.description v = (Ok (default "" (_description s)), v)
  /\ SideChannel.inventory v = (Ok (default "" (_inventory s)), v)
  /\ (forall facts d,
        _description s = None -> _extra_infos s = Some facts ->
        facts !! "description" = Some d ->
        SideChannel.description s = (Ok d, SideChannel.set_description (Some d) s)
        /\ SideChannel.description v = (Ok "", v)).
Proof.
  intros Hv. apply view_ok_inv in Hv as (-> & _ & Hext).
  rewrite <- (ext_description _ _ Hext), <- (ext_inventory _ _ Hext).
  split; [done|]. split; [done|].
  intros facts d Hc Hf Hd.
  split; unfold SideChannel.description; msimpl; [|by rewrite Hc].
  rewrite (ext_description _ _ Hext) in Hc. by rewrite Hc, Hf, Hd.
Qed.

End ViewAnswers.
(** ** What a turn does *)

Section Turn.
Context `{GameLogic}.

Lemma set_action_same (s : GlulxGameState) : set_action (_action s) s = s.
Proof. by destruct s. Qed.

Lemma set_action_get a (s : GlulxGameState) : _action (set_action a s) = a.
Proof. by destruct s. Qed.

Lemma set_action_progression a (s : GlulxGameState) :
  _game_progression (set_action a s) = _game_progression s.
Proof. by destruct s. Qed.

(** The loop over the events replays them on the tracker of the
    session. *)
Lemma track_events_replay self l i7 evs :
  _game_progression self = Some l -> _inform7 self = Some i7 ->
  forall sigma gs gp,
    _game_progression gs = Some l -> sigma !! l = Some gp ->
    track_events self evs (sigma, gs)
    = (Ok tt,
       (<[l := fst (replay i7 gp (_action gs) evs)]> sigma,
        set_action (snd (replay i7 gp (_action gs) evs)) gs)).
Proof.
  intros Hl Hi. induction evs as [|e evs IH]; intros sigma gs gp Hgl Hgp.
  - cbn [track_events replay fst snd]. unfold ret. unfold store in *.
    by rewrite list_insert_id, set_action_same.
  - cbn [track_events replay]. unfold bind.
    set (found := detect_action i7 e (gp_valid_actions gp)).
    set (gp1 := match found with Some a => gp_update gp a | None => gp end).
    assert (track_event self e (sigma, gs)
            = (Ok tt, (<[l := gp1]> sigma, set_action found gs))) as ->.
    { unfold track_event, progression_at. msimpl.
      rewrite Hl. simpl. rewrite Hgp. simpl. rewrite Hi. simpl.
      fold found. subst gp1. destruct found as [a|]; simpl.
      - rewrite set_action_progression, Hgl. simpl. by rewrite Hgp.
      - unfold store in *. by rewrite list_insert_id. }
    assert (l < length sigma)%nat as Hlen
      by (unfold store in *; by apply lookup_lt_is_Some; eauto).
    rewrite (IH _ _ gp1).
    + rewrite set_action_get, set_action_twice. unfold store in *.
      by rewrite list_insert_insert_eq.
    + by rewrite set_action_progression.
    + unfold store in *. by apply list_lookup_insert_eq.
Qed.

(** The snapshot that [update] builds, from the facts and the events of
    the output. *)
Lemma update_ok_shape cmd out sigma self s' sigma' self' :
  update cmd out (sigma, self) = (Ok s', (sigma', self')) ->
  exists new text evs fb old obj i7 game l,
    _detect_extra_infos (_strip_input_prompt_symbol out) = Ok (new, text)
    /\ _detect_i7_events_debug_tags text = Ok (evs, fb)
    /\ view sigma self = (Ok (view_of self'), self')
    /\ _extra_infos self' = Some old /\ _objective self' = Some obj
    /\ _inform7 self' = Some i7 /\ _game self' = Some game
    /\ _game_progression self' = Some l
    /\ let base :=
         set_feedback fb
           (inherit_attributes (view_of self') obj (_max_score self') i7 game l
              (_state_tracking self') (_compute_intermediate_reward self')
              (new ∪ old) (GameState_update cmd text self)) in
       if _state_tracking self'
       then track_events self' evs (sigma, base) = (Ok tt, (sigma', s'))
       else sigma' = sigma /\ s' = base.
Proof.
  unfold update. intros Hrun.
  bind_inv Hrun x w1 Hx. destruct x as [new text].
  apply lift_ok_inv in Hx as [Hx ->].
  bind_inv Hrun game_state w1 Hgs. apply gets_ok_inv in Hgs as [-> ->].
  bind_inv Hrun prev w1 Hv. apply on_self_ok_inv in Hv as (s1 & Hv & ->).
  simpl in Hv. pose proof (view_ok_inv _ _ _ _ Hv) as (-> & _ & _).
  bind_inv Hrun obj w1 Ho. apply on_self_ok_inv in Ho as (s2 & Ho & ->).
  apply getattr_ok_inv in Ho as [Ho ->]. simpl in *.
  bind_inv Hrun mx w1 Hmx. apply on_self_ok_inv in Hmx as (s2 & Hmx & ->).
  apply gets_ok_inv in Hmx as [-> ->]. simpl in *.
  bind_inv Hrun i7 w1 Hi. apply on_self_ok_inv in Hi as (s2 & Hi & ->).
  apply getattr_ok_inv in Hi as [Hi ->]. simpl in *.
  bind_inv Hrun game w1 Hg. apply on_self_ok_inv in Hg as (s2 & Hg & ->).
  apply getattr_ok_inv in Hg as [Hg ->]. simpl in *.
  bind_inv Hrun l w1 Hl. apply on_self_ok_inv in Hl as (s2 & Hl & ->).
  apply getattr_ok_inv in Hl as [Hl ->]. simpl in *.
  bind_inv Hrun tracking w1 Ht. apply gets_ok_inv in Ht as [-> ->].
  bind_inv Hrun ci w1 Hc. apply gets_ok_inv in Hc as [-> ->].
  bind_inv Hrun old w1 Hoi. apply on_self_ok_inv in Hoi as (s2 & Hoi & ->).
  apply getattr_ok_inv in Hoi as [Hoi ->]. simpl in *.
  bind_inv Hrun y w1 Hy. destruct y as [evs fb].
  apply lift_ok_inv in Hy as [Hy ->].
  bind_inv Hrun self0 w1 Hs. apply gets_ok_inv in Hs as [-> ->]. simpl in *.
  exists new, text, evs, fb, old, obj, i7, game, l. cbv zeta.
  destruct (_state_tracking s1) eqn:Ht.
  - destruct (track_events s1 evs _) as [r [sigma2 gs2]] eqn:Hev.
    simpl in Hrun, Hev. destruct r as [[]|ex]; [|discriminate].
    injection Hrun as <- <- <-. rewrite Ht. by repeat (split; [done|]).
  - apply ret_ok_inv in Hrun as [-> [= <- <-]]. rewrite Ht.
    by repeat (split; [done|]).
Qed.

(** The new snapshot, the action apart. *)
Lemma update_ok_snapshot cmd out sigma self s' sigma' self' :
  update cmd out (sigma, self) = (Ok s', (sigma', self')) ->
  exists new text evs fb old obj i7 game l act,
    _detect_extra_infos (_strip_input_prompt_symbol out) = Ok (new, text)
    /\ _detect_i7_events_debug_tags text = Ok (evs, fb)
    /\ extends self self'
    /\ _extra_infos self' = Some old /\ _objective self' = Some obj
    /\ _game_progression self' = Some l
    /\ s' = set_action act
              (set_feedback fb
                 (inherit_attributes (view_of self') obj (_max_score self')
                    i7 game l (_state_tracking self')
                    (_compute_intermediate_reward self') (new ∪ old)
                    (GameState_update cmd text self))).
Proof.
  intros Hup.
  apply update_ok_shape in Hup
    as (new & text & evs & fb & old & obj & i7 & game & l & Hx & Hy & Hv
        & Hold & Hobj & Hi & Hg & Hl & Hshape).
  cbv zeta in Hshape. pose proof (view_extends _ _ _ _ Hv) as Hext.
  exists new, text, evs, fb, old, obj, i7, game, l.
  destruct (_state_tracking self').
  - apply track_events_frame in Hshape as [->|[a ->]].
    + by exists None.
    + by exists a.
  - destruct Hshape as [_ ->]. by exists None.
Qed.

(** X12: without state tracking a turn leaves every tracker as it is and
    detects no action. With state tracking, the events of the output are
    replayed in their order on the tracker of the session, each event
    looked up among the actions valid when it comes; the other trackers
    stay as they are, and the action of the new snapshot is the outcome
    of the look-up of the last event, none when the output has no
    event. In both cases the feedback of the new snapshot is the output
    without prompt, blocks and event tags. *)
Theorem update_replays_events cmd out sigma self s' sigma' self' :
  update cmd out (sigma, self) = (Ok s', (sigma', self')) ->
  exists facts text evs fb,
    _detect_extra_infos (_strip_input_prompt_symbol out) = Ok (facts, text)
    /\ _detect_i7_events_debug_tags text = Ok (evs, fb)
    /\ _feedback s' = fb
    /\ (_state_tracking self = false -> sigma' = sigma /\ _action s' = None)
    /\ (_state_tracking self = true ->
        forall l gp i7,
          _game_progression self = Some l -> sigma !! l = Some gp ->
          _inform7 self = Some i7 ->
          sigma' = <[l := fst (replay i7 gp None evs)]> sigma
          /\ _action s' = snd (replay i7 gp None evs)
          /\ (forall l', l' <> l -> sigma' !! l' = sigma !! l')).
Proof.
  intros Hup.
  apply update_ok_shape in Hup
    as (new & text & evs & fb & old & obj & i7' & game & l' & Hx & Hy & Hv
        & Hold & Hobj & Hi & Hg & Hl & Hshape).
  cbv zeta in Hshape.
  pose proof (view_extends _ _ _ _ Hv) as Hext.
  exists new, text, evs, fb. split; [done|]. split; [done|].
  rewrite (ext_state_tracking _ _ Hext) in Hshape.
  destruct (_state_tracking self) eqn:Ht.
  - split; [|split; [done|]].
    + apply track_events_frame in Hshape as [->|[a ->]]; by destruct self.
    + intros _ l gp i7 Hl' Hgp Hi'.
      rewrite (ext_game_progression _ _ Hext) in Hl.
      rewrite (ext_inform7 _ _ Hext) in Hi.
      rewrite Hl' in Hl. injection Hl as <-.
      rewrite Hi' in Hi. injection Hi as <-.
      rewrite (track_events_replay self' l i7 evs) with (gp := gp)
        in Hshape; try done.
      * change (_action (set_feedback _ _)) with (@None Action) in Hshape.
        injection Hshape as <- <-.
        split; [done|]. split; [done|].
        intros l0 Hne. unfold store in *. by apply list_lookup_insert_ne.
      * by rewrite (ext_game_progression _ _ Hext).
      * by rewrite (ext_inform7 _ _ Hext).
  - destruct Hshape as [-> ->]. split; [by destruct self|].
    split; [|done]. intros _. split; [done|]. by destruct self.
Qed.

(** X13: the side-channel facts of the new snapshot are those of the
    output of the turn, and for the tags that the output does not hold,
    those of the snapshot before: the description and the inventory of
    the new snapshot are the latest ones that were observed, and they
    raise [ExtraInfosIsMissingError] when none was ever observed. *)
Theorem update_merges_facts cmd out sigma self s' sigma' self' :
  update cmd out (sigma, self) = (Ok s', (sigma', self')) ->
  exists new text old,
    _detect_extra_infos (_strip_input_prompt_symbol out) = Ok (new, text)
    /\ _extra_infos self = Some old
    /\ (exists facts,
          _extra_infos s' = Some facts
          /\ forall tag, facts !! tag = latest_fact tag new old)
    /\ SideChannel.description s'
       = match latest_fact "description" new old with
         | Some d => (Ok d, SideChannel.set_description (Some d) s')
         | None => (Raise (ExtraInfosIsMissingError "description"), s')
         end
    /\ SideChannel.inventory s'
       = match latest_fact "inventory" new old with
         | Some i => (Ok i, SideChannel.set_inventory (Some i) s')
         | None => (Raise (ExtraInfosIsMissingError "inventory"), s')
         end.
Proof.
  intros Hup.
  apply update_ok_shape in Hup
    as (new & text & evs & fb & old & obj & i7' & game & l' & Hx & Hy & Hv
        & Hold & Hobj & Hi & Hg & Hl & Hshape).
  cbv zeta in Hshape.
  pose proof (view_extends _ _ _ _ Hv) as Hext.
  exists new, text, old. split; [done|].
  split; [by rewrite <- (ext_extra_infos _ _ Hext)|].
  assert (forall tag, (new ∪ old) !! tag = latest_fact tag new old) as Hlatest.
  { intros tag. unfold latest_fact. rewrite lookup_union.
    destruct (new !! tag), (old !! tag); done. }
  assert (_extra_infos s' = Some (new ∪ old)
          /\ _description s' = None /\ _inventory s' = None)
    as (Hfacts & Hd & Hinv).
  { destruct (_state_tracking self').
    - apply track_events_frame in Hshape as [->|[a ->]]; by destruct self.
    - destruct Hshape as [_ ->]. by destruct self. }
  split; [exists (new ∪ old); by split|].
  unfold SideChannel.description, SideChannel.inventory. msimpl.
  rewrite Hd, Hinv, Hfacts. simpl. rewrite !Hlatest.
  split.
  - by destruct (latest_fact "description" new old).
  - by destruct (latest_fact "inventory" new old).
Qed.

End Turn.

Section PlainTurn.
Context `{GameLogic}.

(** X21: when the output of a turn is a text without event tag and without
    block, followed by the prompt, the feedback of the new snapshot is
    that text; the turn brings no fact and no action and leaves the
    trackers as they are, with or without state tracking. Without the
    intermediate reward, the new snapshot is won exactly when the text
    shows the banner of the end, and lost exactly when it shows the
    banner of the defeat. *)
Theorem update_plain_output cmd text sigma self s' sigma' self' :
  update cmd (text +:+ prompt) (sigma, self) = (Ok s', (sigma', self')) ->
  brackets_escaped false text = true ->
  (forall tag, tag ∈ extra_info_tags ->
     Str.contains (open_tag tag) text = false
     \/ Str.contains (close_tag tag) text = false) ->
  _feedback s' = text
  /\ _extra_infos s' = _extra_infos self
  /\ _action s' = None
  /\ sigma' = sigma
  /\ (_compute_intermediate_reward self = false ->
      forall sigma0,
        has_won sigma0 s'
        = (Ok (Str.contains "*** The End ***" text),
           set_has_won (Some (Str.contains "*** The End ***" text)) s')
        /\ has_lost sigma0 s'
           = (Ok (Str.contains "*** You lost! ***" text),
              set_has_lost (Some (Str.contains "*** You lost! ***" text)) s')).
Proof.
  intros Hup Hesc Hno.
  apply update_ok_shape in Hup
    as (new & text' & evs & fb & old & obj & i7 & game & l & Hx & Hy & Hv
        & Hold & Hobj & Hi & Hg & Hl & Hshape).
  cbv zeta in Hshape. pose proof (view_extends _ _ _ _ Hv) as Hext.
  (* the output holds no fact and no event *)
  unfold _strip_input_prompt_symbol in Hx. fold prompt in Hx.
  rewrite endswith_app, (drop_last_app prompt) in Hx.
  unfold _detect_extra_infos, extra_info_tags in Hx, Hno.
  cbn [extra_infos_loop] in Hx.
  rewrite extra_infos_step_no_block in Hx by (apply Hno; set_solver).
  cbn [rbind] in Hx.
  rewrite extra_infos_step_no_block in Hx by (apply Hno; set_solver).
  cbn [rbind] in Hx.
  rewrite extra_infos_step_no_block in Hx by (apply Hno; set_solver).
  injection Hx as <- <-.
  unfold _detect_i7_events_debug_tags, scan_tags, findall_tags in Hy.
  rewrite (findall_escaped _ _ Hesc) in Hy. injection Hy as <- <-.
  assert (sigma' = sigma
          /\ s' = set_feedback text
                   (inherit_attributes (view_of self') obj (_max_score self')
                      i7 game l (_state_tracking self')
                      (_compute_intermediate_reward self') (∅ ∪ old)
                      (GameState_update cmd text self))) as [-> ->].
  { destruct (_state_tracking self'); [|done].
    cbn [track_events] in Hshape. by injection Hshape as <- <-. }
  rewrite (left_id_L ∅ (∪) old), <- (ext_extra_infos _ _ Hext), Hold.
  repeat (split; [done|]).
  rewrite (ext_compute_intermediate_reward _ _ Hext).
  intros Hci sigma0. unfold has_won, has_lost, feedback. msimpl.
  rewrite Hci. done.
Qed.

End PlainTurn.
(* ===================================================================== *)
(** * Further properties of the session driver *)
(* ===================================================================== *)

Section Interpreter.
Context `{GameLogic} `{Transport}.

#[global] Instance same_session_refl : Reflexive same_session.
Proof. intros e. by constructor. Qed.

#[global] Instance same_session_trans : Transitive same_session.
Proof. intros e1 e2 e3 [] []. constructor; congruence. Qed.

Lemma same_session_set_process p e : same_session e (Env.set_process p e).
Proof. by constructor. Qed.

Lemma game_running_same_session : preserves same_session Env.game_running.
Proof.
  intros e r e'. unfold Env.game_running.
  destruct (Env._process e) as [p|]; [destruct (poll p)|];
    intros [= <- <-]; [apply same_session_set_process|reflexivity].
Qed.

Lemma close_same_session : preserves same_session Env.close.
Proof.
  unfold Env.close.
  apply preserves_bind; [apply _|apply game_running_same_session|].
  intros [|]; [|apply preserves_ret; apply _].
  apply preserves_modify. apply same_session_set_process.
Qed.

Lemma _send_same_session command : preserves same_session (Env._send command).
Proof.
  unfold Env._send.
  apply preserves_bind; [apply _|apply game_running_same_session|].
  intros [|]; simpl; [|apply preserves_ret; apply _].
  apply preserves_bind; [apply _|apply preserves_getattr; apply _|].
  intros p. destruct (communicate p _) as [answer p'].
  apply preserves_bind;
    [apply _|apply preserves_modify; apply same_session_set_process|].
  intros _. destruct answer; [apply preserves_ret; apply _|].
  apply preserves_bind; [apply _|apply close_same_session|].
  intros _. apply preserves_ret; apply _.
Qed.

Lemma send_extra_infos_same_session infos last :
  preserves same_session (Env.send_extra_infos infos last).
Proof.
  revert last. induction infos as [|info infos IH]; intros last; simpl.
  - apply preserves_ret; apply _.
  - apply preserves_bind; [apply _|apply _send_same_session|]. apply IH.
Qed.

(** [close] always returns. *)
Lemma close_returns e : exists e', Env.close e = (Ok tt, e').
Proof.
  unfold Env.close, Env.game_running. msimpl.
  destruct (Env._process e) as [p|]; [|eauto].
  destruct (poll p) as [[] p']; eauto.
Qed.

(** X14: [close] never raises and touches nothing but the process; it
    leaves no process when it finds one running. An environment without
    process, as it is before the first [reset] and after such a [close],
    does not play: [step] raises [GameNotRunningError], [_send] returns
    nothing, [close] does nothing, and the environment stays as it is. *)
Theorem closed_game_does_not_play e :
  (exists e', Env.close e = (Ok tt, e') /\ same_session e e'
     /\ (forall e1, Env.game_running e = (Ok true, e1) ->
           Env._process e' = None))
  /\ (Env._process e = None ->
      forall command,
        Env.game_running e = (Ok false, e)
        /\ Env.step command e = (Raise GameNotRunningError, e)
        /\ Env._send command e = (Ok None, e)
        /\ Env.close e = (Ok tt, e))
  /\ (forall gamefile g,
        Env._process (Env.GitGlulxMLEnvironment_new gamefile g) = None).
Proof.
  split; [|split; [|done]].
  - destruct (close_returns e) as [e' He']. exists e'.
    split; [done|]. split; [by apply close_same_session in He'|].
    intros e1 Hr. unfold Env.close in He'. msimpl. rewrite Hr in He'.
    by injection He' as <-.
  - intros Hp command.
    assert (Env.game_running e = (Ok false, e)) as Hr
      by (unfold Env.game_running; by rewrite Hp).
    split; [done|]. split; [|split].
    + unfold Env.step. msimpl. by rewrite Hr.
    + by apply _send_not_running.
    + unfold Env.close. msimpl. by rewrite Hr.
Qed.

End Interpreter.

Section Step.
Context `{GameLogic} `{Transport}.

Lemma set_has_timeout_extends_but b (s : GlulxGameState) :
  _command (set_has_timeout b s) = _command s
  /\ _nb_moves (set_has_timeout b s) = _nb_moves s
  /\ previous_state (set_has_timeout b s) = previous_state s
  /\ _max_score (set_has_timeout b s) = _max_score s
  /\ _objective (set_has_timeout b s) = _objective s
  /\ _feedback (set_has_timeout b s) = _feedback s
  /\ _score (set_has_timeout b s) = _score s
  /\ _state_tracking (set_has_timeout b s) = _state_tracking s
  /\ _game_progression (set_has_timeout b s) = _game_progression s
  /\ _extra_infos (set_has_timeout b s) = _extra_infos s
  /\ _action (set_has_timeout b s) = _action s.
Proof. by destruct s. Qed.

(** The way of a [step] that returns: the answer of the interpreter, the
    update of the current snapshot, and the reads on the new one. *)
Lemma step_ok_inv command e gs sc ended e' :
  Env.step command e = (Ok (gs, sc, ended), e') ->
  exists old out sigma old' fresh alive gs1,
    Env.game_state e = Some old
    /\ update (Str.strip command) out (Env.heap e, old)
       = (Ok fresh, (sigma, old'))
    /\ score sigma (set_has_timeout (negb alive) fresh) = (Ok sc, gs1)
    /\ game_ended sigma gs1 = (Ok ended, gs)
    /\ Env.game_state e' = Some gs /\ Env.heap e' = sigma
    /\ same_session e (Env.set_heap (Env.heap e)
                         (Env.set_game_state (Env.game_state e) e')).
Proof.
  intros Hrun. unfold Env.step in Hrun.
  bind_inv Hrun alive0 e0 Hr0.
  destruct alive0; simpl in Hrun; [|discriminate].
  bind_inv Hrun output e1 Hsend.
  destruct output as [out|]; [|discriminate].
  bind_inv Hrun new_state e2 Hup.
  apply on_game_state_ok_inv in Hup as (old & sigma & old' & Hold & Hup & ->).
  bind_inv Hrun u e3 Hset. injection Hset as _ <-.
  bind_inv Hrun alive e4 Hr.
  bind_inv Hrun u2 e5 Hto.
  apply on_game_state_ok_inv in Hto as (gs1 & sigma3 & gs1' & Hgs1 & Hto & ->).
  bind_inv Hrun sc0 e6 Hsc.
  apply on_game_state_ok_inv in Hsc as (gs2 & sigma4 & gs2' & Hgs2 & Hsc & ->).
  bind_inv Hrun ended0 e7 Hend.
  apply on_game_state_ok_inv in Hend as (gs3 & sigma5 & gs3' & Hgs3 & Hend & ->).
  bind_inv Hrun gs4 e8 Hget. apply getattr_ok_inv in Hget as [Hget ->].
  apply ret_ok_inv in Hrun as [[= <- <- <-] ->].
  simpl in Hgs2, Hgs3, Hget. simplify_eq.
  unfold zoom, modify in Hto. simpl in Hto. injection Hto as <- <-.
  apply on_self_ok_inv in Hsc as (gsa & Hsc & [= -> ->]).
  apply on_self_ok_inv in Hend as (gsb & Hend & [= -> ->]).
  simpl in Hsc, Hend.
  pose proof (game_running_same_session _ _ _ Hr0) as S0.
  pose proof (_send_same_session _ _ _ _ Hsend) as S1.
  pose proof (game_running_same_session _ _ _ Hr) as S2.
  assert (same_session e e1) as S01 by (etransitivity; eassumption).
  rewrite (ss_game_state _ _ S01) in Hold.
  rewrite (ss_heap _ _ S01) in Hup.
  assert (Env.game_state e4 = Some new_state) as Hnew
    by (rewrite (ss_game_state _ _ S2); by destruct e1).
  rewrite Hnew in Hgs1. injection Hgs1 as <-.
  assert (Env.heap e4 = sigma) as Hheap
    by (rewrite (ss_heap _ _ S2); by destruct e1).
  rewrite Hheap in Hsc, Hend.
  subst gs2. exists old, out, sigma, old', new_state, alive, gsa.
  repeat (split; [done|]).
  destruct S01, S2. destruct e, e1, e4; simpl in *.
  constructor; simpl; congruence.
Qed.

(** X15: the snapshot that [step] returns records the move: its command is
    the command without surrounding white space, it is one move after the
    snapshot before, which it holds, as a view, as its previous state; the
    objective and the maximal score are kept. The process apart, [step]
    changes the current snapshot and the trackers only. *)
Theorem step_records_move command e gs sc ended e' :
  Env.step command e = (Ok (gs, sc, ended), e') ->
  exists old prev,
    Env.game_state e = Some old
    /\ Env.game_state e' = Some gs
    /\ _command gs = Some (Str.strip command)
    /\ _nb_moves gs = S (_nb_moves old)
    /\ previous_state gs = Some prev
    /\ _nb_moves prev = _nb_moves old
    /\ _command prev = _command old
    /\ _feedback prev = _feedback old
    /\ previous_state prev = previous_state old
    /\ _objective gs = _objective old
    /\ _max_score gs = _max_score old
    /\ Env._state_tracking e' = Env._state_tracking e
    /\ Env._compute_intermediate_reward e'
       = Env._compute_intermediate_reward e
    /\ Env.extra_info e' = Env.extra_info e
    /\ Env.game e' = Env.game e.
Proof.
  intros Hstep.
  apply step_ok_inv in Hstep
    as (old & out & sigma & old' & fresh & alive & gs1
        & Hold & Hup & Hsc & Hend & Hgs & Hheap & Hsame).
  pose proof (score_extends _ _ _ _ Hsc) as E1.
  pose proof (game_ended_extends _ _ _ _ Hend) as E2.
  assert (extends (set_has_timeout (negb alive) fresh) gs) as E
    by (etransitivity; eassumption).
  pose proof (set_has_timeout_extends_but (negb alive) fresh)
    as (T1 & T2 & T3 & T4 & T5 & _).
  apply update_ok_snapshot in Hup
    as (new & text & evs & fb & olds & obj & i7 & game & l & act & _ & _
        & Hext & _ & Hobj & _ & ->).
  exists old, (view_of old').
  split; [done|]. split; [done|].
  rewrite (ext_command _ _ E), (ext_nb_moves _ _ E),
    (ext_previous_state _ _ E), (ext_objective _ _ E), (ext_max_score _ _ E),
    T1, T2, T3, T4, T5.
  destruct Hsame. simpl in *.
  repeat split; try done; try apply Hext.
  by rewrite <- (ext_objective _ _ Hext).
Qed.

(** Where a score that is computed comes from. *)
Lemma score_ok_inv sigma s v s1 :
  score sigma s = (Ok v, s1) -> _score s = None ->
  if _state_tracking s
  then exists l gp,
         _game_progression s = Some l /\ sigma !! l = Some gp
         /\ v = gp_score gp
  else exists facts text,
         _extra_infos s = Some facts /\ facts !! "score" = Some text
         /\ py_int text = Ok v.
Proof.
  unfold score, progression. msimpl. intros Hrun Hc. rewrite Hc in Hrun.
  destruct (_state_tracking s); simpl in Hrun.
  - destruct (_game_progression s) as [l|]; [|done]. simpl in Hrun.
    destruct (sigma !! l) as [gp|] eqn:Hgp; [|done].
    injection Hrun as <- _. eauto.
  - destruct (_extra_infos s) as [facts|]; [|done]. simpl in Hrun.
    destruct (facts !! "score") as [text|] eqn:Ht; [|done].
    destruct (py_int text) as [z|ex] eqn:Hz; [|done].
    injection Hrun as <- _. eauto.
Qed.

(** X16: the score that [step] returns is the score of the snapshot it
    returns, which keeps it. With state tracking it is the score of the
    tracker of the session as the turn leaves it; without state tracking
    it is the integer that the latest score fact holds. *)
Theorem step_score command e gs sc ended e' :
  Env.step command e = (Ok (gs, sc, ended), e') ->
  _score gs = Some sc
  /\ (forall sigma, score sigma gs = (Ok sc, gs))
  /\ exists old,
       Env.game_state e = Some old
       /\ if _state_tracking old
          then exists l gp,
                 _game_progression old = Some l
                 /\ Env.heap e' !! l = Some gp /\ sc = gp_score gp
          else exists facts text,
                 _extra_infos gs = Some facts
                 /\ facts !! "score" = Some text /\ py_int text = Ok sc.
Proof.
  intros Hstep.
  apply step_ok_inv in Hstep
    as (old & out & sigma & old' & fresh & alive & gs1
        & Hold & Hup & Hsc & Hend & Hgs & Hheap & Hsame).
  pose proof (score_extends _ _ _ _ Hsc) as E1.
  pose proof (game_ended_extends _ _ _ _ Hend) as E2.
  assert (_score gs = Some sc) as Hcell
    by (apply (ext_score _ _ E2); by apply score_resolves in Hsc).
  split; [exact Hcell|]. split; [intros sigma0; by apply score_cached|].
  exists old. split; [done|].
  apply update_ok_snapshot in Hup
    as (new & text & evs & fb & olds & obj & i7 & game & l & act & _ & _
        & Hext & _ & _ & Hl & ->).
  apply score_ok_inv in Hsc; [|done]. simpl in Hsc.
  rewrite (ext_state_tracking _ _ Hext) in Hsc.
  destruct (_state_tracking old).
  - destruct Hsc as (l0 & gp & [= <-] & Hgp & ->).
    exists l, gp. rewrite Hheap. split; [|done].
    by rewrite <- (ext_game_progression _ _ Hext).
  - destruct Hsc as (facts & t & [= <-] & Ht & Hz).
    exists (new ∪ olds), t.
    rewrite (ext_extra_infos _ _ E2), (ext_extra_infos _ _ E1). done.
Qed.

End Step.

Section Reset.
Context `{GameLogic} `{Transport}.

Lemma same_session_enable_but info e :
  Env._gamefile (Env.enable_extra_info info e) = Env._gamefile e
  /\ Env._state_tracking (Env.enable_extra_info info e) = Env._state_tracking e
  /\ Env._compute_intermediate_reward (Env.enable_extra_info info e)
     = Env._compute_intermediate_reward e
  /\ Env.game (Env.enable_extra_info info e) = Env.game e
  /\ Env.game_state (Env.enable_extra_info info e) = Env.game_state e
  /\ Env.heap (Env.enable_extra_info info e) = Env.heap e
  /\ Env.extra_info (Env.enable_extra_info info e)
     = {[ info ]} ∪ Env.extra_info e.
Proof. done. Qed.

(** The way of a [reset] that returns: the start of the interpreter, the
    commands that set it up, and the initialisation of a new snapshot
    with a new tracker. *)
Lemma reset_ok_inv e gs e' :
  Env.reset e = (Ok gs, e') ->
  exists output sigma,
    init output (Env.game e) (Env._state_tracking e)
      (Env._compute_intermediate_reward e) (Env.heap e, GlulxGameState_new)
    = (Ok tt, (sigma, gs))
    /\ Env.game_state e' = Some gs /\ Env.heap e' = sigma
    /\ Env._gamefile e' = Env._gamefile e
    /\ Env._state_tracking e' = Env._state_tracking e
    /\ Env._compute_intermediate_reward e' = Env._compute_intermediate_reward e
    /\ Env.game e' = Env.game e
    /\ Env.extra_info e'
       = (if Env._state_tracking e then Env.extra_info e
          else {[ "score" ]} ∪ Env.extra_info e).
Proof.
  intros Hrun. unfold Env.reset in Hrun.
  bind_inv Hrun alive e0 Hr0.
  bind_inv Hrun u0 e1 Hc0.
  gets_inv Hrun gamefile.
  destruct (get_output_nosend (Popen (Env._gamefile e1)))
    as [[start_output|] p] eqn:Hstart.
  2:{ bind_inv Hrun u e2 Hm. bind_inv Hrun u' e3 Hcl. discriminate. }
  bind_inv Hrun u1 e2 Hm. injection Hm as _ <-.
  gets_inv Hrun tracking.
  bind_inv Hrun u2 e3 Hen.
  bind_inv Hrun answer e4 Htrace.
  gets_inv Hrun infos.
  bind_inv Hrun extra e5 Hinfos.
  destruct extra as [extra|]; [|discriminate].
  bind_inv Hrun u3 e6 Hnew. injection Hnew as _ <-.
  gets_inv Hrun g. gets_inv Hrun ci.
  bind_inv Hrun u4 e7 Hinit.
  apply on_game_state_ok_inv in Hinit as (gs0 & sigma & gs1 & Hgs0 & Hinit & ->).
  apply getattr_ok_inv in Hrun as [Hget ->].
  simpl in Hgs0, Hget. injection Hgs0 as <-. injection Hget as <-.
  (* the environment along the way *)
  pose proof (game_running_same_session _ _ _ Hr0) as S0.
  assert (same_session e0 e1) as S1.
  { destruct alive; [eapply close_same_session, Hc0|].
    apply ret_ok_inv in Hc0 as [_ ->]. reflexivity. }
  assert (same_session e e1) as S01 by (etransitivity; eassumption).
  pose proof (_send_same_session _ _ _ _ Htrace) as S3.
  pose proof (send_extra_infos_same_session _ _ _ _ _ Hinfos) as S4.
  assert (same_session e3 e5) as S35 by (etransitivity; eassumption).
  assert (same_session e (Env.set_process (Some p) e1)) as S02
    by (etransitivity; [exact S01|apply same_session_set_process]).
  assert (Env._state_tracking e1 = Env._state_tracking e) as Ht
    by apply S01.
  assert (Env._state_tracking e3 = Env._state_tracking e
          /\ Env._compute_intermediate_reward e3
             = Env._compute_intermediate_reward e
          /\ Env.game e3 = Env.game e /\ Env.heap e3 = Env.heap e
          /\ Env._gamefile e3 = Env._gamefile e
          /\ Env.extra_info e3
             = (if Env._state_tracking e then Env.extra_info e
                else {[ "score" ]} ∪ Env.extra_info e))
    as (Ht3 & Hc3 & Hg3 & Hh3 & Hf3 & Hx3).
  { simpl in Hen. rewrite Ht in Hen.
    destruct (Env._state_tracking e); simpl in Hen.
    - apply ret_ok_inv in Hen as [_ ->].
      repeat split; first [exact Ht|apply S02].
    - injection Hen as _ <-.
      pose proof (same_session_enable_but "score" (Env.set_process (Some p) e1))
        as (E1 & E2 & E3 & E4 & E5 & E6 & E7).
      rewrite E1, E2, E3, E4, E6, E7.
      repeat split; first [exact Ht|apply S02|f_equal; apply S02]. }
  simpl in Hinit.
  rewrite (ss_heap _ _ S35), Hh3, (ss_game _ _ S35), Hg3,
    (ss_compute_intermediate_reward _ _ S35), Hc3 in Hinit.
  change (Env._state_tracking (Env.set_process (Some p) e1))
    with (Env._state_tracking e1) in Hinit.
  rewrite Ht in Hinit.
  destruct u4. eexists _, sigma. split; [exact Hinit|]. simpl.
  rewrite (ss_gamefile _ _ S35), (ss_state_tracking _ _ S35),
    (ss_compute_intermediate_reward _ _ S35), (ss_game _ _ S35),
    (ss_extra_info _ _ S35).
  done.
Qed.

(** X17: the snapshot that [reset] returns is the first one of a new
    session, whatever was played before: no move, no command, no previous
    state, no timeout, a score of 0 and nothing else resolved. It carries
    the capabilities of the environment, the intermediate reward only for
    a game with quests, the objective of the game and the maximal score
    of its new tracker, and it is the current snapshot. *)
Theorem reset_fresh_snapshot e gs e' :
  Env.reset e = (Ok gs, e') ->
  Env.game_state e' = Some gs
  /\ _nb_moves gs = 0%nat /\ _command gs = None /\ previous_state gs = None
  /\ has_timeout gs = false /\ _action gs = None
  /\ _score gs = Some 0
  /\ _has_won gs = None /\ _has_lost gs = None /\ _state gs = None
  /\ _admissible_commands gs = None /\ _policy_commands gs = None
  /\ _state_tracking gs = Env._state_tracking e
  /\ _compute_intermediate_reward gs
     = Env._compute_intermediate_reward e
       && (0 <? length (game_quests (Env.game e)))%nat
  /\ _objective gs = Some (game_objective (Env.game e))
  /\ _max_score gs
     = gp_max_score
         (GameProgression_new (Env.game e) (Env._state_tracking e)).
Proof.
  intros Hreset.
  apply reset_ok_inv in Hreset as (output & sigma & Hinit & Hgs & _).
  apply init_result in Hinit as (infos & text & _ & ->).
  by repeat split.
Qed.

(** X18: a [reset] that returns gives the session a tracker of its own,
    put after the trackers there are, which it leaves as they are;
    without state tracking it enables the score fact, for this session
    and the ones to come, and with state tracking it enables nothing;
    the game file, the game and the capabilities stay. *)
Theorem reset_new_session e gs e' :
  Env.reset e = (Ok gs, e') ->
  Env.heap e'
  = Env.heap e ++ [GameProgression_new (Env.game e) (Env._state_tracking e)]
  /\ _game_progression gs = Some (length (Env.heap e))
  /\ (forall l gp, Env.heap e !! l = Some gp -> Env.heap e' !! l = Some gp)
  /\ Env.extra_info e'
     = (if Env._state_tracking e then Env.extra_info e
        else {[ "score" ]} ∪ Env.extra_info e)
  /\ Env._gamefile e' = Env._gamefile e
  /\ Env.game e' = Env.game e
  /\ Env._state_tracking e' = Env._state_tracking e
  /\ Env._compute_intermediate_reward e' = Env._compute_intermediate_reward e.
Proof.
  intros Hreset.
  apply reset_ok_inv in Hreset
    as (output & sigma & Hinit & Hgs & Hheap & Hfile & Ht & Hci & Hg & Hx).
  apply init_result in Hinit as (infos & text & -> & ->).
  rewrite Hheap. repeat split; try done.
  intros l gp Hl. unfold store in *. by apply lookup_app_l_Some.
Qed.

(** X19: when the interpreter gives no output as it starts, [reset] raises
    [ValueError]; the current snapshot, the trackers and the facts that
    are enabled stay as they were. *)
Theorem reset_start_failure e :
  fst (get_output_nosend (Popen (Env._gamefile e))) = None ->
  exists e', Env.reset e = (Raise ValueError, e') /\ same_session e e'.
Proof.
  intros Hnull. unfold Env.reset, bind.
  destruct (Env.game_running e) as [[alive|ex] e0] eqn:Hr0.
  2:{ unfold Env.game_running in Hr0.
      destruct (Env._process e) as [p0|]; [destruct (poll p0)|]; done. }
  pose proof (game_running_same_session _ _ _ Hr0) as S0.
  assert (exists e1, (if alive then Env.close else ret tt) e0 = (Ok tt, e1)
                     /\ same_session e0 e1) as (e1 & -> & S1).
  { destruct alive.
    - destruct (close_returns e0) as [e1 He1]. exists e1.
      split; [done|]. eapply close_same_session, He1.
    - by exists e0. }
  unfold gets.
  assert (Env._gamefile e1 = Env._gamefile e) as ->
    by (rewrite (ss_gamefile _ _ S1); apply S0).
  destruct (get_output_nosend (Popen (Env._gamefile e))) as [answer p].
  simpl in Hnull. subst answer. unfold modify.
  destruct (close_returns (Env.set_process (Some p) e1)) as [e2 He2].
  rewrite He2. exists e2. split; [done|].
  etransitivity; [exact S0|]. etransitivity; [exact S1|].
  etransitivity; [apply (same_session_set_process (Some p))|].
  eapply close_same_session, He2.
Qed.

End Reset.
(** ** The score that the interpreter prints *)

Section PrintedScore.

Lemma lstrip_blank ws r : blank ws = true -> Str.lstrip (ws +:+ r) = Str.lstrip r.
Proof.
  induction ws as [|c ws IH]; [done|]. cbn [blank]. intros Hb.
  apply andb_true_iff in Hb as [Hc Hb].
  rewrite app_cons. cbn [Str.lstrip]. rewrite Hc. by apply IH.
Qed.

Lemma rstrip_blank ws : blank ws = true -> Str.rstrip ws = "".
Proof.
  induction ws as [|c ws IH]; [done|]. cbn [blank]. intros Hb.
  apply andb_true_iff in Hb as [Hc Hb].
  cbn [Str.rstrip]. by rewrite (IH Hb), Hc.
Qed.

Lemma rstrip_app_blank u ws :
  blank ws = true -> Str.rstrip (u +:+ ws) = Str.rstrip u.
Proof.
  intros Hb. induction u as [|c u IH].
  - rewrite app_nil_l. by apply rstrip_blank.
  - rewrite app_cons. cbn [Str.rstrip]. by rewrite IH.
Qed.

Lemma rstrip_solid u : solid u = true -> Str.rstrip u = u.
Proof.
  induction u as [|c u IH]; [done|]. cbn [solid]. intros Hs.
  apply andb_true_iff in Hs as [Hc Hs]. apply negb_true_iff in Hc.
  cbn [Str.rstrip]. rewrite (IH Hs). destruct u; [by rewrite Hc|done].
Qed.

Lemma strip_solid ws1 u ws2 :
  blank ws1 = true -> blank ws2 = true -> solid u = true ->
  Str.strip (ws1 +:+ u +:+ ws2) = u.
Proof.
  intros H1 H2 Hu. unfold Str.strip. rewrite (lstrip_blank _ _ H1).
  destruct u as [|c u].
  - rewrite app_nil_l.
    assert (Str.lstrip ws2 = "") as ->; [|done].
    clear -H2. induction ws2 as [|c ws IH]; [done|]. cbn [blank] in H2.
    apply andb_true_iff in H2 as [Hc Hb]. cbn [Str.lstrip]. rewrite Hc. auto.
  - rewrite app_cons. cbn [Str.lstrip].
    cbn [solid] in Hu. pose proof Hu as Hu'.
    apply andb_true_iff in Hu as [Hc _]. apply negb_true_iff in Hc.
    rewrite Hc, <- app_cons, (rstrip_app_blank _ _ H2).
    by apply rstrip_solid.
Qed.

Lemma digit_char_value d :
  (d < 10)%nat ->
  digit_value (digit_char d) = Some (Z.of_nat d)
  /\ Str.is_space (digit_char d) = false
  /\ Str.ascii_eqb (digit_char d) "-" = false
  /\ Str.ascii_eqb (digit_char d) "+" = false.
Proof.
  intros Hd. do 10 (destruct d as [|d]; [done|]). lia.
Qed.

Lemma digits_solid ds : Forall (fun d => (d < 10)%nat) ds -> solid (digits_text ds) = true.
Proof.
  induction 1 as [|d ds Hd _ IH]; [done|]. cbn [digits_text solid].
  destruct (digit_char_value d Hd) as (_ & -> & _). by rewrite IH.
Qed.

Lemma int_digits_decimal ds :
  Forall (fun d => (d < 10)%nat) ds ->
  forall acc after_digit,
    ds <> [] \/ after_digit = true ->
    int_digits acc after_digit (digits_text ds)
    = Some (fold_left (fun acc d => 10 * acc + Z.of_nat d) ds acc).
Proof.
  induction 1 as [|d ds Hd _ IH]; intros acc b Hne.
  - destruct Hne as [Hne| ->]; done.
  - cbn [digits_text int_digits fold_left].
    destruct (digit_char_value d Hd) as (-> & _). apply IH. by right.
Qed.

Lemma int_lstrip_blank ws r :
  int_blank ws = true -> int_lstrip (ws +:+ r) = int_lstrip r.
Proof.
  induction ws as [|c ws IH]; [done|]. cbn [int_blank]. intros Hb.
  apply andb_true_iff in Hb as [Hc Hb].
  rewrite app_cons. cbn [int_lstrip]. rewrite Hc. by apply IH.
Qed.

Lemma int_lstrip_blank_nil ws : int_blank ws = true -> int_lstrip ws = "".
Proof.
  induction ws as [|c ws IH]; [done|]. cbn [int_blank int_lstrip]. intros Hb.
  apply andb_true_iff in Hb as [-> Hb]. by apply IH.
Qed.

Lemma int_rstrip_blank ws : int_blank ws = true -> int_rstrip ws = "".
Proof.
  induction ws as [|c ws IH]; [done|]. cbn [int_blank]. intros Hb.
  apply andb_true_iff in Hb as [Hc Hb].
  cbn [int_rstrip]. by rewrite (IH Hb), Hc.
Qed.

Lemma int_rstrip_app_blank u ws :
  int_blank ws = true -> int_rstrip (u +:+ ws) = int_rstrip u.
Proof.
  intros Hb. induction u as [|c u IH].
  - rewrite app_nil_l. by apply int_rstrip_blank.
  - rewrite app_cons. cbn [int_rstrip]. by rewrite IH.
Qed.

Lemma int_rstrip_solid u : int_solid u = true -> int_rstrip u = u.
Proof.
  induction u as [|c u IH]; [done|]. cbn [int_solid]. intros Hs.
  apply andb_true_iff in Hs as [Hc Hs]. apply negb_true_iff in Hc.
  cbn [int_rstrip]. rewrite (IH Hs). destruct u; [by rewrite Hc|done].
Qed.

Lemma int_strip_solid ws1 u ws2 :
  int_blank ws1 = true -> int_blank ws2 = true -> int_solid u = true ->
  int_rstrip (int_lstrip (ws1 +:+ u +:+ ws2)) = u.
Proof.
  intros H1 H2 Hu. rewrite (int_lstrip_blank _ _ H1).
  destruct u as [|c u].
  - rewrite app_nil_l. by rewrite (int_lstrip_blank_nil _ H2).
  - rewrite app_cons. cbn [int_lstrip].
    cbn [int_solid] in Hu. pose proof Hu as Hu'.
    apply andb_true_iff in Hu as [Hc _]. apply negb_true_iff in Hc.
    rewrite Hc, <- app_cons, (int_rstrip_app_blank _ _ H2).
    by apply int_rstrip_solid.
Qed.

Lemma digit_char_int_solid d :
  (d < 10)%nat -> is_int_space (digit_char d) = false.
Proof. intros Hd. do 10 (destruct d as [|d]; [done|]). lia. Qed.

Lemma digits_int_solid ds :
  Forall (fun d => (d < 10)%nat) ds -> int_solid (digits_text ds) = true.
Proof.
  induction 1 as [|d ds Hd _ IH]; [done|]. cbn [digits_text int_solid].
  by rewrite (digit_char_int_solid d Hd), IH.
Qed.

(** [int] reads a numeral with its sign between white space. *)
Lemma py_int_printed_number ws1 negative ds ws2 :
  ds <> [] -> Forall (fun d => (d < 10)%nat) ds ->
  int_blank ws1 = true -> int_blank ws2 = true ->
  py_int (printed_number ws1 negative ds ws2) = Ok (signed_value negative ds).
Proof.
  intros Hne Hds H1 H2. unfold py_int, printed_number, signed_value.
  assert (int_solid ((if negative then "-" else "") +:+ digits_text ds) = true)
    as Hsolid by (destruct negative; [cbn|rewrite app_nil_l];
                  by apply digits_int_solid).
  rewrite <- (app_assoc (if negative then "-" else "")).
  rewrite (int_strip_solid _ _ _ H1 H2 Hsolid).
  pose proof (int_digits_decimal ds Hds 0 false (or_introl Hne)) as Hint.
  fold (digits_value ds) in Hint.
  destruct negative.
  - change ("-" +:+ digits_text ds) with (String "-" (digits_text ds)).
    cbn beta iota. change (Str.ascii_eqb "-" "-") with true. cbn iota.
    by rewrite Hint.
  - rewrite app_nil_l. destruct ds as [|d ds]; [done|].
    apply Forall_cons in Hds as [Hd _].
    destruct (digit_char_value d Hd) as (_ & _ & Hm & Hp).
    cbn [digits_text] in *. cbn beta iota. by rewrite Hm, Hp, Hint.
Qed.

Lemma int_rstrip_head c t :
  is_int_space c = false -> exists r, int_rstrip (String c t) = String c r.
Proof.
  intros Hc. cbn [int_rstrip]. rewrite Hc.
  destruct (int_rstrip t); eauto.
Qed.

(** [int] does not skip the separators that [str.strip()] removes. *)
Lemma py_int_separator c text :
  Str.is_space c = true -> is_int_space c = false ->
  py_int (String c text) = Raise ValueError.
Proof.
  intros Hs Hi. unfold py_int. cbn [int_lstrip]. rewrite Hi.
  destruct (int_rstrip_head c text Hi) as [r ->].
  destruct c as [[] [] [] [] [] [] [] []]; done.
Qed.

End PrintedScore.

Section ScoreFact.
Context `{GameLogic}.

(** X20: without state tracking, the score of a snapshot is the number
    that the interpreter has printed in the score block: when the score
    fact is a decimal numeral of at most 4300 digits (the limit that
    recent interpreters put on the conversion by default), with or
    without a minus sign, with white space that [int()] skips around it,
    such as the line feed of the block, the first read of [score]
    returns the number it denotes and keeps it. A fact that starts with
    one of the separator characters that [str.strip()] removes and
    [int()] does not skip makes [score] raise [ValueError], and nothing
    is kept. *)
Theorem score_reads_printed_number sigma s facts :
  _score s = None -> _state_tracking s = false ->
  _extra_infos s = Some facts ->
  (forall ws1 negative ds ws2,
     facts !! "score" = Some (printed_number ws1 negative ds ws2) ->
     ds <> [] -> Forall (fun d => (d < 10)%nat) ds ->
     (length ds <= 4300)%nat ->
     int_blank ws1 = true -> int_blank ws2 = true ->
     score sigma s
     = (Ok (signed_value negative ds),
        set_score (Some (signed_value negative ds)) s)
     /\ (forall sigma',
           score sigma' (set_score (Some (signed_value negative ds)) s)
           = (Ok (signed_value negative ds),
              set_score (Some (signed_value negative ds)) s)))
  /\ (forall c text,
        facts !! "score" = Some (String c text) ->
        Str.is_space c = true -> is_int_space c = false ->
        score sigma s = (Raise ValueError, s)).
Proof.
  intros Hc Ht Hf. split.
  - intros ws1 negative ds ws2 Hs Hne Hds _ H1 H2. split.
    + unfold score. msimpl. rewrite Hc, Ht. simpl. rewrite Hf. simpl.
      rewrite Hs. by rewrite (py_int_printed_number _ _ _ _ Hne Hds H1 H2).
    + intros sigma'. apply score_cached. apply set_score_get.
  - intros c text Hs Hsp Hint.
    unfold score. msimpl. rewrite Hc, Ht. simpl. rewrite Hf. simpl.
    rewrite Hs. by rewrite (py_int_separator _ _ Hsp Hint).
Qed.

End ScoreFact.
(** ** The feedback of the command *)

Section Spaced.

Lemma lstrip_head s c r : Str.lstrip s = String c r -> Str.is_space c = false.
Proof.
  induction s as [|x s IH]; [done|]. cbn [Str.lstrip].
  destruct (Str.is_space x) eqn:Hx; [done|]. by intros [= <- _].
Qed.

Lemma lstrip_solid_head c r :
  Str.is_space c = false -> Str.lstrip (String c r) = String c r.
Proof. intros Hc. cbn [Str.lstrip]. by rewrite Hc. Qed.

Lemma rstrip_head c t :
  Str.is_space c = false -> exists r, Str.rstrip (String c t) = String c r.
Proof.
  intros Hc. cbn [Str.rstrip]. destruct (Str.rstrip t); rewrite ?Hc; eauto.
Qed.

(** A stripped text that is not empty starts with a character that is no
    white space. *)
Lemma strip_head s c r : Str.strip s = String c r -> Str.is_space c = false.
Proof.
  unfold Str.strip. destruct (Str.lstrip s) as [|x t] eqn:Hl; [done|].
  apply lstrip_head in Hl. destruct (rstrip_head x t Hl) as [r' ->].
  by intros [= <- _].
Qed.

Lemma rstrip_idem t : Str.rstrip (Str.rstrip t) = Str.rstrip t.
Proof.
  induction t as [|c t IH]; [done|]. cbn [Str.rstrip].
  destruct (Str.rstrip t) as [|x r] eqn:Hr.
  - destruct (Str.is_space c) eqn:Hc; [done|]. cbn [Str.rstrip]. by rewrite Hc.
  - cbn [Str.rstrip]. cbn [Str.rstrip] in IH.
    by destruct (Str.rstrip r); rewrite IH.
Qed.

Lemma strip_idem s : Str.strip (Str.strip s) = Str.strip s.
Proof.
  destruct (Str.strip s) as [|c r] eqn:Hs; [done|].
  pose proof (strip_head _ _ _ Hs) as Hc.
  unfold Str.strip at 1. rewrite (lstrip_solid_head _ _ Hc), <- Hs.
  unfold Str.strip. apply rstrip_idem.
Qed.

Lemma re_sub_spaced_nil lit : re_sub_spaced lit "" = "".
Proof. done. Qed.

Lemma remove_spaced_nil what : remove_spaced what "" = "".
Proof. unfold remove_spaced. by destruct (0 <? _)%nat. Qed.

Lemma lstrip_blank_nil ws : blank ws = true -> Str.lstrip ws = "".
Proof.
  induction ws as [|c ws IH]; [done|]. cbn [blank Str.lstrip]. intros Hb.
  apply andb_true_iff in Hb as [-> Hb]. auto.
Qed.

(** A text that is the literal and white space is deleted whole. *)
Lemma re_sub_spaced_only lit ws1 ws2 c r :
  lit = String c r -> Str.is_space c = false ->
  blank ws1 = true -> blank ws2 = true ->
  re_sub_spaced lit (ws1 +:+ lit +:+ ws2) = "".
Proof.
  intros Hlit Hc H1 H2. unfold re_sub_spaced.
  destruct (ws1 +:+ lit +:+ ws2) as [|x t] eqn:Ht; [done|].
  cbn [String.length re_sub_spaced_fuel].
  assert (match_spaced_at lit (String x t) = Some "") as ->.
  { rewrite <- Ht. unfold match_spaced_at.
    rewrite (lstrip_blank _ _ H1). subst lit.
    rewrite (app_cons c r ws2), (lstrip_solid_head _ _ Hc), <- (app_cons c r ws2).
    by rewrite startswith_app, drop_app_length, (lstrip_blank_nil _ H2). }
  by destruct (String.length t).
Qed.

Lemma remove_spaced_only what ws1 ws2 :
  (0 < String.length (Str.strip what))%nat ->
  blank ws1 = true -> blank ws2 = true ->
  remove_spaced what (ws1 +:+ Str.strip what +:+ ws2) = "".
Proof.
  intros Hlen H1 H2. unfold remove_spaced.
  apply Nat.ltb_lt in Hlen as Hlen'. rewrite Hlen'.
  destruct (Str.strip what) as [|c r] eqn:Hs; [simpl in Hlen; lia|].
  rewrite <- Hs. eapply re_sub_spaced_only; [exact Hs| |done..].
  by apply strip_head in Hs.
Qed.

End Spaced.

Section CommandFeedback.
Context `{GameLogic}.

Lemma description_ok_inv s d s1 :
  SideChannel.description s = (Ok d, s1) ->
  _feedback s1 = _feedback s /\ _nb_moves s1 = _nb_moves s
  /\ _objective s1 = _objective s /\ _inventory s1 = _inventory s
  /\ _extra_infos s1 = _extra_infos s /\ _description s1 = Some d
  /\ (_description s = Some d
      \/ _description s = None
         /\ exists facts, _extra_infos s = Some facts
                          /\ facts !! "description" = Some d).
Proof.
  unfold SideChannel.description. msimpl.
  destruct (_description s) as [d0|] eqn:Hd.
  - intros [= <- <-]. rewrite Hd. repeat split; auto.
  - destruct (_extra_infos s) as [facts|] eqn:Hf; [|done]. simpl.
    destruct (facts !! "description") as [d0|] eqn:Hl; [|done].
    intros [= <- <-]. destruct s; simpl in *. repeat split; eauto.
Qed.

Lemma inventory_ok_inv s i s1 :
  SideChannel.inventory s = (Ok i, s1) ->
  _feedback s1 = _feedback s /\ _nb_moves s1 = _nb_moves s
  /\ _objective s1 = _objective s /\ _description s1 = _description s
  /\ _inventory s1 = Some i.
Proof.
  unfold SideChannel.inventory. msimpl.
  destruct (_inventory s) as [i0|] eqn:Hd.
  - intros [= <- <-]. rewrite Hd. repeat split; auto.
  - destruct (_extra_infos s) as [facts|] eqn:Hf; [|done]. simpl.
    destruct (facts !! "inventory") as [i0|] eqn:Hl; [|done].
    intros [= <- <-]. destruct s; simpl in *. repeat split; eauto.
Qed.

(** The way of a first read that returns. *)
Lemma command_feedback_ok_inv s v w' :
  SideChannel.command_feedback (s, None) = (Ok v, w') ->
  exists d i o s1 s2,
    SideChannel.description s = (Ok d, s1)
    /\ SideChannel.inventory s1 = (Ok i, s2)
    /\ _objective s = Some o
    /\ v = Str.strip
             (remove_spaced o
                (remove_spaced i
                   (remove_spaced d
                      (if (_nb_moves s =? 0)%nat then "" else _feedback s))))
    /\ w' = (s2, Some v).
Proof.
  unfold SideChannel.command_feedback, feedback, nb_moves, objective.
  intros Hrun. cbv zeta in Hrun.
  bind_inv Hrun cached w0 Hc. apply gets_ok_inv in Hc as [-> ->].
  cbn [snd] in Hrun.
  bind_inv Hrun fb w0 Hfb. unfold zoom, gets in Hfb. simpl in Hfb.
  injection Hfb as <- <-.
  bind_inv Hrun nb w0 Hnb. unfold zoom, gets in Hnb. simpl in Hnb.
  injection Hnb as <- <-.
  bind_inv Hrun d w1 Hd. unfold zoom in Hd. simpl in Hd.
  destruct (SideChannel.description s) as [rd s1] eqn:Hds.
  injection Hd as -> <-.
  bind_inv Hrun i w2 Hi. unfold zoom in Hi. simpl in Hi.
  destruct (SideChannel.inventory s1) as [ri s2] eqn:His.
  injection Hi as -> <-.
  bind_inv Hrun o w3 Ho. unfold zoom, getattr in Ho. simpl in Ho.
  destruct (_objective s2) as [o'|] eqn:Hos; [|done].
  injection Ho as <- <-.
  bind_inv Hrun u w4 Hm. injection Hm as _ <-.
  apply ret_ok_inv in Hrun as [-> ->]. simpl.
  apply description_ok_inv in Hds as Hd'.
  apply inventory_ok_inv in His as Hi'.
  destruct Hd' as (_ & _ & Ho1 & _). destruct Hi' as (_ & _ & Ho2 & _).
  exists d, i, o', s1, s2. repeat split; try done. congruence.
Qed.

(** X22: on a snapshot of the first move, before any command, the feedback
    of the command is empty, whatever the interpreter has printed; and it
    is read only when the description is known: when the description
    was not read before and there is no description fact, the property
    raises [ExtraInfosIsMissingError], on the first move as on the later
    ones. A value that was computed is returned as it is. *)
Theorem command_feedback_first_move s :
  (forall v w',
     SideChannel.command_feedback (s, None) = (Ok v, w') ->
     _nb_moves s = 0%nat -> v = "" /\ snd w' = Some "")
  /\ (forall facts,
        _description s = None -> _extra_infos s = Some facts ->
        facts !! "description" = None ->
        SideChannel.command_feedback (s, None)
        = (Raise (ExtraInfosIsMissingError "description"), (s, None)))
  /\ (forall v,
        SideChannel.command_feedback (s, Some v) = (Ok v, (s, Some v))).
Proof.
  split; [|split; [|done]].
  - intros v w' Hrun Hnb.
    apply command_feedback_ok_inv in Hrun
      as (d & i & o & s1 & s2 & _ & _ & _ & -> & ->).
    rewrite Hnb. cbn [Nat.eqb]. by rewrite !remove_spaced_nil.
  - intros facts Hd Hf Hl.
    unfold SideChannel.command_feedback, SideChannel.description, feedback,
      nb_moves. msimpl. rewrite Hd, Hf. simpl. rewrite Hl. by destruct s.
Qed.

(** X23: the feedback of the command has no white space at its ends, and
    it is kept: the next read returns it. When the feedback of the
    interpreter is the description of the room and white space, nothing
    is left of it. *)
Theorem command_feedback_stripped s v w' :
  SideChannel.command_feedback (s, None) = (Ok v, w') ->
  Str.strip v = v
  /\ SideChannel.command_feedback w' = (Ok v, w')
  /\ (forall d s1 ws1 ws2,
        SideChannel.description s = (Ok d, s1) ->
        (0 < String.length (Str.strip d))%nat ->
        blank ws1 = true -> blank ws2 = true ->
        _feedback s = ws1 +:+ Str.strip d +:+ ws2 ->
        v = "").
Proof.
  intros Hrun.
  apply command_feedback_ok_inv in Hrun
    as (d & i & o & s1 & s2 & Hd & Hi & Ho & -> & ->).
  split; [apply strip_idem|]. split; [done|].
  intros d' s1' ws1 ws2 Hd' Hlen H1 H2 Hfb.
  rewrite Hd in Hd'. injection Hd' as <- <-.
  destruct (_nb_moves s =? 0)%nat.
  - by rewrite !remove_spaced_nil.
  - by rewrite Hfb, remove_spaced_only, !remove_spaced_nil.
Qed.

End CommandFeedback.
(** ** The three blocks together *)

Section ThreeBlocks.

(** A text without the first character of [sep] is passed over by the
    search. *)
Lemma find_after_plain c0 sep' pre rest :
  has_char c0 pre = false ->
  Str.find (String c0 sep') (pre +:+ String c0 sep' +:+ rest)
  = Some (String.length pre).
Proof.
  intros Hpre. induction pre as [|x pre IH].
  - rewrite app_nil_l, app_cons. cbn [Str.find].
    by rewrite <- app_cons, startswith_app.
  - apply has_char_cons_false in Hpre as [Hx Hpre].
    rewrite app_cons. cbn [Str.find Str.startswith].
    assert (Str.ascii_eqb c0 x = false) as ->
      by (apply ascii_eqb_neq; congruence).
    cbn [andb]. by rewrite IH.
Qed.

Lemma contains_plain c0 sep' u s :
  has_char c0 u = false ->
  Str.contains (String c0 sep') (u +:+ s) = Str.contains (String c0 sep') s.
Proof.
  intros Hu. apply contains_app_no_start. intros c Hc r.
  cbn [Str.startswith].
  assert (Str.ascii_eqb c0 c = false) as ->; [|done].
  apply ascii_eqb_neq. intros ->. by rewrite Hc in Hu.
Qed.

(** A tag that [sep] does not start is passed over as well. *)
Lemma contains_skip c0 sep' lit' s :
  has_char c0 lit' = false ->
  Str.startswith (String c0 sep') (String c0 lit' +:+ s) = false ->
  Str.contains (String c0 sep') (String c0 lit' +:+ s)
  = Str.contains (String c0 sep') s.
Proof.
  intros Hlit Hs. rewrite app_cons, contains_cons, <- app_cons, Hs.
  by apply contains_plain.
Qed.

Lemma open_tag_cons tag :
  open_tag tag = String "<" (tag +:+ ">" +:+ Str.nl).
Proof. done. Qed.

Lemma close_tag_cons tag :
  close_tag tag = String "<" (String "/" (tag +:+ ">")).
Proof. done. Qed.

(** A block of another tag holds no tag of this one. *)
Lemma contains_skip_block sep' tag inner s :
  has_char "<" tag = false -> has_char "<" inner = false ->
  (forall x, Str.startswith (String "<" sep') (open_tag tag +:+ x) = false) ->
  (forall x, Str.startswith (String "<" sep') (close_tag tag +:+ x) = false) ->
  Str.contains (String "<" sep') (block tag inner +:+ s)
  = Str.contains (String "<" sep') s.
Proof.
  intros Htag Hinner Hopen Hclose. unfold block. rewrite !app_assoc.
  pose proof (Hopen (inner +:+ close_tag tag +:+ s)) as Ho.
  pose proof (Hclose s) as Hc.
  rewrite open_tag_cons in *. rewrite close_tag_cons in *.
  rewrite contains_skip; [|by rewrite !has_char_app, Htag|exact Ho].
  rewrite contains_plain by done.
  rewrite contains_skip; [done| |exact Hc].
  by rewrite has_char_cons, has_char_app, Htag.
Qed.

Lemma contains_plain_end c0 sep' u :
  has_char c0 u = false -> Str.contains (String c0 sep') u = false.
Proof.
  intros Hu. rewrite <- (app_nil_r u). by rewrite contains_plain.
Qed.

(** The round of the loop for a tag, on a text that has one block of the
    tag, after a text without angle bracket. *)
Lemma extra_infos_step_block facts tag pre inner post :
  has_char "<" tag = false ->
  has_char "<" pre = false ->
  Str.contains (close_tag tag) post = false ->
  extra_infos_step (facts, pre +:+ block tag inner +:+ post) tag
  = match _detect_i7_events_debug_tags inner with
    | Ok (_, cleaned) => Ok (<[tag := cleaned]> facts, pre +:+ post)
    | Raise e => Raise e
    end.
Proof.
  intros Htag Hpre Hpost.
  assert (re_search_block tag (pre +:+ block tag inner +:+ post)
          = Some (pre, inner, post)) as Hsearch.
  { unfold re_search_block, block. rewrite !app_assoc.
    rewrite split_first_at
      by (rewrite open_tag_cons; by apply find_after_plain).
    rewrite split_last_at; [done|done|].
    rewrite close_tag_cons in *.
    rewrite (app_cons "<" _ post). cbn [Str.drop].
    rewrite contains_plain; [exact Hpost|].
    rewrite has_char_cons, has_char_app, Htag. done. }
  unfold extra_infos_step. rewrite Hsearch.
  destruct (_detect_i7_events_debug_tags inner) as [[evs cleaned]|e]; [|done].
  cbn [rbind]. by rewrite (re_sub_block_found _ _ _ _ _ Hsearch).
Qed.

(** X24: when the output holds the three blocks, description, inventory
    and score in this order, and no angle bracket besides their tags,
    [_detect_extra_infos] returns the three facts, each the inner text of
    its block without its event tags, and the text before, between and
    after the blocks; a block takes nothing from another one. When the
    scan of an inner text raises, so does the function. *)
Theorem three_blocks_extracted p0 d p1 i p2 s p3 :
  has_char "<" p0 = false -> has_char "<" p1 = false ->
  has_char "<" p2 = false -> has_char "<" p3 = false ->
  has_char "<" d = false -> has_char "<" i = false ->
  has_char "<" s = false ->
  _detect_extra_infos (three_blocks p0 d p1 i p2 s p3)
  = (try! '(_, cd) := _detect_i7_events_debug_tags d in
     try! '(_, ci) := _detect_i7_events_debug_tags i in
     try! '(_, cs) := _detect_i7_events_debug_tags s in
     Ok ({[ "description" := cd; "inventory" := ci; "score" := cs ]},
         p0 +:+ p1 +:+ p2 +:+ p3)).
Proof.
  intros H0 H1 H2 H3 Hd Hi Hs.
  unfold _detect_extra_infos, extra_info_tags, three_blocks.
  cbn [extra_infos_loop].
  (* the description *)
  rewrite extra_infos_step_block; [|done|done|].
  2:{ rewrite close_tag_cons, contains_plain by done.
      rewrite contains_skip_block by done.
      rewrite contains_plain by done.
      rewrite contains_skip_block by done.
      by apply contains_plain_end. }
  destruct (_detect_i7_events_debug_tags d) as [[ed cd]|e]; [|done].
  cbn [rbind].
  (* the inventory *)
  rewrite <- (app_assoc p0 p1).
  rewrite extra_infos_step_block; [|done|by rewrite has_char_app, H0, H1|].
  2:{ rewrite close_tag_cons, contains_plain by done.
      rewrite contains_skip_block by done.
      by apply contains_plain_end. }
  destruct (_detect_i7_events_debug_tags i) as [[ei ci]|e]; [|done].
  cbn [rbind].
  (* the score *)
  rewrite <- (app_assoc (p0 +:+ p1) p2).
  rewrite extra_infos_step_block;
    [|done|by rewrite !has_char_app, H0, H1, H2|].
  2:{ rewrite close_tag_cons. by apply contains_plain_end. }
  destruct (_detect_i7_events_debug_tags s) as [[es cs]|e]; [|done].
  cbn [rbind]. rewrite !app_assoc. by do 2 f_equal.
Qed.

End ThreeBlocks.

Lemma three_blocks_extracted_witness :
  _detect_extra_infos
    (three_blocks "" ("A small room." +:+ Str.nl) ""
       ("You carry nothing." +:+ Str.nl) "" ("3" +:+ Str.nl)
       ("You look around." +:+ Str.nl))
  = Ok ({[ "description" := "A small room." +:+ Str.nl;
           "inventory" := "You carry nothing." +:+ Str.nl;
           "score" := "3" +:+ Str.nl ]},
        "You look around." +:+ Str.nl).
Proof.
  rewrite three_blocks_extracted by done. vm_compute. reflexivity.
Defined.
(** ** Traces of several events *)

Section Traces.

Lemma plain_name_spec n :
  plain_name n = true ->
  n <> "" /\ has_char "[" n = false /\ has_char "]" n = false
  /\ Str.contains " - failed" n = false
  /\ Str.contains " - succeeded" n = false.
Proof.
  unfold plain_name. rewrite !andb_true_iff, !negb_true_iff.
  intros ((((Hn & Ho) & Hc) & Hf) & Hs). repeat split; try done.
  intros ->. done.
Qed.

(** The tag of a well-formed event is an eligible token, read back as the
    event. *)
Lemma tag_text_spec ev :
  plain_name (event_name ev) = true ->
  tag_text ev <> "" /\ has_char "[" (tag_text ev) = false
  /\ has_char "]" (tag_text ev) = false
  /\ scanned_event (tag_text ev) = ev.
Proof.
  intros Hn. apply plain_name_spec in Hn as (Hne & Ho & Hc & Hf & Hs).
  destruct ev as [n|n|n]; cbn [tag_text event_name] in *.
  - repeat split; try done. by apply scanned_event_opening.
  - repeat split.
    + by destruct n.
    + by rewrite has_char_app, Ho.
    + by rewrite has_char_app, Hc.
    + apply (scanned_event_closing n true Hf Hs).
  - repeat split.
    + by destruct n.
    + by rewrite has_char_app, Ho.
    + by rewrite has_char_app, Hc.
    + apply (scanned_event_closing n false Hf Hs).
Qed.

(** The tokens of a trace are the tags of its events. *)
Lemma findall_render segs :
  forallb well_formed segs = true ->
  findall_from false 0 (render segs)
  = map (fun ev => token (tag_text ev) true) (events_of segs).
Proof.
  induction segs as [|[u|ev] segs IH]; [done|..]; cbn [forallb well_formed];
    intros Hwf; apply andb_true_iff in Hwf as [Hsg Hwf];
    cbn [render render_segment events_of map].
  - rewrite (findall_plain_text _ _ Hsg). by apply IH.
  - destruct (tag_text_spec ev Hsg) as (Hne & _ & Hc & _).
    rewrite (findall_token_then _ _ _ Hne Hc). cbn [orb]. by rewrite IH.
Qed.

(** The loop on the tags of events. *)
Lemma scan_loop_events evs :
  Forall (fun ev => plain_name (event_name ev) = true) evs ->
  forall st,
    scan_loop st (map (fun ev => token (tag_text ev) true) evs)
    = (try! '(successes, opened) :=
         spec_scan (sc_matches st, sc_open_tags st) evs in
       Ok (ScanState successes opened
             (delete_tokens (map (fun ev => token (tag_text ev) true) evs)
                (sc_text st)))).
Proof.
  induction 1 as [|ev evs Hev _ IH]; intros st; [by destruct st|].
  cbn [map scan_loop spec_scan]. rewrite scan_step_event, tag_inner_token.
  destruct (tag_text_spec ev Hev) as (_ & _ & _ & ->).
  destruct (spec_step _ ev) as [[su op]|e]; cbn [rbind]; [|done].
  by rewrite IH.
Qed.

Lemma token_startswith_diff t t' r :
  has_char "]" t = false -> has_char "]" t' = false -> t <> t' ->
  Str.startswith (token t true) (token t' true +:+ r) = false.
Proof.
  intros Ht Ht' Hne.
  destruct (Str.startswith _ _) eqn:Hs; [|done]. exfalso.
  apply startswith_spec in Hs as [q Hq].
  rewrite !token_app in Hq. injection Hq as Hq.
  by apply token_inner_unique in Hq as [-> _].
Qed.

(** Deleting the tag of an event takes its occurrences out of the
    trace. *)
Lemma delete_render t segs :
  t <> "" -> has_char "]" t = false ->
  forallb well_formed segs = true ->
  Str.replace (token t true) "" (render segs) = render (remove_tag t segs).
Proof.
  intros Hne Ht Hwf. rewrite replace_delete by done.
  induction segs as [|[u|ev] segs IH]; [done|..];
    cbn [forallb well_formed] in Hwf;
    apply andb_true_iff in Hwf as [Hsg Hwf];
    cbn [render render_segment remove_tag List.filter is_tag_of negb].
  - apply plain_text_spec in Hsg as [Hu _].
    rewrite delete_plain;
      [|intros; by apply token_startswith_other|done].
    by rewrite (IH Hwf).
  - destruct (tag_text_spec ev Hsg) as (_ & Ho & Hc & _).
    destruct (String.eqb_spec (tag_text ev) t) as [->|Hdiff];
      cbn [negb render render_segment].
    + rewrite delete_occurrence by done. by apply IH.
    + rewrite delete_token_through;
        [|done|apply token_startswith_diff; done || congruence].
      by rewrite (IH Hwf).
Qed.

Lemma remove_tag_well_formed t segs :
  forallb well_formed segs = true ->
  forallb well_formed (remove_tag t segs) = true.
Proof.
  rewrite !forallb_forall. intros Hwf sg Hin.
  apply filter_In in Hin as [Hin _]. by apply Hwf.
Qed.

Lemma remove_tag_text t segs : text_of (remove_tag t segs) = text_of segs.
Proof.
  induction segs as [|[u|ev] segs IH]; [done|..];
    cbn [remove_tag List.filter is_tag_of negb text_of].
  - by f_equal.
  - by destruct (String.eqb (tag_text ev) t).
Qed.

Lemma remove_tag_events t segs ev :
  ev ∈ events_of (remove_tag t segs) ->
  ev ∈ events_of segs /\ tag_text ev <> t.
Proof.
  induction segs as [|[u|ev'] segs IH];
    cbn [remove_tag List.filter is_tag_of negb events_of].
  - by intros ?%elem_of_nil.
  - exact IH.
  - destruct (String.eqb_spec (tag_text ev') t) as [Heq|Hdiff];
      cbn [negb events_of].
    + intros Hin. destruct (IH Hin) as [Hin' Hne]. split; [|done].
      apply elem_of_cons; by right.
    + intros [->|Hin]%elem_of_cons.
      * split; [apply elem_of_cons; by left|done].
      * destruct (IH Hin) as [Hin' Hne]. split; [|done].
        apply elem_of_cons; by right.
Qed.

Lemma render_no_event segs : events_of segs = [] -> render segs = text_of segs.
Proof.
  induction segs as [|[u|ev] segs IH]; [done| |done].
  cbn [events_of render render_segment text_of]. intros Hev. by rewrite IH.
Qed.

(** When the tags of all the events are deleted, the text is left. *)
Lemma delete_tokens_render evs :
  Forall (fun ev => plain_name (event_name ev) = true) evs ->
  forall segs,
    forallb well_formed segs = true ->
    (forall ev, ev ∈ events_of segs ->
       tag_text ev ∈ map tag_text evs) ->
    delete_tokens (map (fun ev => token (tag_text ev) true) evs) (render segs)
    = text_of segs.
Proof.
  induction 1 as [|ev evs Hev _ IH]; intros segs Hwf Hall.
  - cbn [map delete_tokens fold_left]. apply render_no_event.
    destruct (events_of segs) as [|ev evs'] eqn:He; [done|].
    assert (ev ∈ ev :: evs') as Hin by (apply elem_of_cons; by left).
    specialize (Hall ev Hin). by apply elem_of_nil in Hall.
  - cbn [map]. unfold delete_tokens. cbn [fold_left]. fold (delete_tokens).
    destruct (tag_text_spec ev Hev) as (Hne & _ & Hc & _).
    rewrite (delete_render _ _ Hne Hc Hwf).
    change (fold_left _ ?l ?t) with (delete_tokens l t).
    rewrite IH.
    + apply remove_tag_text.
    + by apply remove_tag_well_formed.
    + intros ev' Hin. apply remove_tag_events in Hin as [Hin Hdiff].
      specialize (Hall ev' Hin). cbn [map] in Hall.
      apply elem_of_cons in Hall as [Heq|Hall]; [done|exact Hall].
Qed.

Lemma events_of_well_formed segs :
  forallb well_formed segs = true ->
  Forall (fun ev => plain_name (event_name ev) = true) (events_of segs).
Proof.
  induction segs as [|[u|ev] segs IH]; [constructor|..];
    cbn [forallb well_formed events_of]; intros Hwf;
    apply andb_true_iff in Hwf as [Hsg Hwf]; [by apply IH|].
  constructor; [done|by apply IH].
Qed.

(** X25: a trace is read back. On the text of a trace whose pieces are
    well formed (text without bracket, names of events without bracket
    and without marker, each tag followed by a line feed), the scanner
    returns what the events call for: they are applied in their order,
    nested or not, repeated or not, a closing event taking away an open
    event of its name; the successes that are no sub-rules are reported
    in their order; [AssertionError] is raised when one is reported
    while an event is left open, and [ValueError] when an event closes
    that is not open. The text returned is the text of the trace without
    its tags, exactly. *)
Theorem rendered_trace_read_back segs :
  forallb well_formed segs = true ->
  _detect_i7_events_debug_tags (render segs)
  = scan_outcome (events_of segs) (text_of segs).
Proof.
  intros Hwf.
  pose proof (events_of_well_formed _ Hwf) as Hevs.
  unfold _detect_i7_events_debug_tags, scan_outcome, scan_tags, findall_tags.
  rewrite (findall_render _ Hwf), (scan_loop_events _ Hevs).
  cbn [sc_matches sc_open_tags sc_text].
  destruct (spec_scan _ _) as [[su op]|e]; cbn [rbind]; [|done].
  cbn [sc_matches sc_open_tags sc_text].
  rewrite (delete_tokens_render _ Hevs _ Hwf); [done|].
  intros ev Hin. apply list_elem_of_fmap. by exists ev.
Qed.

End Traces.

Lemma rendered_trace_read_back_witness :
  _detect_i7_events_debug_tags
    (render [Text ("You try the door." +:+ Str.nl);
             Tag (Opens "opening the door");
             Tag (Opens "unlocking (rule)");
             Tag (Succeeds "unlocking (rule)");
             Text ("The door swings open." +:+ Str.nl);
             Tag (Succeeds "opening the door");
             Tag (Opens "taking the key");
             Tag (Fails "taking the key");
             Text "What now?"])
  = Ok (["opening the door"],
        ("You try the door." +:+ Str.nl)
        +:+ ("The door swings open." +:+ Str.nl) +:+ "What now?").
Proof.
  rewrite rendered_trace_read_back by (vm_compute; reflexivity).
  vm_compute. reflexivity.
Defined.
(** ** The previous state and the tracker *)

Section Frozen.
Context `{GameLogic}.

(** Where a state that is computed comes from. *)
Lemma state_ok_inv sigma s st s1 :
  state sigma s = (Ok st, s1) -> _state s = None ->
  exists l gp,
    _game_progression s = Some l /\ sigma !! l = Some gp
    /\ st = gp_state gp /\ s1 = set_state (Some (gp_state gp)) s.
Proof.
  unfold state, progression. msimpl. intros Hrun Hc. rewrite Hc in Hrun.
  destruct (_game_progression s) as [l|]; [|done]. simpl in Hrun.
  destruct (sigma !! l) as [gp|] eqn:Hgp; [|done].
  injection Hrun as <- <-. eauto 6.
Qed.

(** [view] reads the state first, and the snapshot keeps it. *)
Lemma view_reads_state sigma s v s1 :
  view sigma s = (Ok v, s1) ->
  exists st sa, state sigma s = (Ok st, sa) /\ _state s1 = Some st.
Proof.
  intros Hrun. unfold view in Hrun.
  gets_inv Hrun prev. bind_inv Hrun st sa Hst.
  exists st, sa. split; [done|].
  pose proof (state_resolves _ _ _ _ Hst) as Hres.
  pose proof (state_extends _ _ _ _ Hst) as E1.
  assert (view sigma sa = (Ok v, s1)) as Hagain.
  { unfold view. unfold bind at 1, gets at 1.
    rewrite (ext_previous_state _ _ E1).
    unfold bind at 1. by rewrite (state_cached _ _ _ Hres). }
  apply view_extends in Hagain. by apply (ext_state _ _ Hagain).
Qed.

(** X26: the previous state of a snapshot is a picture of the turn
    before: when the state of a snapshot was never read, a turn reads it
    from the tracker as it is before the events of the turn are applied,
    and the view that the new snapshot holds as its previous state keeps
    that state, whatever becomes of the tracker, which both snapshots
    share. The state of the new snapshot is the one of the tracker as the
    turn leaves it. *)
Theorem previous_state_frozen cmd out sigma self s' sigma' self' l gp :
  update cmd out (sigma, self) = (Ok s', (sigma', self')) ->
  _game_progression self = Some l -> sigma !! l = Some gp ->
  _state self = None ->
  exists prev gp',
    previous_state s' = Some prev
    /\ _state prev = Some (gp_state gp)
    /\ (forall sigma0, state sigma0 prev = (Ok (gp_state gp), prev))
    /\ _state self' = Some (gp_state gp)
    /\ _game_progression s' = Some l
    /\ sigma' !! l = Some gp'
    /\ state sigma' s' = (Ok (gp_state gp'), set_state (Some (gp_state gp')) s').
Proof.
  intros Hup Hl Hgp Hnone.
  apply update_ok_shape in Hup
    as (new & text & evs & fb & old & obj & i7 & game & l' & Hx & Hy & Hv
        & Hold & Hobj & Hi & Hg & Hl' & Hshape).
  cbv zeta in Hshape. pose proof (view_extends _ _ _ _ Hv) as Hext.
  rewrite (ext_game_progression _ _ Hext), Hl in Hl'. injection Hl' as <-.
  apply view_reads_state in Hv as (st & sa & Hst & Hkept).
  apply state_ok_inv in Hst as (l0 & gp0 & Hl0 & Hgp0 & -> & _); [|done].
  rewrite Hl in Hl0. injection Hl0 as <-.
  rewrite Hgp in Hgp0. injection Hgp0 as <-.
  set (base := set_feedback fb _) in Hshape.
  assert (exists act gp',
            s' = set_action act base /\ sigma' !! l = Some gp')
    as (act & gp' & -> & Hgp').
  { destruct (_state_tracking self').
    - rewrite (track_events_replay self' l i7 evs) with (gp := gp)
        in Hshape; try done.
      + injection Hshape as <- <-. eexists _, _. split; [done|].
        unfold store in *. apply list_lookup_insert_eq.
        apply lookup_lt_is_Some. eauto.
      + by rewrite (ext_game_progression _ _ Hext).
    - destruct Hshape as [-> ->]. exists (_action base), gp.
      by rewrite set_action_same. }
  exists (view_of self'), gp'.
  split; [done|]. split; [exact Hkept|].
  split; [intros sigma0; by apply state_cached|].
  split; [exact Hkept|]. split; [done|]. split; [exact Hgp'|].
  unfold state, progression. msimpl. by rewrite Hgp'.
Qed.

End Frozen.
(* ===================================================================== *)
(** * The further properties on the scenarios *)
(* ===================================================================== *)

Import Toy Scenario ScenarioTexts MoreScenarios.

Lemma send_unescapes_witness :
  exists e1,
    Env._send "look" coloured_env
    = (Ok (Some ("A " +:+ Env.csi +:+ "31mred door." +:+ prompt)), e1).
Proof.
  assert (exists out e1, Env._send "look" coloured_env = (Ok (Some out), e1))
    as (out & e1 & Hsend) by (eexists _, _; vm_compute; reflexivity).
  exists e1.
  destruct (send_unescapes _ _ _ _ Hsend)
    as (_ & p0 & p & raw & p' & Hp0 & Hpoll & Hraw & _ & _ & Hpieces).
  injection Hp0 as <-. injection Hpoll as <-. injection Hraw as <- _.
  rewrite (Hpieces ["A "; "31mred door." +:+ prompt]) in Hsend.
  - exact Hsend.
  - by repeat constructor.
  - reflexivity.
Defined.


Lemma view_description_witness :
  exists v s1,
    view (fst (snd after_look)) looked = (Ok v, s1)
    /\ SideChannel.description looked
       = (Ok ("A small room." +:+ Str.nl),
          SideChannel.set_description (Some ("A small room." +:+ Str.nl)) looked)
    /\ SideChannel.description v = (Ok "", v).
Proof.
  assert (exists v s1, view (fst (snd after_look)) looked = (Ok v, s1))
    as (v & s1 & Hv) by (eexists _, _; vm_compute; reflexivity).
  exists v, s1. split; [exact Hv|].
  destruct (view_description _ _ _ _ Hv) as (_ & _ & Hquirk).
  apply (Hquirk {[ "description" := "A small room." +:+ Str.nl;
                   "score" := "12" +:+ Str.nl ]});
    vm_compute; reflexivity.
Defined.

Lemma update_replays_events_witness :
  exists s' sigma' self' evs,
    after_door true false = (Ok s', (sigma', self'))
    /\ _action s' = snd (replay game1 (ToyProgression ["open door"; "go north"] 0 false) None evs)
    /\ sigma'
       = <[0%nat := fst (replay game1
                           (ToyProgression ["open door"; "go north"] 0 false)
                           None evs)]>
           (fst (started game1 true false)).
Proof.
  assert (exists s' sigma' self',
            after_door true false = (Ok s', (sigma', self')))
    as (s' & sigma' & self' & Hup)
    by (eexists _, _, _; vm_compute; reflexivity).
  destruct (update_replays_events _ _ _ _ _ _ _ Hup)
    as (facts & text & evs & fb & _ & _ & _ & _ & Hon).
  exists s', sigma', self', evs. split; [exact Hup|].
  destruct (Hon eq_refl 0%nat (ToyProgression ["open door"; "go north"] 0 false)
              game1 eq_refl eq_refl eq_refl) as (Hstore & Hact & _).
  split; [exact Hact|exact Hstore].
Defined.

Lemma update_merges_facts_witness :
  exists s' w' new old,
    update "wait" ("Time passes." +:+ prompt) (fst (snd after_look), looked)
    = (Ok s', w')
    /\ _extra_infos looked = Some old
    /\ SideChannel.description s'
       = match latest_fact "description" new old with
         | Some d => (Ok d, SideChannel.set_description (Some d) s')
         | None => (Raise (ExtraInfosIsMissingError "description"), s')
         end.
Proof.
  assert (exists s' sigma' self',
            update "wait" ("Time passes." +:+ prompt)
              (fst (snd after_look), looked)
            = (Ok s', (sigma', self')))
    as (s' & sigma' & self' & Hup)
    by (eexists _, _, _; vm_compute; reflexivity).
  destruct (update_merges_facts _ _ _ _ _ _ _ Hup)
    as (new & text & old & _ & Hold & _ & Hd & _).
  exists s', (sigma', self'), new, old.
  split; [exact Hup|]. split; [exact Hold|exact Hd].
Defined.

Lemma closed_game_does_not_play_witness :
  Env.step "look" new_env = (Raise GameNotRunningError, new_env)
  /\ Env.close new_env = (Ok tt, new_env).
Proof.
  destruct (@closed_game_does_not_play logic Toy.transport new_env)
    as (_ & Hnone & _).
  destruct (Hnone eq_refl "look") as (_ & Hstep & _ & Hclose).
  by split.
Defined.

Lemma step_records_move_witness :
  exists gs sc ended e',
    Env.step "  go north " env_about_to_win = (Ok (gs, sc, ended), e')
    /\ _command gs = Some (Str.strip "  go north ").
Proof.
  assert (exists gs sc ended e',
            Env.step "  go north " env_about_to_win = (Ok (gs, sc, ended), e'))
    as (gs & sc & ended & e' & Hstep)
    by (eexists _, _, _, _; vm_compute; reflexivity).
  exists gs, sc, ended, e'. split; [exact Hstep|].
  destruct (step_records_move _ _ _ _ _ _ Hstep)
    as (old & prev & _ & _ & Hcmd & _).
  exact Hcmd.
Defined.

Lemma step_score_witness :
  exists gs sc ended e',
    Env.step "go north" env_about_to_win = (Ok (gs, sc, ended), e')
    /\ _score gs = Some sc.
Proof.
  assert (exists gs sc ended e',
            Env.step "go north" env_about_to_win = (Ok (gs, sc, ended), e'))
    as (gs & sc & ended & e' & Hstep)
    by (eexists _, _, _, _; vm_compute; reflexivity).
  exists gs, sc, ended, e'. split; [exact Hstep|].
  by destruct (step_score _ _ _ _ _ _ Hstep).
Defined.

Lemma reset_fresh_snapshot_witness :
  exists gs e',
    Env.reset echo_env = (Ok gs, e')
    /\ _nb_moves gs = 0%nat /\ _score gs = Some 0
    /\ previous_state gs = None.
Proof.
  assert (exists gs e', Env.reset echo_env = (Ok gs, e'))
    as (gs & e' & Hreset) by (eexists _, _; vm_compute; reflexivity).
  exists gs, e'. split; [exact Hreset|].
  destruct (reset_fresh_snapshot _ _ _ Hreset)
    as (_ & Hnb & _ & Hprev & _ & _ & Hsc & _).
  split; [exact Hnb|]. split; [exact Hsc|exact Hprev].
Defined.

Lemma reset_new_session_witness :
  exists gs e',
    Env.reset echo_env = (Ok gs, e')
    /\ Env.extra_info e' = {[ "score" ]} ∪ ∅
    /\ Env.heap e' = [ToyProgression ["open door"; "go north"] 0 false].
Proof.
  assert (exists gs e', Env.reset echo_env = (Ok gs, e'))
    as (gs & e' & Hreset) by (eexists _, _; vm_compute; reflexivity).
  exists gs, e'. split; [exact Hreset|].
  destruct (reset_new_session _ _ _ Hreset) as (Hheap & _ & _ & Hinfo & _).
  split; [exact Hinfo|exact Hheap].
Defined.

Lemma reset_start_failure_witness :
  exists e', Env.reset mute_env = (Raise ValueError, e').
Proof.
  destruct (@reset_start_failure logic Mute.transport mute_env eq_refl)
    as (e' & Hreset & _).
  by exists e'.
Defined.

Lemma score_reads_printed_number_witness :
  score [] looked = (Ok 12, set_score (Some 12) looked)
  /\ score [] separated = (Raise ValueError, separated).
Proof.
  destruct (@score_reads_printed_number logic [] looked
              {[ "description" := "A small room." +:+ Str.nl;
                 "score" := "12" +:+ Str.nl ]} eq_refl eq_refl eq_refl)
    as [Hnumber _].
  destruct (@score_reads_printed_number logic [] separated
              {[ "score" := String (ascii_of_nat 28) "7" +:+ Str.nl ]}
              eq_refl eq_refl eq_refl)
    as [_ Hseparator].
  split.
  - apply (Hnumber "" false [1; 2]%nat Str.nl);
      try (vm_compute; reflexivity); try done.
    + repeat constructor.
    + simpl. lia.
  - by apply (Hseparator (ascii_of_nat 28) ("7" +:+ Str.nl)).
Defined.

Lemma update_plain_output_witness :
  exists s' sigma' self',
    update "wait" ("*** The End ***" +:+ prompt) (started game1 false false)
    = (Ok s', (sigma', self'))
    /\ _feedback s' = "*** The End ***"
    /\ sigma' = fst (started game1 false false)
    /\ has_won [] s' = (Ok true, set_has_won (Some true) s').
Proof.
  assert (exists s' sigma' self',
            update "wait" ("*** The End ***" +:+ prompt)
              (fst (started game1 false false), snd (started game1 false false))
            = (Ok s', (sigma', self')))
    as (s' & sigma' & self' & Hup)
    by (eexists _, _, _; vm_compute; reflexivity).
  exists s', sigma', self'. split; [exact Hup|].
  destruct (update_plain_output _ _ _ _ _ _ _ Hup)
    as (Hfb & _ & _ & Hstore & Hend).
  - vm_compute; reflexivity.
  - intros tag Htag. unfold extra_info_tags in Htag.
    apply elem_of_cons in Htag as [->|Htag]; [by left|].
    apply elem_of_cons in Htag as [->|Htag]; [by left|].
    apply list_elem_of_singleton in Htag as ->. by left.
  - split; [exact Hfb|]. split; [exact Hstore|].
    by destruct (Hend eq_refl []) as [Hwon _].
Defined.

Lemma command_feedback_first_move_witness :
  (exists w',
     SideChannel.command_feedback (snd arrived, None) = (Ok "", w')
     /\ snd w' = Some "")
  /\ SideChannel.command_feedback (snd (started game1 false false), None)
     = (Raise (ExtraInfosIsMissingError "description"),
        (snd (started game1 false false), None)).
Proof.
  assert (exists v w',
            SideChannel.command_feedback (snd arrived, None) = (Ok v, w'))
    as (v & w' & Hrun) by (eexists _, _; vm_compute; reflexivity).
  destruct (command_feedback_first_move (snd arrived)) as (Hfirst & _ & _).
  destruct (Hfirst v w' Hrun eq_refl) as [-> Hcell].
  split; [exists w'; split; [exact Hrun|exact Hcell]|].
  destruct (command_feedback_first_move (snd (started game1 false false)))
    as (_ & Hmissing & _).
  apply (Hmissing ∅); vm_compute; reflexivity.
Defined.

Lemma command_feedback_stripped_witness :
  exists w',
    SideChannel.command_feedback (explored, None) = (Ok "", w')
    /\ SideChannel.command_feedback w' = (Ok "", w').
Proof.
  assert (exists v w',
            SideChannel.command_feedback (explored, None) = (Ok v, w'))
    as (v & w' & Hrun) by (eexists _, _; vm_compute; reflexivity).
  destruct (command_feedback_stripped _ _ _ Hrun) as (_ & Hnext & Honly).
  assert (exists s1,
            SideChannel.description explored
            = (Ok ("A small room." +:+ Str.nl), s1))
    as (s1 & Hd) by (eexists; vm_compute; reflexivity).
  assert (v = "") as ->.
  { apply (Honly _ _ "" Str.nl Hd); vm_compute; (reflexivity || lia). }
  exists w'. split; [exact Hrun|exact Hnext].
Defined.

Lemma previous_state_frozen_witness :
  exists s' sigma' self' prev gp',
    after_door true false = (Ok s', (sigma', self'))
    /\ previous_state s' = Some prev
    /\ _state prev
       = Some (gp_state (ToyProgression ["open door"; "go north"] 0 false))
    /\ sigma' !! 0%nat = Some gp'
    /\ state sigma' s'
       = (Ok (gp_state gp'), set_state (Some (gp_state gp')) s').
Proof.
  assert (exists s' sigma' self',
            update "open door" door_output
              (fst (started game1 true false), snd (started game1 true false))
            = (Ok s', (sigma', self')))
    as (s' & sigma' & self' & Hup)
    by (eexists _, _, _; vm_compute; reflexivity).
  destruct (@previous_state_frozen logic _ _ _ _ _ _ _ 0%nat
              (ToyProgression ["open door"; "go north"] 0 false) Hup
              eq_refl eq_refl eq_refl)
    as (prev & gp' & Hprev & Hkept & _ & _ & _ & Hgp' & Hnew).
  exists s', sigma', self', prev, gp'.
  split; [exact Hup|]. split; [exact Hprev|]. split; [exact Hkept|].
  split; [exact Hgp'|exact Hnew].
Defined.
